(** * System-design demos: top-K windowed aggregator, URL shortener, room relay,
      leaderboard input

    Shallow embedding of the programs of the repository and the proofs of
    their specified properties:

    - [TopK]: [TopKWindowedAggregator.process] (Java, src/unnamed/part_001),
      together with the parts of [java.util] it runs on (String.hashCode,
      HashMap, PriorityQueue, the stable List.sort, LinkedHashMap);
    - [Windows]: the window assigner, store and scheduler that the
      specification describes and the repository leaves to the stream
      framework, modelled from the specification;
    - [UrlShortener]: the Express handlers of src/unnamed/part_000;
    - [Relay]: the WebSocket room relay of src/google-docs/websocket.js;
    - [Contest]: the input line of the leaderboard,
      [LeaderboardDemo.parseInput] of src/leetcode-contest/contest.js and
      the handler that calls it.

    The definitions come first, module by module; the proofs follow. *)

From Equations Require Import Equations.
From stdpp Require Import base list sorting gmap strings.
From Stdlib Require Import ZArith Lia ZifyNat.
From Stdlib Require SpecFloat.

Local Open Scope Z_scope.

(* ===================================================================== *)
(** * The top-K aggregator *)
(* ===================================================================== *)

Module TopK.

(** ** Java [int] arithmetic *)

(** A Java [int] is a [Z] in [-2^31, 2^31); [wrap32] is the reduction that
    every [int] operation ends with. *)
Definition wrap32 (z : Z) : Z := (z + 2 ^ 31) mod 2 ^ 32 - 2 ^ 31.

(** [a + b] on [int]. *)
Definition int_add (a b : Z) : Z := wrap32 (a + b).

(** [Integer.compare(a, b)], also [a.compareTo(b)]. *)
Definition Integer_compare (a b : Z) : Z :=
  if a <? b then -1 else if a =? b then 0 else 1.

(** ** Keys and entries *)

(** A [Map.Entry<String, Integer>]: [getKey] is [fst], [getValue] is [snd].
    A key is the sequence of its UTF-16 code units (each [ascii] stands for
    the unit with the same code). *)
Definition entry : Type := string * Z.

Definition getKey (e : entry) : string := fst e.
Definition getValue (e : entry) : Z := snd e.

(** ** [java.lang.String.hashCode] and [java.util.HashMap] *)

(** [h = 31 * h + c] over the code units, on [int]. *)
Fixpoint hashCode_from (h : Z) (s : string) : Z :=
  match s with
  | EmptyString => h
  | String c s' => hashCode_from (wrap32 (31 * h + Z.of_N (Ascii.N_of_ascii c))) s'
  end.

Definition hashCode (s : string) : Z := hashCode_from 0 s.

(** [HashMap.hash]: [(h = key.hashCode()) ^ (h >>> 16)]. The unsigned shift
    reads [h] as its 32-bit pattern; the xor of a 32-bit pattern with a
    16-bit one is taken on patterns and read back as an [int]. *)
Definition hash (key : string) : Z :=
  let h := hashCode key in
  wrap32 (Z.lxor (h mod 2 ^ 32) (Z.shiftr (h mod 2 ^ 32) 16)).

(** The table length after [size] insertions: 16 at the first [put], doubled
    by [resize] each time [++size > threshold] (threshold = 0.75 * length),
    up to [MAXIMUM_CAPACITY = 2^30]. *)
Fixpoint resize_loop (fuel : nat) (cap size : Z) : Z :=
  match fuel with
  | O => cap
  | S fuel' =>
      if (size >? cap * 3 / 4) && (cap <? 2 ^ 30)
      then resize_loop fuel' (cap * 2) size
      else cap
  end.

Definition table_length (size : nat) : Z := resize_loop 27 16 (Z.of_nat size).

(** The bucket of a key: [(n - 1) & hash]. *)
Definition bucket_index (n : Z) (key : string) : Z := Z.land (n - 1) (hash key).

(** A [HashMap<String, Integer>] is modelled by its entries in the order
    their keys were first inserted. A bucket's chain holds its keys in that
    order ([putVal] appends at the tail and [resize] splits a chain
    preserving the order), so the table of length [n] is recovered from the
    list. Chains long enough to be turned into trees (more than 8 keys in
    one bucket) are outside this model. *)
Abbreviation HashMap := (list entry) (only parsing).

(** [new HashMap<>()] *)
Definition new_HashMap : HashMap := [].

(** [m.getOrDefault(key, d)] *)
Fixpoint getOrDefault (m : HashMap) (key : string) (d : Z) : Z :=
  match m with
  | [] => d
  | (k, v) :: m' => if String.eqb k key then v else getOrDefault m' key d
  end.

(** [m.get(key)], [None] for Java's [null]. *)
Fixpoint get (m : HashMap) (key : string) : option Z :=
  match m with
  | [] => None
  | (k, v) :: m' => if String.eqb k key then Some v else get m' key
  end.

(** [m.put(key, value)]: the value of a present key is replaced in place, a
    new key is appended. *)
Fixpoint put (m : HashMap) (key : string) (value : Z) : HashMap :=
  match m with
  | [] => [(key, value)]
  | (k, v) :: m' =>
      if String.eqb k key then (k, value) :: m' else (k, v) :: put m' key value
  end.

(** The chain of bucket [i]. *)
Definition chain (n : Z) (m : HashMap) (i : Z) : list entry :=
  filter (fun e => bucket_index n (getKey e) = i) m.

(** [m.entrySet()] in iteration order: the buckets by index, each chain
    from its head. *)
Definition entrySet (m : HashMap) : list entry :=
  let n := table_length (length m) in
  concat (map (chain n m) (seqZ 0 n)).

(** ** [java.util.PriorityQueue] with the comparator of [process] *)

(** [Comparator.comparingInt(Map.Entry::getValue)] *)
Definition comparator (a b : entry) : Z :=
  Integer_compare (getValue a) (getValue b).

(** A queue is the used prefix [queue[0 .. size-1]] of its array. *)
Abbreviation PriorityQueue := (list entry) (only parsing).

(** [siftUpUsingComparator(k, x, es, cmp)]:
<<
    while (k > 0) {
        int parent = (k - 1) >>> 1;
        Object e = es[parent];
        if (cmp.compare(x, (T) e) >= 0) break;
        es[k] = e;
        k = parent;
    }
    es[k] = x;
>> *)
Equations? siftUp (k : nat) (x : entry) (es : list entry) : list entry
  by wf k lt :=
  siftUp 0 x es := <[0%nat := x]> es;
  siftUp (S k') x es with es !! (k' / 2)%nat => {
    | None := <[S k' := x]> es;
    | Some e with (comparator x e >=? 0) => {
      | true := <[S k' := x]> es;
      | false := siftUp (k' / 2)%nat x (<[S k' := e]> es) } }.
Proof. pose proof (Nat.Div0.div_le_upper_bound k' 2 k'). lia. Qed.

(** The child that the loop of [siftDown] descends to from [k]:
<<
        int child = (k << 1) + 1;
        Object c = es[child];
        int right = child + 1;
        if (right < n && cmp.compare((T) c, (T) es[right]) > 0)
            c = es[child = right];
>> *)
Definition smaller_child (k : nat) (es : list entry) : nat :=
  let child := (2 * k + 1)%nat in
  let right := (child + 1)%nat in
  match es !! child, es !! right with
  | Some c, Some r => if comparator c r >? 0 then right else child
  | _, _ => child
  end.

Lemma smaller_child_bounds k es :
  (2 * k + 1 <= smaller_child k es <= 2 * k + 2)%nat.
Proof.
  unfold smaller_child.
  destruct (es !! (2 * k + 1)%nat) as [c|]; [|lia].
  destruct (es !! (2 * k + 1 + 1)%nat) as [r|]; [|lia].
  destruct (comparator c r >? 0); lia.
Qed.

(** [siftDownUsingComparator(k, x, es, n, cmp)] with [n = length es]:
<<
    int half = n >>> 1;
    while (k < half) {
        (child, c as above)
        if (cmp.compare(x, (T) c) <= 0) break;
        es[k] = c;
        k = child;
    }
    es[k] = x;
>> *)
Equations? siftDown (k : nat) (x : entry) (es : list entry) : list entry
  by wf (length es - k)%nat lt :=
  siftDown k x es with decide (k < length es / 2)%nat => {
    | right _ := <[k := x]> es;
    | left _ with es !! smaller_child k es => {
      | None := <[k := x]> es;
      | Some c with (comparator x c <=? 0) => {
        | true := <[k := x]> es;
        | false := siftDown (smaller_child k es) x (<[k := c]> es) } } }.
Proof.
  rewrite length_insert.
  pose proof (smaller_child_bounds k es).
  pose proof (Nat.Div0.mul_div_le (length es) 2). lia.
Qed.

(** [heap.offer(e)]: [siftUp(size, e); size = size + 1]. The slot
    [es[size]] is free before the call and [siftUp] always writes it, so
    what the model puts there first is immaterial; it puts [e]. *)
Definition offer (e : entry) (q : PriorityQueue) : PriorityQueue :=
  siftUp (length q) e (q ++ [e]).

(** [heap.poll()]: the head and the queue left,
<<
    if ((result = es[0]) != null) {
        final E x = es[(n = --size)];
        es[n] = null;
        if (n > 0) siftDown(0, x, es, n);
    }
    return result;
>> *)
Definition poll (q : PriorityQueue) : option entry * PriorityQueue :=
  match q !! 0%nat with
  | None => (None, q)
  | Some result =>
      let n := (length q - 1)%nat in
      match q !! n with
      | None => (None, q)
      | Some x =>
          let es := take n q in
          (Some result, if (0 <? n)%nat then siftDown 0 x es else es)
      end
  end.

(** ** [List.sort(c)]: a stable sort *)

(** [List.sort] is stable, and a stable sort has one possible result for a
    comparator that is a total preorder: the result of this insertion
    sort, which puts an element after exactly the elements that either
    precede it strictly or tie with it and stood before it. *)
Section StableSort.
Variable c : entry -> entry -> Z.

Fixpoint sort_insert (x : entry) (l : list entry) : list entry :=
  match l with
  | [] => [x]
  | y :: l' => if c y x <=? 0 then y :: sort_insert x l' else x :: y :: l'
  end.

Definition sort (l : list entry) : list entry :=
  fold_left (fun sorted x => sort_insert x sorted) l [].

End StableSort.

(** ** [TopKWindowedAggregator] *)

Definition K : nat := 5.

(** An element of the window, a [Tuple2<String, Integer>]: [f0], [f1]. *)
Definition Tuple2 : Type := string * Z.
Definition f0 (e : Tuple2) : string := fst e.
Definition f1 (e : Tuple2) : Z := snd e.

(** Step 1 of [process]:
<<
    Map<String, Integer> counts = new HashMap<>();
    for (Tuple2<String, Integer> e : elements)
        counts.put(e.f0, counts.getOrDefault(e.f0, 0) + e.f1);
>> *)
Definition counts (elements : list Tuple2) : HashMap :=
  fold_left
    (fun counts e => put counts (f0 e) (int_add (getOrDefault counts (f0 e) 0) (f1 e)))
    elements new_HashMap.

(** Step 2, over the entries in the order [counts.entrySet()] yields them,
    with the capacity [k] for the constant [K]:
<<
    for (Map.Entry<String, Integer> entry : counts.entrySet()) {
        heap.offer(entry);
        if (heap.size() > K) heap.poll();
    }
>> *)
Definition heap (k : nat) (entries : list entry) : PriorityQueue :=
  fold_left
    (fun heap entry =>
       let heap := offer entry heap in
       if (k <? length heap)%nat then snd (poll heap) else heap)
    entries [].

(** Step 3: [new ArrayList<>(heap)] copies the queue's array in index
    order; the comparator of the sort is
    [(a, b) -> b.getValue().compareTo(a.getValue())]. *)
Definition descending (a b : entry) : Z :=
  Integer_compare (getValue b) (getValue a).

Definition topK (heap : PriorityQueue) : list entry := sort descending heap.

(** [result] is a [LinkedHashMap], which iterates in the order of first
    insertion: the same list model as above, read in list order. *)
Definition result (topK : list entry) : list entry :=
  fold_left (fun result e => put result (getKey e) (getValue e)) topK [].

(** Steps 2 and 3: the top-K selection, from the iteration sequence of the
    counts to the emitted sequence. *)
Definition selectTopK (k : nat) (entries : list entry) : list entry :=
  result (topK (heap k entries)).

(** [process]: what [out.collect] receives for the window's elements. *)
Definition process (elements : list Tuple2) : list entry :=
  selectTopK K (entrySet (counts elements)).

(** ** The reference selection of the specification *)

(** This definition follows the words of the specification, not the code:
    sort all entries by count descending, ties broken by key ascending
    (lexicographic), and take the first [k]. *)

(** [a] is ranked before [b]. *)
Definition ranked_before (a b : entry) : bool :=
  (getValue b <? getValue a) ||
  ((getValue a =? getValue b) && String.ltb (getKey a) (getKey b)).

Fixpoint reference_insert (x : entry) (l : list entry) : list entry :=
  match l with
  | [] => [x]
  | y :: l' => if ranked_before x y then x :: y :: l' else y :: reference_insert x l'
  end.

Definition reference_sort (entries : list entry) : list entry :=
  foldr reference_insert [] entries.

Definition selectTopK_reference (k : nat) (entries : list entry) : list entry :=
  take k (reference_sort entries).

(** ** [main]: the elements of the job *)

(** [input.map(item -> new Tuple2<>(item, 1))]: each item id read from the
    socket becomes the element [(item, 1)]. *)
Definition itemCounts (input : list string) : list Tuple2 :=
  map (fun item => (item, 1)) input.

(** [.keyBy(tuple -> tuple.f0)]: of the elements of a window, the ones
    that one call of [process] receives, those of one key in the order of
    their arrival. *)
Definition keyBy (key : string) (window : list Tuple2) : list Tuple2 :=
  filter (fun tuple => f0 tuple = key) window.


End TopK.

(* ===================================================================== *)
(** * The window machinery of the specification *)
(* ===================================================================== *)

(** The repository leaves the windows to the stream framework
    ([.window(SlidingProcessingTimeWindows.of(Time.minutes(1),
    Time.seconds(5)))] in [main]); the assigner, the store and the
    scheduler of the specification have no code in src/. They are modelled
    here from the specification (sections 3, 4.1, 4.2, 4.4 and 4.5). *)

Module Windows.

Local Open Scope Z_scope.

(** Modelled from the spec: the [WindowSpec] configuration (section 3),
    [{ size, slide }]. *)
Record WindowSpec : Type := { size : Z; slide : Z }.

(** Modelled from the spec: the invariant of [WindowSpec] (section 3),
    [size] a positive multiple of [slide]. *)
Definition valid (spec : WindowSpec) : Prop :=
  0 < slide spec /\ 0 < size spec /\ size spec mod slide spec = 0.

(** Modelled from the spec: an [Event] (section 3),
    [{ key, occurredAt, weight }]. *)
Record Event : Type := { key : string; occurredAt : Z; weight : Z }.

(** Modelled from the spec: the window assigner [assign] (section 4.1),
    absent from src/. A window instance is named by its start, its end
    being [start + size]; an event at time [t] belongs to every instance
    with [start <= t < start + size] whose start is a multiple of [slide]:
    the starts from [t - size + 1] to [t] are filtered by that. *)
Definition assign (t : Z) (spec : WindowSpec) : list Z :=
  filter (fun start => start mod slide spec = 0)
         (seqZ (t - size spec + 1) (size spec)).

(** Modelled from the spec: the state of the per-key window store
    (sections 3 and 4.2), absent from src/: window start, then key, to the
    running count. *)
Abbreviation Store := (gmap Z (gmap string Z)) (only parsing).

(** Modelled from the spec: [snapshot] (section 4.2), absent from src/:
    the counts of one window instance, read without changing the store. *)
Definition snapshot (w : Z) (store : Store) : gmap string Z :=
  default ∅ (store !! w).

(** Modelled from the spec: the running count of a key in a window
    instance (section 3, [WindowKeyState]), 0 when there is no entry. *)
Definition count (w : Z) (k : string) (store : Store) : Z :=
  default 0 (snapshot w store !! k).

(** Modelled from the spec: [increment] (section 4.2), absent from src/:
    adds [weight] to the running count, the entry being created with
    count 0 first if absent. *)
Definition increment (w : Z) (k : string) (weight : Z) (store : Store) : Store :=
  <[w := <[k := count w k store + weight]> (snapshot w store)]> store.

(** Modelled from the spec: [evict] (section 4.2), absent from src/:
    removes all entries of the window instance. *)
Definition evict (w : Z) (store : Store) : Store := delete w store.

(** Modelled from the spec: a [TopKSnapshot] (section 3), the window
    instance and its ordered entries. *)
Record TopKSnapshot : Type :=
  { windowStart : Z; windowEnd : Z; entries : list (string * Z) }.

(** Modelled from the spec: the state of the window scheduler with its
    store (sections 4.4 and 7), absent from src/: the store, the window
    instances that are closed, the snapshots handed to the sink so far and
    the late-event metric. *)
Record Scheduler : Type :=
  { store : gmap Z (gmap string Z);
    closed : gset Z;
    emitted : list TopKSnapshot;
    late : nat }.

(** Modelled from the spec: the aggregator at start-up, with no state. *)
Definition init : Scheduler :=
  {| store := ∅; closed := ∅; emitted := []; late := 0 |}.

(** Modelled from the spec: an increment as the scheduler lets it through
    (section 4.4, step 3, and section 7, [LateEvent]), absent from src/:
    for a closed window instance it is dropped and counted, otherwise it
    reaches the store. *)
Definition guarded_increment (w : Z) (k : string) (weight : Z) (st : Scheduler) : Scheduler :=
  if decide (w ∈ closed st)
  then {| store := store st; closed := closed st; emitted := emitted st;
          late := S (late st) |}
  else {| store := increment w k weight (store st); closed := closed st;
          emitted := emitted st; late := late st |}.

(** Modelled from the spec: [ingest] past its validation (section 4.5),
    absent from src/: the assigner, then the store for each resulting
    window instance. *)
Definition ingest (spec : WindowSpec) (e : Event) (st : Scheduler) : Scheduler :=
  foldr (fun w st => guarded_increment w (key e) (weight e) st) st
        (assign (occurredAt e) spec).

(** Modelled from the spec: the closing of one window instance (section
    4.4, step 2), absent from src/: snapshot, [selectTopK], hand-over to
    the sink, eviction, and the instance is closed. The selection is the
    one the specification defines. *)
Definition close (spec : WindowSpec) (k : nat) (w : Z) (st : Scheduler) : Scheduler :=
  {| store := evict w (store st);
     closed := {[w]} ∪ closed st;
     emitted := emitted st ++
       [{| windowStart := w; windowEnd := w + size spec;
           entries := TopK.selectTopK_reference k
                        (map_to_list (snapshot w (store st))) |}];
     late := late st |}.

(** Modelled from the spec: a tick at time [now] (section 4.4, steps 1 and
    2), absent from src/: every window instance that holds state and whose
    end is at most [now] is closed. *)
Definition tick (spec : WindowSpec) (k : nat) (now : Z) (st : Scheduler) : Scheduler :=
  foldr (close spec k) st
        (filter (fun w => w + size spec <= now) (elements (dom (store st)))).

(** Modelled from the spec: what reaches the aggregator, an event or a
    tick of the clock. *)
Inductive Input : Type :=
  | Arrival (e : Event)
  | Tick (now : Z).

(** Modelled from the spec: the aggregator taking one input. *)
Definition step (spec : WindowSpec) (k : nat) (st : Scheduler) (i : Input) : Scheduler :=
  match i with
  | Arrival e => ingest spec e st
  | Tick now => tick spec k now st
  end.

(** Modelled from the spec: the aggregator taking inputs in turn. *)
Definition run (spec : WindowSpec) (k : nat) (st : Scheduler) (inputs : list Input) : Scheduler :=
  fold_left (step spec k) inputs st.

(** Modelled from the spec: the snapshots emitted for one window
    instance. *)
Definition emitted_for (w : Z) (st : Scheduler) : list TopKSnapshot :=
  filter (fun s => windowStart s = w) (emitted st).

End Windows.

(* ===================================================================== *)
(** * The URL shortener *)
(* ===================================================================== *)

Module UrlShortener.

Local Open Scope string_scope.
Local Open Scope list_scope.
Local Open Scope nat_scope.

(** A value of the parsed JSON body, or [undefined] for a property that is
    not there. A number is kept as whether it is zero (or NaN), the one
    thing about it the handlers read; arrays and objects are kept as
    [JObject]. *)
Inductive JSValue : Type :=
  | JUndefined
  | JNull
  | JBool (b : bool)
  | JNumber (zero : bool)
  | JString (s : string)
  | JObject.

(** JavaScript's truthiness, the negation of [!v]. *)
Definition truthy (v : JSValue) : bool :=
  match v with
  | JUndefined | JNull => false
  | JBool b => b
  | JNumber zero => negb zero
  | JString s => negb (String.eqb s "")
  | JObject => true
  end.

(** [const urlMap = new Map()]: short URL to long URL. *)
Abbreviation UrlMap := (gmap string JSValue) (only parsing).

(** The server: the map, and [Math.random] as the sequence of the values
    [Math.floor(Math.random() * chars.length)] it will yield together with
    the number of values drawn so far. *)
Record Server : Type :=
  { urlMap : gmap string JSValue;
    draws : nat -> nat;
    drawn : nat }.

Definition chars : string :=
  "ABCDEFGHIJKLMNOPQRSTUVWXYZabcdefghijklmnopqrstuvwxyz0123456789".

(** [s.charAt(i)]: the character at [i] as a string, the empty string when
    [i] is out of range. *)
Definition charAt (s : string) (i : nat) : string :=
  match String.get i s with
  | Some c => String c ""
  | None => ""
  end.

(** The loop of [generateShortUrl], [n] turns from [shortUrl]:
<<
    for (let i = 0; i < 6; i++)
        shortUrl += chars.charAt(Math.floor(Math.random() * chars.length));
>> *)
Fixpoint generate_loop (n : nat) (shortUrl : string) (draws : nat -> nat) (drawn : nat)
  : string * nat :=
  match n with
  | O => (shortUrl, drawn)
  | S n' => generate_loop n' (shortUrl ++ charAt chars (draws drawn))%string
                          draws (S drawn)
  end.

(** [generateShortUrl()]: the string and the number of values drawn. *)
Definition generateShortUrl (draws : nat -> nat) (drawn : nat) : string * nat :=
  generate_loop 6 "" draws drawn.

(** The loop of the POST handler, at most [fuel] turns; [None] when it is
    still running after them:
<<
    do { shortUrl = generateShortUrl(); } while (urlMap.has(shortUrl));
>> *)
Fixpoint unique_loop (fuel : nat) (urlMap : gmap string JSValue)
    (draws : nat -> nat) (drawn : nat) : option (string * nat) :=
  match fuel with
  | O => None
  | S fuel' =>
      let (shortUrl, drawn') := generateShortUrl draws drawn in
      if decide (is_Some (urlMap !! shortUrl))
      then unique_loop fuel' urlMap draws drawn'
      else Some (shortUrl, drawn')
  end.

(** What a handler sends: [res.status(s).json(body)] ([res.json] is status
    200) or [res.redirect(url)]. *)
Inductive Response : Type :=
  | Json (status : nat) (body : list (string * JSValue))
  | Redirect (url : JSValue).

(** [app.post('/api/urls/shorten', ...)] on the parsed body [req.body]. *)
Definition post_shorten (fuel : nat) (body : gmap string JSValue) (srv : Server)
  : option (Response * Server) :=
  let longUrl := default JUndefined (body !! "longUrl") in
  if negb (truthy longUrl)
  then Some (Json 400 [("error", JString "Long URL is required")], srv)
  else
    match unique_loop fuel (urlMap srv) (draws srv) (drawn srv) with
    | None => None
    | Some (shortUrl, drawn') =>
        Some (Json 200 [("shortUrl", JString shortUrl); ("longUrl", longUrl)],
              {| urlMap := <[shortUrl := longUrl]> (urlMap srv);
                 draws := draws srv;
                 drawn := drawn' |})
    end.

(** [app.get('/api/urls/:shortUrl', ...)]; [urlMap.get] of a missing key
    is [undefined]. *)
Definition get_url (shortUrl : string) (srv : Server) : Response :=
  let longUrl := default JUndefined (urlMap srv !! shortUrl) in
  if negb (truthy longUrl)
  then Json 404 [("error", JString "Short URL not found")]
  else Redirect longUrl.

(** A request to one of the two routes of the application. *)
Inductive Request : Type :=
  | POST_shorten (body : gmap string JSValue)
  | GET_url (shortUrl : string).

(** The application answering a request: the response and the server
    after it; [None] when the loop of the POST handler is still running
    after [fuel] turns. *)
Definition serve (fuel : nat) (req : Request) (srv : Server)
  : option (Response * Server) :=
  match req with
  | POST_shorten body => post_shorten fuel body srv
  | GET_url shortUrl => Some (get_url shortUrl srv, srv)
  end.

(** The application answering requests one after the other, as the event
    loop runs the handlers. *)
Fixpoint serve_all (fuel : nat) (reqs : list Request) (srv : Server)
  : option (list Response * Server) :=
  match reqs with
  | [] => Some ([], srv)
  | req :: reqs' =>
      match serve fuel req srv with
      | None => None
      | Some (res, srv') =>
          match serve_all fuel reqs' srv' with
          | None => None
          | Some (ress, srv'') => Some (res :: ress, srv'')
          end
      end
  end.

(** The server when the application starts: [const urlMap = new Map()]. *)
Definition start (draws : nat -> nat) : Server :=
  {| urlMap := ∅; draws := draws; drawn := 0 |}.


End UrlShortener.

(* ===================================================================== *)
(** * The room relay *)
(* ===================================================================== *)

Module Relay.

Local Open Scope string_scope.
Local Open Scope list_scope.
Local Open Scope nat_scope.

(** A WebSocket connection object, named by a number that stands for its
    identity. *)
Abbreviation Socket := nat (only parsing).

(** [socket.readyState] *)
Inductive ReadyState : Type := CONNECTING | OPEN | CLOSING | CLOSED.

#[global] Instance ReadyState_eq_dec : EqDecision ReadyState.
Proof. solve_decision. Defined.

(** A JavaScript [Set] of sockets: its elements in insertion order. *)
Abbreviation SocketSet := (list nat) (only parsing).

(** [set.add(socket)] *)
Definition set_add (socket : Socket) (set : SocketSet) : SocketSet :=
  if decide (socket ∈ set) then set else set ++ [socket].

(** [set.delete(socket)] *)
Definition set_delete (socket : Socket) (set : SocketSet) : SocketSet :=
  filter (fun client => client <> socket) set.

(** [const rooms = new Map()]: roomId to the set of its connections. *)
Abbreviation Rooms := (gmap string (list nat)) (only parsing).

(** [url.searchParams.get('room') || 'lobby'] for a request target that
    [new URL(req.url, 'http://localhost')] has parsed: the query parameter
    is [None] when it is not given, and the empty string is falsy. *)
Definition roomId_of (room : option string) : string :=
  match room with
  | Some r => if String.eqb r "" then "lobby" else r
  | None => "lobby"
  end.

(** The body of [wss.on('connection', ...)] from the room id on, up to
    the registration of the handlers:
<<
    if (!rooms.has(roomId)) rooms.set(roomId, new Set());
    rooms.get(roomId).add(socket);
>> *)
Definition on_connection (socket : Socket) (roomId : string) (rooms : Rooms) : Rooms :=
  let rooms :=
    match rooms !! roomId with
    | Some _ => rooms
    | None => <[roomId := []]> rooms
    end in
  match rooms !! roomId with
  | Some set => <[roomId := set_add socket set]> rooms
  | None => rooms
  end.

(** [socket.on('message', ...)] of the socket that joined [roomId]: the
    calls [client.send(data)] it makes, in order, as pairs of the client
    and the data; [None] when [rooms.get(roomId)] is [undefined] and the
    loop throws.
<<
    for (const client of rooms.get(roomId))
      if (client !== socket && client.readyState === WebSocket.OPEN)
        client.send(data);
>> *)
Definition on_message (socket : Socket) (roomId : string) (data : string)
    (readyState : Socket -> ReadyState) (rooms : Rooms)
  : option (list (Socket * string)) :=
  match rooms !! roomId with
  | None => None
  | Some set =>
      Some (map (fun client => (client, data))
              (filter (fun client => client <> socket /\ readyState client = OPEN) set))
  end.

(** [socket.on('close', ...)] of the socket that joined [roomId]; [None]
    when [rooms.get(roomId)] is [undefined] and the handler throws.
<<
    rooms.get(roomId).delete(socket);
    if (rooms.get(roomId).size === 0) rooms.delete(roomId);
>> *)
Definition on_close (socket : Socket) (roomId : string) (rooms : Rooms) : option Rooms :=
  match rooms !! roomId with
  | None => None
  | Some set =>
      let set := set_delete socket set in
      Some (if decide (length set = 0)
            then delete roomId rooms
            else <[roomId := set]> rooms)
  end.

(** The server and its connections: the map, the roomId that the handlers
    of each connection that is not closed yet were registered with, and
    the ready state of every socket. *)
Record World : Type :=
  { rooms : gmap string (list nat);
    joined : gmap nat string;
    readyState : nat -> ReadyState }.

Definition init : World :=
  {| rooms := ∅; joined := ∅; readyState := fun _ => CONNECTING |}.

(** What happens to the server: a new connection, a message or the close
    of a connection, and a change of a socket's ready state. The URL
    parser is not modelled; a new connection comes with what the first
    line of the handler, [new URL(req.url, 'http://localhost')], makes of
    its request target: a URL, with its [?room=] parameter, or the
    TypeError that the constructor throws for a target that is no URL
    against that base, such as [//]. *)
Inductive Event : Type :=
  | Connection (socket : Socket) (room : option string)
  | InvalidTarget (socket : Socket)
  | Message (socket : Socket) (data : string)
  | Close (socket : Socket)
  | ReadyStateChange (socket : Socket) (state : ReadyState).

(** The events the WebSocket library can raise: a connection is a new
    socket object; messages and the single close of a socket come after
    its connection and not after its close. *)
Definition possible (w : World) (ev : Event) : bool :=
  match ev with
  | Connection socket _ => bool_decide (joined w !! socket = None)
  | InvalidTarget socket => bool_decide (joined w !! socket = None)
  | Message socket _ => bool_decide (is_Some (joined w !! socket))
  | Close socket => bool_decide (is_Some (joined w !! socket))
  | ReadyStateChange _ _ => true
  end.

(** The server handling an event; [None] when the handler throws. The
    connection handler throws on its first line when the request target
    is invalid, before it has touched the map. *)
Definition handle (w : World) (ev : Event) : option World :=
  match ev with
  | Connection socket room =>
      Some {| rooms := on_connection socket (roomId_of room) (rooms w);
              joined := <[socket := roomId_of room]> (joined w);
              readyState := readyState w |}
  | InvalidTarget _ => None
  | Message socket data =>
      match joined w !! socket with
      | None => Some w
      | Some roomId =>
          match on_message socket roomId data (readyState w) (rooms w) with
          | None => None
          | Some _ => Some w
          end
      end
  | Close socket =>
      match joined w !! socket with
      | None => Some w
      | Some roomId =>
          match on_close socket roomId (rooms w) with
          | None => None
          | Some rooms' =>
              Some {| rooms := rooms'; joined := delete socket (joined w);
                      readyState := readyState w |}
          end
      end
  | ReadyStateChange socket state =>
      Some {| rooms := rooms w; joined := joined w;
              readyState := fun s => if decide (s = socket) then state
                                     else readyState w s |}
  end.

(** The server after a sequence of events from [w]; [None] when an event
    is not possible or a handler throws. *)
Fixpoint run (w : World) (events : list Event) : option World :=
  match events with
  | [] => Some w
  | ev :: events' =>
      if possible w ev
      then match handle w ev with
           | Some w' => run w' events'
           | None => None
           end
      else None
  end.

End Relay.

(* ===================================================================== *)
(** * The leaderboard's input line *)
(* ===================================================================== *)

(** [LeaderboardDemo.parseInput] of src/leetcode-contest/contest.js and the
    handler of [startInteractiveMode] that calls it. A JavaScript string is
    the sequence of its code units; the model covers the strings whose code
    units are below 256, each [ascii] standing for the unit with the same
    code. A Number is an IEEE 754 binary64 value, a [spec_float] of the
    Standard Library. *)

Module Contest.

Import SpecFloat.

Local Open Scope string_scope.
Local Open Scope nat_scope.

(** The white space and line terminators that [trim] removes, among the
    code units below 256: TAB, LF, VT, FF, CR, SP and NBSP. *)
Definition is_whitespace (c : Ascii.ascii) : bool :=
  let n := Ascii.nat_of_ascii c in
  ((9 <=? n) && (n <=? 13)) || (n =? 32) || (n =? 160).

(** [s.trimStart()] *)
Fixpoint trimStart (s : string) : string :=
  match s with
  | EmptyString => EmptyString
  | String c s' => if is_whitespace c then trimStart s' else s
  end.

(** [s.trimEnd()] *)
Fixpoint trimEnd (s : string) : string :=
  match s with
  | EmptyString => EmptyString
  | String c s' =>
      match trimEnd s' with
      | EmptyString => if is_whitespace c then EmptyString else String c EmptyString
      | t => String c t
      end
  end.

(** [s.trim()] *)
Definition trim (s : string) : string := trimEnd (trimStart s).

(** The lower case of a code unit below 256: the letters [A] to [Z] and
    the Latin-1 capitals from 192 to 222, the multiplication sign 215
    apart, move up by 32. *)
Definition toLowerCase_unit (c : Ascii.ascii) : Ascii.ascii :=
  let n := Ascii.nat_of_ascii c in
  if ((65 <=? n) && (n <=? 90)) ||
     ((192 <=? n) && (n <=? 222) && negb (n =? 215))
  then Ascii.ascii_of_nat (n + 32)
  else c.

(** [s.toLowerCase()] *)
Fixpoint toLowerCase (s : string) : string :=
  match s with
  | EmptyString => EmptyString
  | String c s' => String (toLowerCase_unit c) (toLowerCase s')
  end.

Definition comma : Ascii.ascii := Ascii.ascii_of_nat 44.

(** [s.split(',')]: the pieces between the commas, one piece for a string
    without a comma, the empty string included. *)
Fixpoint split (s : string) : list string :=
  match s with
  | EmptyString => [EmptyString]
  | String c s' =>
      if Ascii.eqb c comma then EmptyString :: split s'
      else match split s' with
           | part :: parts => String c part :: parts
           | [] => [String c EmptyString]
           end
  end.

Definition is_digit (c : Ascii.ascii) : bool :=
  let n := Ascii.nat_of_ascii c in (48 <=? n) && (n <=? 57).

(** The longest run of decimal digits at the start of a string, and the
    rest. *)
Fixpoint span_digits (s : string) : string * string :=
  match s with
  | EmptyString => (EmptyString, EmptyString)
  | String c s' =>
      if is_digit c
      then let (digits, rest) := span_digits s' in (String c digits, rest)
      else (EmptyString, s)
  end.

(** The sign at the start of a string, if there is one, and the rest. *)
Definition span_sign (s : string) : string * string :=
  match s with
  | String c s' =>
      if Ascii.eqb c (Ascii.ascii_of_nat 43) || Ascii.eqb c (Ascii.ascii_of_nat 45)
      then (String c EmptyString, s')
      else (EmptyString, s)
  | EmptyString => (EmptyString, EmptyString)
  end.

(** The [ExponentPart] at the start of a string, if there is one: [e] or
    [E], an optional sign, and at least one digit. *)
Definition exponent_part (s : string) : string :=
  match s with
  | String c s' =>
      if Ascii.eqb c (Ascii.ascii_of_nat 101) || Ascii.eqb c (Ascii.ascii_of_nat 69)
      then let (sign, s'') := span_sign s' in
           let (digits, _) := span_digits s'' in
           match digits with
           | EmptyString => EmptyString
           | _ => String c (sign ++ digits)
           end
      else EmptyString
  | EmptyString => EmptyString
  end.

(** The longest prefix of a string that is a [StrUnsignedDecimalLiteral]:
    [Infinity], digits with an optional fraction and exponent, or a
    fraction that starts with the point. *)
Definition unsigned_literal (s : string) : option string :=
  if String.prefix "Infinity" s then Some "Infinity"
  else
    let (integer, rest) := span_digits s in
    match integer, rest with
    | EmptyString, String c rest' =>
        if Ascii.eqb c (Ascii.ascii_of_nat 46)
        then let (fraction, rest'') := span_digits rest' in
             match fraction with
             | EmptyString => None
             | _ => Some (String c fraction ++ exponent_part rest'')
             end
        else None
    | EmptyString, EmptyString => None
    | _, String c rest' =>
        if Ascii.eqb c (Ascii.ascii_of_nat 46)
        then let (fraction, rest'') := span_digits rest' in
             Some (integer ++ String c fraction ++ exponent_part rest'')
        else Some (integer ++ exponent_part rest)
    | _, EmptyString => Some integer
    end.

(** Step 4 of [parseFloat]: the longest prefix of a string that is a
    [StrDecimalLiteral], if there is one. *)
Definition trimmedPrefix (s : string) : option string :=
  let (sign, rest) := span_sign s in
  match unsigned_literal rest with
  | Some literal => Some (sign ++ literal)
  | None => None
  end.

(** The Numbers of JavaScript are the IEEE 754 binary64 values:
    [spec_float] with 53 bits of precision and 1024 as the exponent of
    the infinities. *)
Definition prec : Z := 53.

Definition emax : Z := 1024.

(** [isNaN(x)] for a Number. *)
Definition isNaN (x : spec_float) : bool :=
  match x with
  | S754_nan => true
  | _ => false
  end.

(** The mathematical value of a decimal digit and of a string of them. *)
Definition digit_value (c : Ascii.ascii) : Z :=
  Z.of_nat (Ascii.nat_of_ascii c) - 48.

Fixpoint decimal_from (value : Z) (digits : string) : Z :=
  match digits with
  | EmptyString => value
  | String c digits' => decimal_from (10 * value + digit_value c) digits'
  end.

Definition decimal (digits : string) : Z := decimal_from 0 digits.

(** The Number for a mathematical value given as the quotient of a
    natural number by a positive one, with its sign apart: the binary64
    value nearest to it, ties to even; the zero of that sign when the
    value is 0 or rounds to it, and the infinity of that sign when it is
    out of range. The quotient is taken with enough bits and the position
    of what is left, and then rounded. *)
Definition round_nearest (negative : bool) (numerator denominator : Z) : spec_float :=
  match numerator, denominator with
  | Zpos _, Zpos _ =>
      let '(quotient, exponent, position) :=
        SFdiv_core_binary prec emax numerator 0 denominator 0 in
      binary_round_aux prec emax negative quotient exponent position
  | _, _ => S754_zero negative
  end.

(** [StringNumericValue] of a [StrDecimalLiteral], step 6 of
    [parseFloat]: the sign, then [Infinity], or the digits of the integer
    and of the fraction as one natural number, scaled by ten to the
    exponent less the number of digits of the fraction, and rounded to a
    Number. *)
Definition StringNumericValue (literal : string) : spec_float :=
  let (sign, unsigned) := span_sign literal in
  let negative := String.eqb sign "-" in
  if String.eqb unsigned "Infinity" then S754_infinity negative
  else
    let (integer, rest) := span_digits unsigned in
    let (fraction, exponent_text) :=
      match rest with
      | String c rest' =>
          if Ascii.eqb c (Ascii.ascii_of_nat 46) then span_digits rest'
          else (EmptyString, rest)
      | EmptyString => (EmptyString, EmptyString)
      end in
    let exponent :=
      match exponent_text with
      | String _ signed =>
          let (esign, unsigned_exponent) := span_sign signed in
          let (edigits, _) := span_digits unsigned_exponent in
          if String.eqb esign "-" then (- decimal edigits)%Z else decimal edigits
      | EmptyString => 0%Z
      end in
    let scale := (exponent - Z.of_nat (String.length fraction))%Z in
    round_nearest negative
      (decimal (integer ++ fraction) * 10 ^ Z.max scale 0)%Z
      (10 ^ Z.max (- scale) 0)%Z.

(** [parseFloat(s)]: the string is trimmed at its start, the longest
    prefix that is a [StrDecimalLiteral] is taken, and the result is the
    Number of that literal, or NaN when there is no such prefix. The
    Number is the nearest one also for a literal of more than 20
    significant digits, where the language leaves the choice to the
    engine. *)
Definition parseFloat (s : string) : spec_float :=
  match trimmedPrefix (trimStart s) with
  | Some literal => StringNumericValue literal
  | None => S754_nan
  end.

(** What [parseInput] returns: [{ command }], [{ error }] or
    [{ userId, score }]. *)
Inductive Parsed : Type :=
  | Command (command : string)
  | Error (error : string)
  | UserScore (userId : string) (score : spec_float).

(** [parseInput(input)] *)
Definition parseInput (input : string) : Parsed :=
  let trimmed := trim input in
  if String.eqb (toLowerCase trimmed) "quit" || String.eqb (toLowerCase trimmed) "exit"
  then Command "quit"
  else if String.eqb (toLowerCase trimmed) "clear" then Command "clear"
  else if String.eqb (toLowerCase trimmed) "help" then Command "help"
  else
    match split trimmed with
    | [part0; part1] =>
        let userId := trim part0 in
        let scoreStr := trim part1 in
        if String.eqb userId "" then Error "User ID cannot be empty"
        else
          let score := parseFloat scoreStr in
          if isNaN score then Error "Score must be a valid number"
          else UserScore userId score
    | _ => Error "Invalid format. Use: user_id,score (e.g., alice123,1500)"
    end.

(** What the handler of a line does in [startInteractiveMode]: it logs the
    error, logs that commands are not supported, or calls [addUserScore]
    and then shows the leaderboard. *)
Inductive Outcome : Type :=
  | LogError (error : string)
  | LogCommandsNotSupported
  | AddUserScore (userId : string) (score : spec_float).

(** The callback of [rl.question] up to its calls of the store:
<<
    const parsed = this.parseInput(input);
    if (parsed.error) { ...; askForInput(); return; }
    if (parsed.command) { ...; askForInput(); return; }
    await this.addUserScore(parsed.userId, parsed.score);
>> *)
Definition on_line (input : string) : Outcome :=
  match parseInput input with
  | Error error => LogError error
  | Command _ => LogCommandsNotSupported
  | UserScore userId score => AddUserScore userId score
  end.

End Contest.

(* ===================================================================== *)
(** * Proofs: the top-K aggregator *)
(* ===================================================================== *)

Import TopK.

(** [lia] reads [/] and [mod] by a numeral as their Euclidean equations. *)
Ltac Zify.zify_post_hook ::= Z.to_euclidean_division_equations.

(** ** The comparators, as order on the counts *)

Lemma Integer_compare_ge a b : (Integer_compare a b >=? 0) = true <-> b <= a.
Proof. unfold Integer_compare. destruct (Z.ltb_spec a b), (Z.eqb_spec a b); lia. Qed.

Lemma Integer_compare_le a b : (Integer_compare a b <=? 0) = true <-> a <= b.
Proof. unfold Integer_compare. destruct (Z.ltb_spec a b), (Z.eqb_spec a b); lia. Qed.

Lemma Integer_compare_gt a b : (Integer_compare a b >? 0) = true <-> b < a.
Proof. unfold Integer_compare. destruct (Z.ltb_spec a b), (Z.eqb_spec a b); lia. Qed.

Lemma Integer_compare_nge a b : (Integer_compare a b >=? 0) = false <-> a < b.
Proof. unfold Integer_compare. destruct (Z.ltb_spec a b), (Z.eqb_spec a b); lia. Qed.

Lemma Integer_compare_nle a b : (Integer_compare a b <=? 0) = false <-> b < a.
Proof. unfold Integer_compare. destruct (Z.ltb_spec a b), (Z.eqb_spec a b); lia. Qed.

Lemma Integer_compare_ngt a b : (Integer_compare a b >? 0) = false <-> a <= b.
Proof. unfold Integer_compare. destruct (Z.ltb_spec a b), (Z.eqb_spec a b); lia. Qed.

(** ** Array writes as permutations *)

Lemma insert_Permutation_delete (l : list entry) j x :
  (j < length l)%nat -> <[j := x]> l ≡ₚ x :: delete j l.
Proof.
  revert j. induction l as [|y l IH]; intros [|j] Hj; simpl in *; try lia.
  - done.
  - rewrite (IH j) by lia. apply Permutation_swap.
Qed.

(** Writing [a = l[i]] to slot [j] and then [b] to slot [i] moves [a] and
    puts [b] in: it is [l] with [b] in slot [j], up to order. *)
Lemma insert_move_Permutation (l : list entry) i j a b :
  l !! i = Some a -> i <> j -> (j < length l)%nat ->
  <[i := b]> (<[j := a]> l) ≡ₚ <[j := b]> l.
Proof.
  revert i j. induction l as [|y l IH]; intros [|i] [|j] Hi Hne Hj;
    simpl in *; try lia; try done.
  - injection Hi as ->.
    rewrite !insert_Permutation_delete by lia. apply Permutation_swap.
  - rewrite insert_Permutation_delete by (eapply lookup_lt_Some; eauto).
    rewrite (delete_Permutation l i a) at 2 by done. apply Permutation_swap.
  - rewrite (IH i j) by (auto; lia). done.
Qed.

Lemma siftUp_length k x es : length (siftUp k x es) = length es.
Proof.
  funelim (siftUp k x es); rewrite ?length_insert; try done.
  rewrite H, length_insert. done.
Qed.

Lemma siftUp_Permutation k x es :
  (k < length es)%nat -> siftUp k x es ≡ₚ <[k := x]> es.
Proof.
  funelim (siftUp k x es); intros Hk; try done.
  rewrite H.
  - apply insert_move_Permutation; auto.
    pose proof (Nat.Div0.div_le_upper_bound k' 2 k'). lia.
  - rewrite length_insert. eapply lookup_lt_Some; eauto.
Qed.

Lemma siftDown_length k x es : length (siftDown k x es) = length es.
Proof.
  funelim (siftDown k x es); rewrite ?length_insert; try done.
  rewrite H, length_insert. done.
Qed.

Lemma siftDown_Permutation k x es :
  (k < length es)%nat -> siftDown k x es ≡ₚ <[k := x]> es.
Proof.
  funelim (siftDown k x es); intros Hk; try done.
  rewrite H.
  - apply insert_move_Permutation; auto.
    pose proof (smaller_child_bounds k es). lia.
  - rewrite length_insert. eapply lookup_lt_Some; eauto.
Qed.

(** The slot that [offer] hands to [siftUp] is written before it is read:
    its first content does not matter. *)
Lemma siftUp_slot_immaterial k x d es :
  siftUp k x (<[k := d]> es) = siftUp k x es.
Proof.
  destruct k as [|k']; simp siftUp.
  { by rewrite list_insert_insert_eq. }
  assert ((k' / 2)%nat <> S k') as Hne by lia.
  rewrite list_lookup_insert_ne by done.
  destruct (es !! (k' / 2)%nat) as [e|]; cbn.
  - destruct (comparator x e >=? 0); cbn; by rewrite list_insert_insert_eq.
  - by rewrite list_insert_insert_eq.
Qed.

Lemma offer_slot_immaterial e d q :
  siftUp (length q) e (q ++ [d]) = offer e q.
Proof.
  unfold offer. rewrite <- (siftUp_slot_immaterial _ _ d (q ++ [e])).
  f_equal. rewrite insert_app_r_alt, Nat.sub_diag by lia. done.
Qed.

(** ** [offer] and [poll] keep the elements *)

Lemma offer_length e q : length (offer e q) = S (length q).
Proof. unfold offer. rewrite siftUp_length, length_app. simpl. lia. Qed.

Lemma offer_Permutation e q : offer e q ≡ₚ e :: q.
Proof.
  unfold offer. rewrite siftUp_Permutation by (rewrite length_app; simpl; lia).
  rewrite insert_app_r_alt, Nat.sub_diag by lia. simpl.
  symmetry. apply Permutation_cons_append.
Qed.

(** [poll] on a queue that is not empty returns its head [q[0]] and leaves
    the other elements. *)
Lemma poll_Some r q :
  q !! 0%nat = Some r ->
  exists q', poll q = (Some r, q') /\ q ≡ₚ r :: q' /\ S (length q') = length q.
Proof.
  intros Hr. unfold poll. rewrite Hr.
  destruct (q !! (length q - 1)%nat) as [x|] eqn:Hx.
  2: { apply lookup_ge_None in Hx. destruct q; simpl in *; [done | lia]. }
  destruct q as [|r' tl]; [done|]. injection Hr as ->.
  eexists; split; [done|].
  destruct tl as [|y tl _] using rev_ind; [done|].
  assert (length (r :: tl ++ [y]) - 1 = S (length tl))%nat as Hn
    by (simpl; rewrite length_app; simpl; lia).
  rewrite Hn in *. clear Hn.
  assert (x = y) as ->.
  { simpl in Hx. rewrite lookup_app_r, Nat.sub_diag in Hx by lia.
    simpl in Hx. congruence. }
  change (0 <? S (length tl))%nat with true. cbv iota.
  rewrite firstn_cons, take_app_length. split.
  - rewrite siftDown_Permutation by (simpl; lia). simpl.
    constructor. symmetry. apply Permutation_cons_append.
  - rewrite siftDown_length. simpl. rewrite length_app. simpl. lia.
Qed.

Lemma poll_nil : poll [] = (None, []).
Proof. done. Qed.

(** ** The heap order of the queue's array *)

(** Every element is at least its parent, the element at [(i - 1) >>> 1]. *)
Definition is_heap (es : list entry) : Prop :=
  forall i a b, (0 < i)%nat ->
    es !! i = Some a -> es !! ((i - 1) / 2)%nat = Some b ->
    getValue b <= getValue a.

(** The heap order around a slot [k] whose content is being moved: it
    holds between the other slots, and across [k] from the parent of [k] to
    the children of [k]. *)
Definition heap_around (k : nat) (es : list entry) : Prop :=
  (forall i a b, (0 < i)%nat -> i <> k -> ((i - 1) / 2)%nat <> k ->
     es !! i = Some a -> es !! ((i - 1) / 2)%nat = Some b ->
     getValue b <= getValue a) /\
  (forall i a b, (0 < k)%nat -> (0 < i)%nat -> ((i - 1) / 2)%nat = k ->
     es !! i = Some a -> es !! ((k - 1) / 2)%nat = Some b ->
     getValue b <= getValue a).

(** [x] is at most the children of slot [k]. *)
Definition below_children (k : nat) (x : entry) (es : list entry) : Prop :=
  forall i a, (0 < i)%nat -> ((i - 1) / 2)%nat = k -> es !! i = Some a ->
    getValue x <= getValue a.

(** [x] is at least the parent of slot [k]. *)
Definition above_parent (k : nat) (x : entry) (es : list entry) : Prop :=
  forall b, (0 < k)%nat -> es !! ((k - 1) / 2)%nat = Some b ->
    getValue b <= getValue x.

Lemma is_heap_heap_around k es : is_heap es -> heap_around k es.
Proof.
  intros Hh. split.
  - intros i a b ? _ _. by apply Hh.
  - intros i a b Hk Hi Hp Ha Hb.
    destruct (lookup_lt_is_Some_2 es k) as [c Hc].
    { apply lookup_lt_Some in Ha. lia. }
    transitivity (getValue c).
    + by apply (Hh k).
    + apply (Hh i); [done..|]. by rewrite Hp.
Qed.

Lemma insert_is_heap k x es :
  (k < length es)%nat ->
  heap_around k es -> below_children k x es -> above_parent k x es ->
  is_heap (<[k := x]> es).
Proof.
  intros Hk [Hrest _] Hch Hpar i a b Hi Ha Hb.
  destruct (decide (i = k)) as [->|Hik].
  - rewrite list_lookup_insert_eq in Ha by done. injection Ha as <-.
    rewrite list_lookup_insert_ne in Hb by lia. by apply Hpar.
  - rewrite list_lookup_insert_ne in Ha by done.
    destruct (decide (((i - 1) / 2)%nat = k)) as [Hp|Hp].
    + rewrite Hp, list_lookup_insert_eq in Hb by done. injection Hb as <-.
      by apply (Hch i).
    + rewrite list_lookup_insert_ne in Hb by done. by apply (Hrest i).
Qed.

Lemma siftUp_is_heap k x es :
  (k < length es)%nat ->
  heap_around k es -> below_children k x es ->
  is_heap (siftUp k x es).
Proof.
  funelim (siftUp k x es); intros Hk Hha Hch.
  - apply insert_is_heap; auto. intros b ?. lia.
  - apply lookup_ge_None in Heq.
    pose proof (Nat.Div0.div_le_upper_bound k' 2 k'). lia.
  - apply insert_is_heap; auto. intros b _.
    replace (S k' - 1)%nat with k' by lia. rewrite Heq0. intros [= <-].
    by apply Integer_compare_ge.
  - apply Integer_compare_nge in Heq. fold (getValue x) (getValue e) in Heq.
    assert (k' / 2 < S k')%nat as Hlt
      by (pose proof (Nat.Div0.div_le_upper_bound k' 2 k'); lia).
    destruct Hha as [Hrest Hskip].
    apply H.
    + rewrite length_insert. lia.
    + split.
      * intros i a b Hi Hne Hpne Ha Hb.
        destruct (decide (i = S k')) as [->|Hik].
        { exfalso. apply Hpne. f_equal. lia. }
        rewrite list_lookup_insert_ne in Ha by done.
        destruct (decide (((i - 1) / 2)%nat = S k')) as [Hp|Hp].
        -- rewrite Hp, list_lookup_insert_eq in Hb by done. injection Hb as <-.
           apply (Hskip i a e); auto; try lia.
           by replace (S k' - 1)%nat with k' by lia.
        -- rewrite list_lookup_insert_ne in Hb by done. apply (Hrest i); auto.
      * intros i a b Hp0 Hi Hp Ha Hb.
        rewrite list_lookup_insert_ne in Hb by lia.
        assert (getValue b <= getValue e) as Hbe.
        { apply (Hrest (k' / 2)%nat); auto; lia. }
        destruct (decide (i = S k')) as [->|Hik].
        -- rewrite list_lookup_insert_eq in Ha by done. by injection Ha as <-.
        -- rewrite list_lookup_insert_ne in Ha by done.
           transitivity (getValue e); [done|].
           apply (Hrest i); auto; try lia. by rewrite Hp.
    + intros i a Hi Hp Ha.
      destruct (decide (i = S k')) as [->|Hik].
      * rewrite list_lookup_insert_eq in Ha by done. injection Ha as <-. lia.
      * rewrite list_lookup_insert_ne in Ha by done.
        transitivity (getValue e); [lia|].
        apply (Hrest i); auto; try lia. by rewrite Hp.
Qed.

Lemma smaller_child_lt k es :
  (k < length es / 2)%nat -> (smaller_child k es < length es)%nat.
Proof.
  intros Hk. unfold smaller_child.
  destruct (es !! (2 * k + 1)%nat) as [c|] eqn:Hc; [|lia].
  destruct (es !! (2 * k + 1 + 1)%nat) as [r|] eqn:Hr; [|lia].
  apply lookup_lt_Some in Hr. destruct (comparator c r >? 0); lia.
Qed.

(** The child the loop descends to is the smaller one. *)
Lemma smaller_child_min k es c :
  es !! smaller_child k es = Some c -> below_children k c es.
Proof.
  intros Hc i a Hi Hp Ha.
  assert (i = 2 * k + 1 \/ i = 2 * k + 1 + 1)%nat as Hcases by lia.
  unfold smaller_child in Hc.
  destruct (es !! (2 * k + 1)%nat) as [l|] eqn:Hl.
  2: { destruct Hcases as [->| ->]; [simplify_eq|].
       apply lookup_ge_None in Hl. apply lookup_lt_Some in Ha. lia. }
  destruct (es !! (2 * k + 1 + 1)%nat) as [r|] eqn:Hr.
  2: { destruct Hcases as [->| ->]; simplify_eq; lia. }
  unfold comparator in Hc.
  destruct (Integer_compare (getValue l) (getValue r) >? 0) eqn:Hcmp.
  - apply Integer_compare_gt in Hcmp.
    destruct Hcases as [->| ->]; simplify_eq; lia.
  - apply Integer_compare_ngt in Hcmp.
    destruct Hcases as [->| ->]; simplify_eq; lia.
Qed.

Lemma siftDown_is_heap k x es :
  (k < length es)%nat ->
  heap_around k es -> above_parent k x es ->
  is_heap (siftDown k x es).
Proof.
  funelim (siftDown k x es); intros Hk Hha Hpar.
  - apply insert_is_heap; auto.
    intros i a Hi Hp Ha. apply lookup_lt_Some in Ha. lia.
  - apply lookup_ge_None in Heq. pose proof (smaller_child_lt k es). lia.
  - apply insert_is_heap; auto.
    intros i a Hi Hp Ha. apply Integer_compare_le in Heq.
    fold (getValue x) (getValue c) in Heq.
    pose proof (smaller_child_min k es c Heq0 i a Hi Hp Ha). lia.
  - apply Integer_compare_nle in Heq. fold (getValue x) (getValue c) in Heq.
    pose proof (smaller_child_bounds k es) as Hb.
    pose proof (smaller_child_min k es c Heq0) as Hmin.
    set (m := smaller_child k es) in *.
    destruct Hha as [Hrest Hskip].
    apply H.
    + rewrite length_insert. eapply lookup_lt_Some; eauto.
    + split.
      * intros i a b Hi Hne Hpne Ha Hb'.
        destruct (decide (i = k)) as [->|Hik].
        -- rewrite list_lookup_insert_eq in Ha by done. injection Ha as <-.
           rewrite list_lookup_insert_ne in Hb' by lia.
           apply (Hskip m); auto; lia.
        -- rewrite list_lookup_insert_ne in Ha by done.
           destruct (decide (((i - 1) / 2)%nat = k)) as [Hp|Hp].
           ++ rewrite Hp, list_lookup_insert_eq in Hb' by done.
              injection Hb' as <-. by apply (Hmin i).
           ++ rewrite list_lookup_insert_ne in Hb' by done.
              by apply (Hrest i).
      * intros i a b Hm Hi Hp Ha Hb'.
        replace ((m - 1) / 2)%nat with k in Hb' by lia.
        rewrite list_lookup_insert_eq in Hb' by done. injection Hb' as <-.
        rewrite list_lookup_insert_ne in Ha by lia.
        apply (Hrest i); auto; try lia. by rewrite Hp.
    + intros b Hm. replace ((m - 1) / 2)%nat with k by lia.
      rewrite list_lookup_insert_eq by done. intros [= <-]. lia.
Qed.

(** ** [offer] and [poll] keep the heap order *)

Lemma is_heap_nil : is_heap [].
Proof. intros i a b _ Ha. done. Qed.

Lemma offer_is_heap e q : is_heap q -> is_heap (offer e q).
Proof.
  intros Hh. unfold offer. apply siftUp_is_heap.
  - rewrite length_app. simpl. lia.
  - split.
    + intros i a b Hi Hne Hpne Ha Hb.
      assert (i < length q)%nat.
      { apply lookup_lt_Some in Ha. rewrite length_app in Ha. simpl in Ha. lia. }
      rewrite lookup_app_l in Ha, Hb by lia. by apply (Hh i).
    + intros i a b _ Hi Hp Ha. apply lookup_lt_Some in Ha.
      rewrite length_app in Ha. simpl in Ha. lia.
  - intros i a Hi Hp Ha. apply lookup_lt_Some in Ha.
    rewrite length_app in Ha. simpl in Ha. lia.
Qed.

Lemma is_heap_take n es : is_heap es -> is_heap (take n es).
Proof.
  intros Hh i a b Hi Ha Hb.
  apply lookup_take_Some in Ha as [Ha ?], Hb as [Hb ?]. by apply (Hh i).
Qed.

Lemma poll_is_heap q : is_heap q -> is_heap (snd (poll q)).
Proof.
  intros Hh. unfold poll.
  destruct (q !! 0%nat) as [r|]; [|exact Hh].
  destruct (q !! (length q - 1)%nat) as [x|] eqn:Hx; [|exact Hh].
  simpl. destruct (Nat.ltb_spec 0 (length q - 1)) as [Hn|Hn].
  - apply siftDown_is_heap.
    + rewrite length_take. lia.
    + apply is_heap_heap_around. by apply is_heap_take.
    + intros b ?. lia.
  - by apply is_heap_take.
Qed.

(** The head of a heap is a minimum. *)
Lemma is_heap_head_min es r :
  is_heap es -> es !! 0%nat = Some r ->
  forall i a, es !! i = Some a -> getValue r <= getValue a.
Proof.
  intros Hh Hr i. induction (lt_wf i) as [i _ IH]. intros a Ha.
  destruct (decide (i = 0)%nat) as [->|Hi].
  - simplify_eq. lia.
  - destruct (lookup_lt_is_Some_2 es ((i - 1) / 2)%nat) as [b Hb].
    { apply lookup_lt_Some in Ha. lia. }
    transitivity (getValue b).
    + apply (IH ((i - 1) / 2)%nat); [lia|done].
    + apply (Hh i); auto. lia.
Qed.

(** ** The scan of step 2 *)

(** One turn of the loop of step 2. *)
Lemma heap_snoc k entries entry :
  heap k (entries ++ [entry]) =
  let h := offer entry (heap k entries) in
  if (k <? length h)%nat then snd (poll h) else h.
Proof. unfold heap. by rewrite fold_left_app. Qed.

(** After the scan the queue holds [min k n] of the [n] entries, in heap
    order, and every entry the scan dropped is at most every entry kept. *)
Lemma heap_scan k entries :
  exists dropped,
    entries ≡ₚ heap k entries ++ dropped /\
    is_heap (heap k entries) /\
    length (heap k entries) = (k `min` length entries)%nat /\
    (forall d e, d ∈ dropped -> e ∈ heap k entries -> getValue d <= getValue e).
Proof.
  induction entries as [|x seen IH] using rev_ind.
  { exists []. split_and!; [done|apply is_heap_nil|simpl; lia|].
    intros d e Hd. by apply elem_of_nil in Hd. }
  destruct IH as (dropped & Hperm & Hheap & Hlen & Hord).
  rewrite heap_snoc. cbv zeta.
  set (h := heap k seen) in *.
  pose proof (offer_Permutation x h) as Hoff.
  pose proof (offer_length x h) as Hofflen.
  pose proof (offer_is_heap x h Hheap) as Hoffheap.
  assert (length seen = length h + length dropped)%nat as Hseen
    by (rewrite Hperm, length_app; done).
  rewrite length_app. simpl length.
  destruct (Nat.ltb_spec k (length (offer x h))) as [Hk|Hk].
  - destruct (lookup_lt_is_Some_2 (offer x h) 0%nat) as [r Hr]; [lia|].
    destruct (poll_Some r _ Hr) as (q' & Hpoll & Hq' & Hq'len).
    pose proof (poll_is_heap _ Hoffheap) as Hq'heap.
    rewrite Hpoll in *. simpl in *.
    exists (r :: dropped). split_and!.
    + transitivity (x :: seen); [symmetry; apply Permutation_cons_append|].
      rewrite Hperm, app_comm_cons, <- Hoff, Hq'. simpl.
      apply Permutation_middle.
    + done.
    + lia.
    + assert (forall e, e ∈ q' -> getValue r <= getValue e) as Hmin.
      { intros e He. apply list_elem_of_lookup in He as [i Hi].
        assert (e ∈ offer x h) as He' by (rewrite Hq'; right; eapply list_elem_of_lookup_2; eauto).
        apply list_elem_of_lookup in He' as [j Hj].
        by apply (is_heap_head_min _ _ Hoffheap Hr j). }
      intros d e Hd He. apply elem_of_cons in Hd as [->|Hd]; [by apply Hmin|].
      assert (r ∈ x :: h) as Hrin.
      { rewrite <- Hoff. eapply list_elem_of_lookup_2; eauto. }
      apply elem_of_cons in Hrin as [->|Hrin].
      * rewrite Hoff in Hq'. apply Permutation_cons_inv in Hq'.
        apply Hord; [done|]. by rewrite Hq'.
      * transitivity (getValue r); [by apply Hord|by apply Hmin].
  - exists dropped. split_and!.
    + transitivity (x :: seen); [symmetry; apply Permutation_cons_append|].
      by rewrite Hperm, app_comm_cons, <- Hoff.
    + done.
    + lia.
    + intros d e Hd. assert (dropped = []) as -> by (apply length_zero_iff_nil; lia).
      by apply elem_of_nil in Hd.
Qed.

(** ** The stable sort of step 3 *)

Lemma sort_insert_Permutation c x l : sort_insert c x l ≡ₚ x :: l.
Proof.
  induction l as [|y l IH]; simpl; [done|].
  destruct (c y x <=? 0); [|done]. rewrite IH. apply Permutation_swap.
Qed.

Lemma sort_snoc c l x : sort c (l ++ [x]) = sort_insert c x (sort c l).
Proof. unfold sort. by rewrite fold_left_app. Qed.

Lemma sort_Permutation c l : sort c l ≡ₚ l.
Proof.
  induction l as [|x l IH] using rev_ind; [done|].
  rewrite sort_snoc, sort_insert_Permutation, IH. apply Permutation_cons_append.
Qed.

(** [a] may stand before [b] in a sequence that is descending by count. *)
Definition count_ge (a b : entry) : Prop := getValue b <= getValue a.

#[local] Instance count_ge_trans : Transitive count_ge.
Proof. unfold count_ge. intros a b c ??. lia. Qed.

Lemma sort_insert_descending x l :
  StronglySorted count_ge l -> StronglySorted count_ge (sort_insert descending x l).
Proof.
  induction 1 as [|y l Hl IH Hy]; simpl; [repeat constructor|].
  unfold descending at 1.
  destruct (Integer_compare (getValue x) (getValue y) <=? 0) eqn:Hc.
  - apply Integer_compare_le in Hc. constructor; [done|].
    rewrite sort_insert_Permutation. by constructor.
  - apply Integer_compare_nle in Hc. constructor; [by constructor|].
    constructor; [unfold count_ge; lia|].
    eapply Forall_impl; [exact Hy|]. unfold count_ge. intros; lia.
Qed.

Lemma sort_descending l : StronglySorted count_ge (sort descending l).
Proof.
  induction l as [|x l IH] using rev_ind; [constructor|].
  rewrite sort_snoc. by apply sort_insert_descending.
Qed.

(** ** The [LinkedHashMap] of step 3 *)

Lemma put_fresh m key value :
  key ∉ map getKey m -> put m key value = m ++ [(key, value)].
Proof.
  induction m as [|[k v] m IH]; simpl; [done|]. intros Hnin.
  apply not_elem_of_cons in Hnin as [Hne Hnin].
  destruct (String.eqb_spec k key) as [->|_]; [done|]. by rewrite IH.
Qed.

Lemma result_from acc l :
  NoDup (map getKey (acc ++ l)) ->
  fold_left (fun result e => put result (getKey e) (getValue e)) l acc = acc ++ l.
Proof.
  revert acc. induction l as [|[k v] l IH]; intros acc Hnd; simpl.
  { by rewrite app_nil_r. }
  rewrite put_fresh.
  - rewrite IH; rewrite <- app_assoc; done.
  - rewrite map_app in Hnd. apply NoDup_app in Hnd as (_ & Hdisj & _).
    intros Hin. apply (Hdisj _ Hin). simpl. left.
Qed.

(** Distinct keys are put one after the other. *)
Lemma result_NoDup l : NoDup (map getKey l) -> result l = l.
Proof. intros Hnd. unfold result. by rewrite result_from. Qed.

(** ** What the selection returns *)

Lemma selectTopK_scan k entries :
  NoDup (map getKey entries) ->
  length (selectTopK k entries) = (k `min` length entries)%nat /\
  (exists rest, entries ≡ₚ selectTopK k entries ++ rest /\
     forall r e, r ∈ rest -> e ∈ selectTopK k entries ->
       getValue r <= getValue e) /\
  StronglySorted count_ge (selectTopK k entries).
Proof.
  intros Hnd. destruct (heap_scan k entries) as (dropped & Hperm & _ & Hlen & Hord).
  assert (selectTopK k entries = sort descending (heap k entries)) as ->.
  { unfold selectTopK, topK. apply result_NoDup.
    rewrite sort_Permutation. rewrite Hperm, map_app in Hnd.
    by apply NoDup_app in Hnd as (? & _). }
  split_and!.
  - by rewrite sort_Permutation.
  - exists dropped. split; [by rewrite sort_Permutation|].
    intros r e Hr He. rewrite sort_Permutation in He. by apply Hord.
  - apply sort_descending.
Qed.

(** ** The counts of step 1 *)

Lemma wrap32_range z : - 2 ^ 31 <= wrap32 z < 2 ^ 31.
Proof. unfold wrap32. pose proof (Z.mod_pos_bound (z + 2 ^ 31) (2 ^ 32)). lia. Qed.

Lemma wrap32_small z : - 2 ^ 31 <= z < 2 ^ 31 -> wrap32 z = z.
Proof. intros Hz. unfold wrap32. rewrite Z.mod_small; lia. Qed.

(** The sum of two [int]s is the wrapped sum of what they wrap. *)
Lemma int_add_wrap32 a b : int_add (wrap32 a) b = wrap32 (a + b).
Proof.
  unfold int_add, wrap32.
  replace ((a + 2 ^ 31) mod 2 ^ 32 - 2 ^ 31 + b + 2 ^ 31)
    with ((a + 2 ^ 31) mod 2 ^ 32 + b) by lia.
  rewrite Zplus_mod_idemp_l. f_equal. f_equal. lia.
Qed.

Lemma getOrDefault_get m key d : getOrDefault m key d = default d (get m key).
Proof.
  induction m as [|[k v] m IH]; simpl; [done|]. by destruct (String.eqb k key).
Qed.

Lemma get_put m key value key' :
  get (put m key value) key' = if String.eqb key key' then Some value else get m key'.
Proof.
  induction m as [|[k v] m IH]; simpl.
  - done.
  - destruct (String.eqb_spec k key) as [->|Hne]; simpl.
    + by destruct (String.eqb key key').
    + rewrite IH. destruct (String.eqb_spec key key') as [->|_]; [|done].
      by destruct (String.eqb_spec k key').
Qed.

Lemma get_None m key : get m key = None <-> key ∉ map getKey m.
Proof.
  induction m as [|[k v] m IH]; simpl.
  - split; [intros _; apply not_elem_of_nil|done].
  - rewrite not_elem_of_cons. destruct (String.eqb_spec k key) as [->|Hne].
    + split; [done|]. intros [? _]. done.
    + rewrite IH. split; [|tauto]. intros ?. split; [congruence|done].
Qed.

Lemma get_Some m key value :
  NoDup (map getKey m) -> get m key = Some value <-> (key, value) ∈ m.
Proof.
  induction m as [|[k v] m IH]; simpl; intros Hnd.
  - split; [done|]. intros H. by apply elem_of_nil in H.
  - apply NoDup_cons in Hnd as [Hk Hnd]. rewrite elem_of_cons.
    destruct (String.eqb_spec k key) as [->|Hne].
    + split; [intros [= ->]; by left|]. intros [[= ->]|Hin]; [done|].
      destruct Hk. apply list_elem_of_fmap. by exists (key, value).
    + rewrite (IH Hnd). split; [by right|]. intros [[= -> ->]|?]; done.
Qed.

Lemma put_keys m key value :
  map getKey (put m key value) =
  if decide (key ∈ map getKey m) then map getKey m else map getKey m ++ [key].
Proof.
  induction m as [|[k v] m IH]; cbn [put map getKey fst].
  - rewrite decide_False; [done|apply not_elem_of_nil].
  - destruct (String.eqb_spec k key) as [->|Hne]; cbn [put map getKey fst].
    + rewrite decide_True; [done|by left].
    + rewrite IH. destruct (decide (key ∈ map getKey m)) as [Hin|Hnin].
      * rewrite decide_True; [done|by right].
      * rewrite decide_False; [done|]. rewrite not_elem_of_cons. split; congruence.
Qed.

Lemma put_NoDup m key value :
  NoDup (map getKey m) -> NoDup (map getKey (put m key value)).
Proof.
  intros Hnd. rewrite put_keys. destruct (decide _) as [?|Hnin]; [done|].
  apply NoDup_app. split_and!; [done| |apply NoDup_singleton].
  intros k Hk Hk'. apply list_elem_of_singleton in Hk' as ->. done.
Qed.

Lemma counts_snoc elements e :
  counts (elements ++ [e]) =
  put (counts elements) (f0 e)
    (int_add (getOrDefault (counts elements) (f0 e) 0) (f1 e)).
Proof. unfold counts. by rewrite fold_left_app. Qed.

Lemma counts_NoDup elements : NoDup (map getKey (counts elements)).
Proof.
  induction elements as [|e l IH] using rev_ind; [constructor|].
  rewrite counts_snoc. by apply put_NoDup.
Qed.

(** The weights of the elements with a given key, added up in [Z]. *)
Definition weight_sum (key : string) (elements : list Tuple2) : Z :=
  foldr Z.add 0 (map f1 (filter (fun e => f0 e = key) elements)).

Lemma weight_sum_snoc key elements e :
  weight_sum key (elements ++ [e]) =
  weight_sum key elements + (if String.eqb (f0 e) key then f1 e else 0).
Proof.
  unfold weight_sum. rewrite filter_app, map_app, foldr_app.
  assert (forall l z, foldr Z.add z l = foldr Z.add 0 l + z) as Hz.
  { induction l as [|y l IH]; intros z; simpl; [lia|]. rewrite IH. lia. }
  rewrite Hz. f_equal. rewrite filter_cons, filter_nil.
  destruct (String.eqb_spec (f0 e) key) as [Heq|Hne].
  - rewrite decide_True by done. simpl. lia.
  - by rewrite decide_False.
Qed.

Lemma weight_sum_absent key elements :
  key ∉ map f0 elements -> weight_sum key elements = 0.
Proof.
  unfold weight_sum. induction elements as [|e l IH]; [done|].
  cbn [map]. rewrite not_elem_of_cons. intros [Hne Hnin].
  rewrite filter_cons_False by congruence. by apply IH.
Qed.

Lemma counts_get elements key :
  get (counts elements) key =
  if decide (key ∈ map f0 elements)
  then Some (wrap32 (weight_sum key elements)) else None.
Proof.
  induction elements as [|e l IH] using rev_ind.
  { rewrite decide_False; [done|apply not_elem_of_nil]. }
  rewrite counts_snoc, get_put, weight_sum_snoc, getOrDefault_get, map_app.
  destruct (String.eqb_spec (f0 e) key) as [<-|Hne].
  - rewrite decide_True by (apply elem_of_app; right; simpl; left).
    f_equal. rewrite IH. destruct (decide (f0 e ∈ map f0 l)) as [Hin|Hnin]; simpl.
    + apply int_add_wrap32.
    + by rewrite weight_sum_absent.
  - rewrite IH, Z.add_0_r.
    destruct (decide (key ∈ map f0 l)) as [Hin|Hnin].
    + rewrite decide_True; [done|]. apply elem_of_app. by left.
    + rewrite decide_False; [done|]. rewrite elem_of_app. intros [?|Hin]; [done|].
      simpl in Hin. apply list_elem_of_singleton in Hin. congruence.
Qed.

(** ** The iteration order of the map holds each entry once *)

Lemma resize_loop_pos fuel cap size : 0 < cap -> 0 < resize_loop fuel cap size.
Proof.
  revert cap. induction fuel as [|fuel IH]; intros cap Hcap; simpl; [done|].
  destruct (_ && _); [apply IH; lia|done].
Qed.

Lemma table_length_pos size : 0 < table_length size.
Proof. by apply resize_loop_pos. Qed.

Lemma bucket_index_range n key : 0 < n -> 0 <= bucket_index n key < n.
Proof.
  intros Hn. unfold bucket_index. split.
  - apply Z.land_nonneg. left. lia.
  - pose proof (Z.sub_land_same_l (n - 1) (hash key)) as Hsub.
    assert (0 <= Z.land (n - 1) (Z.lnot (hash key)))
      by (apply Z.land_nonneg; left; lia).
    lia.
Qed.

Section Chains.
Variable f : entry -> Z.

Lemma chains_cons e m (indices : list Z) :
  NoDup indices ->
  concat (map (fun i => filter (fun e => f e = i) (e :: m)) indices) ≡ₚ
  (if decide (f e ∈ indices) then [e] else []) ++
  concat (map (fun i => filter (fun e => f e = i) m) indices).
Proof.
  induction 1 as [|i indices Hi Hnd IH]; [done|].
  cbn [map concat]. rewrite IH, filter_cons.
  destruct (decide (f e = i)); destruct (decide (f e ∈ indices));
    destruct (decide (f e ∈ i :: indices));
    rewrite ?elem_of_cons, ?not_elem_of_cons in *;
    try (exfalso; intuition congruence); simpl; try done.
  by rewrite Permutation_middle.
Qed.

Lemma chains_Permutation m (indices : list Z) :
  NoDup indices -> (forall e, e ∈ m -> f e ∈ indices) ->
  concat (map (fun i => filter (fun e => f e = i) m) indices) ≡ₚ m.
Proof.
  intros Hnd. induction m as [|e m IH]; intros Hin.
  - clear. induction indices as [|i indices IH]; [done|]. simpl. by rewrite IH.
  - rewrite chains_cons by done. rewrite decide_True by (apply Hin; left).
    simpl. constructor. apply IH. intros e' He'. apply Hin. by right.
Qed.

End Chains.

Lemma entrySet_Permutation m : entrySet m ≡ₚ m.
Proof.
  unfold entrySet, chain.
  apply (chains_Permutation (fun e => bucket_index _ (getKey e))).
  - apply NoDup_seqZ.
  - intros e _. apply elem_of_seqZ.
    pose proof (bucket_index_range (table_length (length m)) (getKey e)
                  (table_length_pos _)). lia.
Qed.

Lemma entrySet_counts_NoDup elements :
  NoDup (map getKey (entrySet (counts elements))).
Proof. rewrite entrySet_Permutation. apply counts_NoDup. Qed.

(** ** The counts of the selection are the [k] largest counts *)

(** The counts of a map, largest first. *)
Definition counts_descending (entries : list entry) : list Z :=
  merge_sort (flip Z.le) (map getValue entries).

#[local] Instance flip_le_total : Total (flip Z.le).
Proof. intros a b. unfold flip. lia. Qed.

#[local] Instance flip_le_antisymm : AntiSymm (=) (flip Z.le).
Proof. intros a b. unfold flip. lia. Qed.

Lemma counts_descending_unique entries (l : list Z) :
  StronglySorted (flip Z.le) l -> l ≡ₚ map getValue entries ->
  l = counts_descending entries.
Proof.
  intros Hs Hp. apply (StronglySorted_unique (flip Z.le)); [done| |].
  - apply StronglySorted_merge_sort; apply _.
  - unfold counts_descending. by rewrite merge_sort_Permutation.
Qed.

Lemma count_ge_values l :
  StronglySorted count_ge l -> StronglySorted (flip Z.le) (map getValue l).
Proof. apply StronglySorted_fmap. intros a b Hab. exact Hab. Qed.

(** A sequence that is descending by count, holds [min k n] of the [n]
    entries and leaves out only entries that are at most the ones it holds,
    carries the [k] largest counts. *)
Lemma largest_counts k entries out rest :
  length out = (k `min` length entries)%nat ->
  entries ≡ₚ out ++ rest ->
  (forall r e, r ∈ rest -> e ∈ out -> getValue r <= getValue e) ->
  StronglySorted count_ge out ->
  map getValue out = take k (counts_descending entries).
Proof.
  intros Hlen Hperm Hord Hsorted.
  rewrite <- (counts_descending_unique entries
    (map getValue out ++ merge_sort (flip Z.le) (map getValue rest))).
  - assert (length entries = length out + length rest)%nat as Hn
      by (by rewrite Hperm, length_app).
    destruct (decide (length out = k)) as [Hk|Hk].
    + by rewrite take_app_length' by (by rewrite length_map).
    + assert (rest = []) as -> by (apply length_zero_iff_nil; lia).
      rewrite app_nil_r, take_ge; [done|]. rewrite length_map. lia.
  - apply StronglySorted_app_2.
    + intros v w Hv Hw. rewrite merge_sort_Permutation in Hw.
      apply list_elem_of_fmap in Hv as (e & -> & He), Hw as (r & -> & Hr).
      unfold flip. by apply Hord.
    + by apply count_ge_values.
    + apply StronglySorted_merge_sort; apply _.
  - by rewrite merge_sort_Permutation, Hperm, map_app.
Qed.

Lemma selectTopK_counts k entries :
  NoDup (map getKey entries) ->
  map getValue (selectTopK k entries) = take k (counts_descending entries).
Proof.
  intros Hnd.
  destruct (selectTopK_scan k entries Hnd) as (Hlen & (rest & Hperm & Hord) & Hs).
  by apply (largest_counts k entries _ rest).
Qed.

Lemma selectTopK_subseteq k entries e :
  NoDup (map getKey entries) -> e ∈ selectTopK k entries -> e ∈ entries.
Proof.
  intros Hnd He.
  destruct (selectTopK_scan k entries Hnd) as (_ & (rest & Hperm & _) & _).
  rewrite Hperm. apply elem_of_app. by left.
Qed.

(** ** The reference selection *)

Lemma reference_insert_Permutation x l : reference_insert x l ≡ₚ x :: l.
Proof.
  induction l as [|y l IH]; simpl; [done|].
  destruct (ranked_before x y); [done|]. rewrite IH. apply Permutation_swap.
Qed.

Lemma reference_sort_Permutation entries : reference_sort entries ≡ₚ entries.
Proof.
  induction entries as [|x l IH]; simpl; [done|].
  by rewrite reference_insert_Permutation, IH.
Qed.

Lemma ranked_before_count_ge a b : ranked_before a b = true -> count_ge a b.
Proof. unfold ranked_before, count_ge. intros H. lia. Qed.

Lemma not_ranked_before_count_ge a b : ranked_before a b = false -> count_ge b a.
Proof. unfold ranked_before, count_ge. intros H. lia. Qed.

Lemma reference_insert_descending x l :
  StronglySorted count_ge l -> StronglySorted count_ge (reference_insert x l).
Proof.
  induction 1 as [|y l Hl IH Hy]; simpl; [repeat constructor|].
  destruct (ranked_before x y) eqn:Hxy.
  - apply ranked_before_count_ge in Hxy. constructor; [by constructor|].
    constructor; [done|]. eapply Forall_impl; [exact Hy|].
    intros z Hz. by transitivity y.
  - apply not_ranked_before_count_ge in Hxy. constructor; [done|].
    rewrite reference_insert_Permutation. by constructor.
Qed.

Lemma reference_sort_descending entries :
  StronglySorted count_ge (reference_sort entries).
Proof.
  induction entries as [|x l IH]; simpl; [constructor|].
  by apply reference_insert_descending.
Qed.

Lemma selectTopK_reference_counts k entries :
  map getValue (selectTopK_reference k entries) = take k (counts_descending entries).
Proof.
  unfold selectTopK_reference. rewrite <- firstn_map. f_equal.
  apply counts_descending_unique.
  - apply count_ge_values, reference_sort_descending.
  - by rewrite reference_sort_Permutation.
Qed.

Lemma selectTopK_reference_subseteq k entries e :
  e ∈ selectTopK_reference k entries -> e ∈ entries.
Proof.
  intros He. rewrite <- reference_sort_Permutation.
  rewrite <- (take_drop k (reference_sort entries)). apply elem_of_app. by left.
Qed.

(** With pairwise distinct counts, a sequence of entries of the map is
    determined by its counts. *)
Lemma distinct_counts_inj entries a b :
  NoDup (map getValue entries) -> a ∈ entries -> b ∈ entries ->
  getValue a = getValue b -> a = b.
Proof.
  induction entries as [|x l IH]; cbn [map]; intros Hnd Ha Hb Hab.
  { by apply elem_of_nil in Ha. }
  apply NoDup_cons in Hnd as [Hx Hnd].
  apply elem_of_cons in Ha as [->|Ha], Hb as [->|Hb]; auto.
  - destruct Hx. rewrite Hab. apply list_elem_of_fmap. by exists b.
  - destruct Hx. rewrite <- Hab. apply list_elem_of_fmap. by exists a.
Qed.

Lemma distinct_counts_determine entries (l1 l2 : list entry) :
  NoDup (map getValue entries) ->
  (forall e, e ∈ l1 -> e ∈ entries) -> (forall e, e ∈ l2 -> e ∈ entries) ->
  map getValue l1 = map getValue l2 -> l1 = l2.
Proof.
  intros Hnd. revert l2. induction l1 as [|a l1 IH]; intros [|b l2] H1 H2 Hmap;
    try done.
  injection Hmap as Hab Hmap. f_equal.
  - apply (distinct_counts_inj entries); auto; [apply H1|apply H2]; left.
  - apply IH; auto; intros e He; [apply H1|apply H2]; by right.
Qed.

(** ** [process] as a whole *)

(** What [process] emits is the selection over the counted map: at most
    [K] entries of it, [K] when it has that many keys, largest counts
    first. *)
Lemma process_emits elements :
  length (process elements) = (K `min` length (counts elements))%nat /\
  (forall key value,
     (key, value) ∈ process elements -> get (counts elements) key = Some value) /\
  StronglySorted count_ge (process elements).
Proof.
  destruct (selectTopK_scan K (entrySet (counts elements))
              (entrySet_counts_NoDup elements)) as (Hlen & _ & Hs).
  unfold process. split_and!.
  - by rewrite Hlen, entrySet_Permutation.
  - intros key value Hin. apply get_Some; [apply counts_NoDup|].
    rewrite <- entrySet_Permutation.
    eapply selectTopK_subseteq; [apply entrySet_counts_NoDup|done].
  - done.
Qed.

(* ===================================================================== *)
(** * The specified properties of the top-K selection *)
(* ===================================================================== *)

Local Open Scope string_scope.
Local Open Scope list_scope.

(** Descending by count, ties by key ascending: each entry is ranked before
    the next one. *)
Definition ranked (out : list entry) : Prop :=
  Sorted (fun a b => ranked_before a b = true) out.

(** ** The reference selection is ranked *)

(** For entries with different keys, one is ranked before the other. *)
Lemma ranked_before_total a b :
  getKey a <> getKey b -> ranked_before a b = false -> ranked_before b a = true.
Proof.
  unfold ranked_before, String.ltb. intros Hkeys Hab.
  rewrite String.compare_antisym.
  destruct (String.compare (getKey a) (getKey b)) eqn:Hcmp; simpl in *.
  - by apply String.compare_eq_iff in Hcmp.
  - lia.
  - lia.
Qed.

Lemma reference_insert_ranked x l :
  (forall y, y ∈ l -> getKey x <> getKey y) ->
  ranked l -> ranked (reference_insert x l).
Proof.
  unfold ranked. intros Hkeys Hl.
  induction Hl as [|y l Hl IH Hy]; simpl; [by repeat constructor|].
  destruct (ranked_before x y) eqn:Hxy.
  - constructor; [by constructor|]. by constructor.
  - constructor.
    + apply IH. intros z Hz. apply Hkeys. by right.
    + assert (ranked_before y x = true) as Hyx.
      { apply ranked_before_total; [|done]. intros Heq. apply (Hkeys y); [left|done]. }
      destruct Hy as [|z l Hyz]; simpl; [by constructor|].
      destruct (ranked_before x z); by constructor.
Qed.

Lemma reference_sort_ranked entries :
  NoDup (map getKey entries) -> ranked (reference_sort entries).
Proof.
  induction entries as [|x l IH]; cbn [map reference_sort foldr]; intros Hnd.
  { constructor. }
  apply NoDup_cons in Hnd as [Hx Hnd].
  apply reference_insert_ranked; [|by apply IH].
  intros y Hy Heq. apply Hx. rewrite Heq. apply list_elem_of_fmap.
  exists y. split; [done|]. by rewrite <- reference_sort_Permutation.
Qed.

Lemma ranked_take k l : ranked l -> ranked (take k l).
Proof.
  unfold ranked. intros Hl. revert k.
  induction Hl as [|y l Hl IH Hy]; intros [|k]; simpl; try constructor.
  - apply IH.
  - destruct Hy as [|z l Hyz]; destruct k; simpl; by constructor.
Qed.

(** The reference selection meets the order of the specification. *)
Lemma selectTopK_reference_ranked k entries :
  NoDup (map getKey entries) -> ranked (selectTopK_reference k entries).
Proof. intros Hnd. by apply ranked_take, reference_sort_ranked. Qed.

(** Six items viewed once each, in the order of their names. *)
Definition six_views : list Tuple2 :=
  [("a", 1); ("b", 1); ("c", 1); ("d", 1); ("e", 1); ("f", 1)].

(** Eight items with counts 3, 7, 1, 9, 4, 4, 8, 0 as one map. *)
Definition eight_entries : list entry :=
  [("a", 3); ("b", 7); ("c", 1); ("d", 9); ("e", 4); ("f", 4); ("g", 8); ("h", 0)].

(** C1, as stated, fails on the code: for the six items [a] to [f] viewed
    once each, the map has [6 >= K] keys and [process] emits [f] before
    [b]: entries with equal counts are not in ascending key order. *)
Lemma selectTopK_ties_not_by_key :
  NoDup (map getKey (entrySet (counts six_views))) /\
  (K <= length (entrySet (counts six_views)))%nat /\
  process six_views = [("f", 1); ("b", 1); ("c", 1); ("d", 1); ("e", 1)] /\
  ~ ranked (selectTopK K (entrySet (counts six_views))).
Proof.
  split_and!.
  - apply entrySet_counts_NoDup.
  - vm_compute. lia.
  - vm_compute. reflexivity.
  - assert (selectTopK K (entrySet (counts six_views)) =
            [("f", 1); ("b", 1); ("c", 1); ("d", 1); ("e", 1)]) as ->
      by (vm_compute; reflexivity).
    intros Hs. inversion Hs as [|? ? _ Hhd]. inversion Hhd as [|? ? Hfb].
    vm_compute in Hfb. discriminate.
Qed.

(** C1, amended: for a map with at least [K] distinct keys the selection
    returns exactly [K] entries of the map, no entry and no key twice
    (the output is the map without the entries left out), every returned
    count is at least every count not returned, and the output is
    descending by count (the order among equal counts is the one the scan
    leaves). *)
Theorem selectTopK_at_least_K (entries : list entry) :
  NoDup (map getKey entries) -> (K <= length entries)%nat ->
  length (selectTopK K entries) = K /\
  NoDup (map getKey (selectTopK K entries)) /\
  selectTopK K entries ⊆+ entries /\
  (exists rest, entries ≡ₚ selectTopK K entries ++ rest /\
     length rest = (length entries - K)%nat) /\
  (forall e, e ∈ selectTopK K entries -> e ∈ entries) /\
  (forall e r, e ∈ selectTopK K entries -> r ∈ entries ->
     r ∉ selectTopK K entries -> getValue r <= getValue e) /\
  StronglySorted count_ge (selectTopK K entries).
Proof.
  intros Hnd Hk.
  destruct (selectTopK_scan K entries Hnd) as (Hlen & (rest & Hperm & Hord) & Hs).
  split_and!.
  - lia.
  - rewrite Hperm, map_app in Hnd. by apply NoDup_app in Hnd as (? & _).
  - transitivity (selectTopK K entries ++ rest).
    + by apply submseteq_inserts_r.
    + by apply Permutation_submseteq.
  - exists rest. split; [done|].
    assert (length entries = length (selectTopK K entries) + length rest)%nat
      by (by rewrite Hperm at 1; rewrite length_app).
    lia.
  - intros e. by apply selectTopK_subseteq.
  - intros e r He Hr Hnr. apply Hord; [|done].
    rewrite Hperm in Hr. apply elem_of_app in Hr as [?|?]; done.
  - done.
Qed.

Lemma selectTopK_at_least_K_witness :
  NoDup (map getKey eight_entries) /\ (K <= length eight_entries)%nat /\
  length (selectTopK K eight_entries) = K /\
  NoDup (map getKey (selectTopK K eight_entries)) /\
  selectTopK K eight_entries ⊆+ eight_entries.
Proof.
  assert (NoDup (map getKey eight_entries)) as Hnd
    by (apply (bool_decide_unpack _); vm_compute; exact I).
  assert (K <= length eight_entries)%nat as Hk by (vm_compute; lia).
  destruct (selectTopK_at_least_K eight_entries Hnd Hk)
    as (Hlen & Hkeys & Hsub & _).
  split_and!; [exact Hnd|exact Hk|exact Hlen|exact Hkeys|exact Hsub].
Defined.

(** The items [a] and [p] viewed once each. *)
Definition two_views : list Tuple2 := [("a", 1); ("p", 1)].

(** Two items with counts 2 and 5 as one map. *)
Definition two_entries : list entry := [("x", 2); ("y", 5)].

(** C5, as stated, fails on the code: for the two items [a] and [p] viewed
    once each the map iterates [p] first (bucket 0 before bucket 1), and
    the selection returns both entries with [p] before [a]. *)
Lemma selectTopK_few_ties_not_by_key :
  (length (entrySet (counts two_views)) < K)%nat /\
  process two_views = [("p", 1); ("a", 1)] /\
  ~ ranked (selectTopK K (entrySet (counts two_views))).
Proof.
  split_and!.
  - vm_compute. lia.
  - vm_compute. reflexivity.
  - assert (selectTopK K (entrySet (counts two_views)) =
            [("p", 1); ("a", 1)]) as -> by (vm_compute; reflexivity).
    intros Hs. inversion Hs as [|? ? _ Hhd]. inversion Hhd as [|? ? Hpa].
    vm_compute in Hpa. discriminate.
Qed.

(** C5, amended: for a map with fewer than [K] distinct keys the selection
    returns all its entries, descending by count (the order among equal
    counts is the one the scan leaves); on the empty map it returns the
    empty sequence. *)
Theorem selectTopK_fewer_than_K (entries : list entry) :
  NoDup (map getKey entries) -> (length entries < K)%nat ->
  selectTopK K entries ≡ₚ entries /\
  length (selectTopK K entries) = length entries /\
  StronglySorted count_ge (selectTopK K entries) /\
  selectTopK K [] = [].
Proof.
  intros Hnd Hk.
  destruct (selectTopK_scan K entries Hnd) as (Hlen & (rest & Hperm & Hord) & Hs).
  assert (rest = []) as ->.
  { apply length_zero_iff_nil.
    assert (length entries = length (selectTopK K entries) + length rest)%nat
      by (by rewrite Hperm at 1; rewrite length_app).
    lia. }
  rewrite app_nil_r in Hperm. split_and!; [done|lia|done|reflexivity].
Qed.

Lemma selectTopK_fewer_than_K_witness :
  NoDup (map getKey two_entries) /\
  (length two_entries < K)%nat /\
  selectTopK K two_entries ≡ₚ two_entries.
Proof.
  assert (NoDup (map getKey two_entries)) as Hnd
    by (apply (bool_decide_unpack _); vm_compute; exact I).
  assert (length two_entries < K)%nat as Hk by (vm_compute; lia).
  split_and!; [exact Hnd|exact Hk|].
  exact (proj1 (selectTopK_fewer_than_K two_entries Hnd Hk)).
Defined.

(** C4, as stated, fails on the code: for the six items [a] to [f] viewed
    once each, the heap keeps [f] and drops [a], where the reference
    selection returns [a] to [e]. *)
Lemma selectTopK_differs_from_reference :
  selectTopK K (entrySet (counts six_views)) =
    [("f", 1); ("b", 1); ("c", 1); ("d", 1); ("e", 1)] /\
  selectTopK_reference K (entrySet (counts six_views)) =
    [("a", 1); ("b", 1); ("c", 1); ("d", 1); ("e", 1)] /\
  selectTopK K (entrySet (counts six_views)) <>
    selectTopK_reference K (entrySet (counts six_views)).
Proof. split_and!; vm_compute; [reflexivity|reflexivity|discriminate]. Qed.

(** C4, amended: for every map and every [k] the bounded heap scan with
    the final sort returns the same counts in the same positions as the
    reference selection, and the same ordered sequence of entries when the
    counts of the map are pairwise distinct. *)
Theorem selectTopK_refines_reference (k : nat) (entries : list entry) :
  NoDup (map getKey entries) ->
  map getValue (selectTopK k entries) =
    map getValue (selectTopK_reference k entries) /\
  (NoDup (map getValue entries) ->
   selectTopK k entries = selectTopK_reference k entries).
Proof.
  intros Hnd.
  assert (map getValue (selectTopK k entries) =
          map getValue (selectTopK_reference k entries)) as Hcounts
    by (by rewrite selectTopK_counts, selectTopK_reference_counts).
  split; [done|]. intros Hdistinct.
  apply (distinct_counts_determine entries); auto.
  - intros e. by apply selectTopK_subseteq.
  - intros e. apply selectTopK_reference_subseteq.
Qed.

Lemma selectTopK_refines_reference_witness :
  NoDup (map getKey eight_entries) /\
  map getValue (selectTopK K eight_entries) =
    map getValue (selectTopK_reference K eight_entries).
Proof.
  assert (NoDup (map getKey eight_entries)) as Hnd
    by (apply (bool_decide_unpack _); vm_compute; exact I).
  split; [exact Hnd|].
  exact (proj1 (selectTopK_refines_reference K eight_entries Hnd)).
Defined.

(** C7, as stated, fails on the code: the keys [a] and [q] share a bucket,
    so the maps counted from the views [a, q] and from the views [q, a]
    hold the same counts for every key and iterate in different orders;
    the selection returns the tied entries in the order of the map it is
    run on. *)
Lemma selectTopK_depends_on_iteration_order :
  (forall key, get (counts [("a", 1); ("q", 1)]) key =
               get (counts [("q", 1); ("a", 1)]) key) /\
  process [("a", 1); ("q", 1)] = [("a", 1); ("q", 1)] /\
  process [("q", 1); ("a", 1)] = [("q", 1); ("a", 1)] /\
  selectTopK K (entrySet (counts [("a", 1); ("q", 1)])) <>
  selectTopK K (entrySet (counts [("q", 1); ("a", 1)])).
Proof.
  split_and!.
  - intros key. rewrite !counts_get. cbn [map f0 fst].
    destruct (decide (key ∈ ["a"; "q"])) as [Hin|Hnin];
      destruct (decide (key ∈ ["q"; "a"])) as [Hin'|Hnin'].
    + apply elem_of_cons in Hin as [->|Hin]; [done|].
      apply elem_of_cons in Hin as [->|Hin]; [done|]. by apply elem_of_nil in Hin.
    + destruct Hnin'. rewrite !elem_of_cons in *. tauto.
    + destruct Hnin. rewrite !elem_of_cons in *. tauto.
    + done.
  - vm_compute. reflexivity.
  - vm_compute. reflexivity.
  - vm_compute. discriminate.
Qed.

(** C7, amended: the selection is a function of the sequence in which the
    map yields its entries. For two such sequences of one map and every
    [k], the two runs return the same counts in the same positions, and the
    identical ordered sequence of entries when the counts of the map are
    pairwise distinct; the relative order of entries with equal counts
    follows the iteration order. *)
Theorem selectTopK_deterministic_up_to_ties (k : nat) (entries1 entries2 : list entry) :
  NoDup (map getKey entries1) -> entries1 ≡ₚ entries2 ->
  map getValue (selectTopK k entries1) = map getValue (selectTopK k entries2) /\
  (NoDup (map getValue entries1) -> selectTopK k entries1 = selectTopK k entries2).
Proof.
  intros Hnd1 Hperm.
  assert (NoDup (map getKey entries2)) as Hnd2 by (by rewrite <- Hperm).
  assert (counts_descending entries1 = counts_descending entries2) as Hsame.
  { symmetry. apply counts_descending_unique.
    - apply StronglySorted_merge_sort; apply _.
    - unfold counts_descending. by rewrite merge_sort_Permutation, Hperm. }
  assert (map getValue (selectTopK k entries1) =
          map getValue (selectTopK k entries2)) as Hcounts
    by (by rewrite !selectTopK_counts, Hsame).
  split; [done|]. intros Hdistinct.
  apply (distinct_counts_determine entries1); auto.
  - intros e. by apply selectTopK_subseteq.
  - intros e He. rewrite Hperm. by apply selectTopK_subseteq in He.
Qed.

Lemma selectTopK_deterministic_up_to_ties_witness :
  NoDup (map getKey [("a", 2); ("q", 1)]) /\
  [("a", 2); ("q", 1)] ≡ₚ [("q", 1); ("a", 2)] /\
  NoDup (map getValue [("a", 2); ("q", 1)]) /\
  selectTopK K [("a", 2); ("q", 1)] = selectTopK K [("q", 1); ("a", 2)].
Proof.
  assert (NoDup (map getKey [("a", 2); ("q", 1)])) as Hnd
    by (apply (bool_decide_unpack _); vm_compute; exact I).
  assert ([("a", 2); ("q", 1)] ≡ₚ [("q", 1); ("a", 2)]) as Hperm
    by apply Permutation_swap.
  assert (NoDup (map getValue [("a", 2); ("q", 1)])) as Hdistinct
    by (apply (bool_decide_unpack _); vm_compute; exact I).
  split_and!; [exact Hnd|exact Hperm|exact Hdistinct|].
  exact (proj2 (selectTopK_deterministic_up_to_ties K _ _ Hnd Hperm) Hdistinct).
Defined.

(* ===================================================================== *)
(** * The specified property of the running counts *)
(* ===================================================================== *)

(** Two elements of one window for the key [a], of weights [2^31 - 1] and 1. *)
Definition heavy_views : list Tuple2 := [("a", 2147483647); ("a", 1)].

(** C3, as stated, fails on the code: the counts are Java [int]s, and the
    weights [2^31 - 1] and [1] of one key add up to [-2^31], not to their
    sum [2^31]. *)
Lemma counts_wrap_around :
  weight_sum "a" heavy_views = 2147483648 /\
  get (counts heavy_views) "a" = Some (-2147483648) /\
  get (counts heavy_views) "a" <> Some (weight_sum "a" heavy_views).
Proof. split_and!; vm_compute; [reflexivity|reflexivity|discriminate]. Qed.

(** C3, amended: after the elements of a window are counted, a key that
    occurs among them is mapped to the sum of the weights of its elements
    reduced into the 32-bit [int] range, which is the sum itself whenever
    that lies in the range, and a key that does not occur has no entry;
    each element adds its weight to the running count of its key by [int]
    addition, starting from 0 when the key has no entry yet, and leaves
    the counts of the other keys as they are. *)
Theorem counts_running_sum (elements : list Tuple2) (key : string) :
  get (counts elements) key =
    (if decide (key ∈ map f0 elements)
     then Some (wrap32 (weight_sum key elements)) else None) /\
  (key ∈ map f0 elements ->
   - 2 ^ 31 <= weight_sum key elements < 2 ^ 31 ->
   get (counts elements) key = Some (weight_sum key elements)) /\
  (forall e, f0 e = key ->
     get (counts (elements ++ [e])) key =
     Some (int_add (getOrDefault (counts elements) key 0) (f1 e))) /\
  (forall e, f0 e <> key ->
     get (counts (elements ++ [e])) key = get (counts elements) key).
Proof.
  split_and!.
  - apply counts_get.
  - intros Hin Hrange. rewrite counts_get, decide_True by done.
    by rewrite wrap32_small.
  - intros e <-. rewrite counts_snoc, get_put.
    by destruct (String.eqb_spec (f0 e) (f0 e)).
  - intros e Hne. rewrite counts_snoc, get_put.
    by destruct (String.eqb_spec (f0 e) key).
Qed.

(* ===================================================================== *)
(** * Further properties of [process] and of the job around it *)
(* ===================================================================== *)

(** ** The counted map *)

Lemma counts_keys elements key :
  key ∈ map getKey (counts elements) <-> key ∈ map f0 elements.
Proof.
  pose proof (get_None (counts elements) key) as Hnone.
  rewrite counts_get in Hnone.
  destruct (decide (key ∈ map f0 elements)) as [Hin|Hnin].
  - split; [done|]. intros _.
    destruct (decide (key ∈ map getKey (counts elements))) as [|Hout]; [done|].
    by apply Hnone in Hout.
  - split; [|done]. intros Hin. by destruct (proj1 Hnone eq_refl).
Qed.

Lemma counts_entry elements key value :
  (key, value) ∈ counts elements <->
  key ∈ map f0 elements /\ value = wrap32 (weight_sum key elements).
Proof.
  rewrite <- (get_Some _ _ _ (counts_NoDup elements)), counts_get.
  destruct (decide (key ∈ map f0 elements)) as [Hin|Hnin].
  - split; [intros [= <-]; done|]. by intros [_ ->].
  - split; [done|]. by intros [? _].
Qed.

(** The map holds one entry for each distinct key of the elements. *)
Lemma counts_length elements :
  length (counts elements) = length (remove_dups (map f0 elements)).
Proof.
  rewrite <- (length_map getKey). apply Permutation_length.
  apply NoDup_Permutation.
  - apply counts_NoDup.
  - apply NoDup_remove_dups.
  - intros key. rewrite elem_of_remove_dups. apply counts_keys.
Qed.

Lemma process_subseteq elements e : e ∈ process elements -> e ∈ counts elements.
Proof.
  intros He. rewrite <- entrySet_Permutation.
  eapply selectTopK_subseteq; [apply entrySet_counts_NoDup|exact He].
Qed.

(** X1: for any elements, [process] emits [min K n] entries for the [n]
    distinct keys of the window, no key twice, each with the 32-bit sum of
    the weights of its key, largest counts first; a key of the window that
    is not emitted has a count that is at most every emitted count. *)
Theorem process_emits_top_counts (elements : list Tuple2) :
  length (process elements) =
    (K `min` length (remove_dups (map f0 elements)))%nat /\
  NoDup (map getKey (process elements)) /\
  (forall key value, (key, value) ∈ process elements ->
     key ∈ map f0 elements /\ value = wrap32 (weight_sum key elements)) /\
  StronglySorted count_ge (process elements) /\
  (forall key e, key ∈ map f0 elements ->
     key ∉ map getKey (process elements) -> e ∈ process elements ->
     wrap32 (weight_sum key elements) <= getValue e).
Proof.
  destruct (selectTopK_scan K (entrySet (counts elements))
              (entrySet_counts_NoDup elements))
    as (Hlen & (rest & Hperm & Hord) & Hs).
  fold (process elements) in *.
  assert (counts elements ≡ₚ process elements ++ rest) as Hall
    by (by rewrite <- entrySet_Permutation).
  split_and!.
  - by rewrite Hlen, entrySet_Permutation, counts_length.
  - pose proof (counts_NoDup elements) as Hnd.
    rewrite Hall, map_app in Hnd. by apply NoDup_app in Hnd as (? & _).
  - intros key value Hin. by apply counts_entry, process_subseteq.
  - done.
  - intros key e Hkey Hout He.
    assert ((key, wrap32 (weight_sum key elements)) ∈ counts elements) as Hentry
      by (by apply counts_entry).
    rewrite Hall in Hentry. apply elem_of_app in Hentry as [Hemitted|Hrest].
    + destruct Hout. apply list_elem_of_fmap.
      by exists (key, wrap32 (weight_sum key elements)).
    + by apply (Hord _ e) in Hrest.
Qed.

(** ** Windows keyed by item, as [main] builds them *)

Lemma weight_sum_keyBy key window :
  weight_sum key (keyBy key window) = weight_sum key window.
Proof.
  unfold weight_sum, keyBy. f_equal. f_equal.
  induction window as [|e l IH]; [done|].
  rewrite !filter_cons. destruct (decide (f0 e = key)) as [Heq|Hne].
  - rewrite filter_cons, decide_True by done. by rewrite IH.
  - done.
Qed.

(** Elements of one key are counted into one entry. *)
Lemma counts_one_key key elements :
  elements <> [] -> Forall (fun e => f0 e = key) elements ->
  counts elements = [(key, wrap32 (weight_sum key elements))].
Proof.
  induction elements as [|e l IH] using rev_ind; [done|].
  intros _ Hall. apply Forall_app in Hall as [Hl He].
  apply Forall_inv in He.
  rewrite counts_snoc, weight_sum_snoc, He, String.eqb_refl.
  destruct l as [|e' l'].
  - cbn. unfold int_add. do 2 f_equal.
  - rewrite IH by done. cbn [getOrDefault put]. rewrite String.eqb_refl.
    by rewrite int_add_wrap32.
Qed.

(** The selection over a map of one entry is that entry. *)
Lemma selectTopK_singleton e : selectTopK K [e] = [e].
Proof.
  destruct (selectTopK_scan K [e]) as (Hlen & (rest & Hperm & _) & _).
  { apply NoDup_singleton. }
  destruct (selectTopK K [e]) as [|x [|y out]]; try done.
  destruct rest as [|r rest]; [|apply Permutation_length in Hperm; simpl in Hperm; lia].
  apply Permutation_singleton_l in Hperm. by simplify_eq.
Qed.

Lemma process_one_key key elements :
  elements <> [] -> Forall (fun e => f0 e = key) elements ->
  process elements = [(key, wrap32 (weight_sum key elements))].
Proof.
  intros Hne Hall. unfold process. rewrite (counts_one_key key) by done.
  assert (entrySet [(key, wrap32 (weight_sum key elements))] =
          [(key, wrap32 (weight_sum key elements))]) as ->.
  { apply Permutation_singleton_r, entrySet_Permutation. }
  apply selectTopK_singleton.
Qed.

Lemma keyBy_one_key key window :
  key ∈ map f0 window ->
  keyBy key window <> [] /\ Forall (fun e => f0 e = key) (keyBy key window).
Proof.
  intros Hin. split.
  - apply list_elem_of_fmap in Hin as (e & -> & He).
    intros Hnil. assert (e ∈ keyBy (f0 e) window) as He'
      by (by apply list_elem_of_filter).
    rewrite Hnil in He'. by apply elem_of_nil in He'.
  - apply Forall_forall. intros e He. by apply list_elem_of_filter in He as [? _].
Qed.

(** X2: the call of [process] for one key of a window, which receives the
    elements of that key as [keyBy] groups them, emits a map of exactly one
    entry: the key with the 32-bit sum of the weights of its elements. *)
Theorem process_of_keyed_window (key : string) (window : list Tuple2) :
  key ∈ map f0 window ->
  process (keyBy key window) = [(key, wrap32 (weight_sum key window))].
Proof.
  intros Hin. destruct (keyBy_one_key key window Hin) as [Hne Hall].
  rewrite (process_one_key key) by done. by rewrite weight_sum_keyBy.
Qed.

Lemma process_of_keyed_window_witness :
  "a" ∈ map f0 [("a", 1); ("b", 1); ("a", 1)] /\
  process (keyBy "a" [("a", 1); ("b", 1); ("a", 1)]) = [("a", 2)].
Proof.
  assert ("a" ∈ map f0 [("a", 1); ("b", 1); ("a", 1)]) as Hin
    by (apply (bool_decide_unpack _); vm_compute; exact I).
  split; [exact Hin|].
  exact (process_of_keyed_window "a" [("a", 1); ("b", 1); ("a", 1)] Hin).
Defined.

(** The number of views of an item among the item ids read. *)
Definition views (item : string) (input : list string) : nat :=
  length (filter (fun i => i = item) input).

Lemma weight_sum_itemCounts key input :
  weight_sum key (itemCounts input) = Z.of_nat (views key input).
Proof.
  unfold weight_sum, itemCounts, views.
  induction input as [|item input IH]; [done|].
  cbn [map]. rewrite !filter_cons. cbn [f0 fst].
  destruct (decide (item = key)) as [->|Hne].
  - cbn [map foldr length f1 snd]. rewrite IH. lia.
  - done.
Qed.

Lemma views_le item input : (views item input <= length input)%nat.
Proof. apply length_filter. Qed.

(** X3: in the job as [main] wires it (every item id becomes an element of
    weight 1, the stream is keyed by item id), for a window of fewer than
    [2^31] elements each call of [process] emits exactly one entry, the
    item with its number of views in the window. *)
Theorem job_emits_views_of_item (input : list string) (item : string) :
  Z.of_nat (length input) < 2 ^ 31 ->
  item ∈ input ->
  process (keyBy item (itemCounts input)) = [(item, Z.of_nat (views item input))].
Proof.
  intros Hsmall Hin.
  assert (item ∈ map f0 (itemCounts input)) as Hkey.
  { unfold itemCounts. rewrite map_map. cbn [f0 fst]. by rewrite map_id. }
  destruct (keyBy_one_key item _ Hkey) as [Hne Hall].
  rewrite (process_one_key item) by done.
  rewrite weight_sum_keyBy, weight_sum_itemCounts, wrap32_small; [done|].
  pose proof (views_le item input). lia.
Qed.

Lemma job_emits_views_of_item_witness :
  Z.of_nat (length ["x"; "y"; "x"; "x"]) < 2 ^ 31 /\
  "x" ∈ ["x"; "y"; "x"; "x"] /\
  process (keyBy "x" (itemCounts ["x"; "y"; "x"; "x"])) = [("x", 3)].
Proof.
  assert (Z.of_nat (length ["x"; "y"; "x"; "x"]) < 2 ^ 31) as Hsmall
    by (vm_compute; reflexivity).
  assert ("x" ∈ ["x"; "y"; "x"; "x"]) as Hin
    by (apply (bool_decide_unpack _); vm_compute; exact I).
  split_and!; [exact Hsmall|exact Hin|].
  exact (job_emits_views_of_item ["x"; "y"; "x"; "x"] "x" Hsmall Hin).
Defined.

(** ** The order in which the elements arrive *)

Lemma foldr_add_Permutation (l1 l2 : list Z) :
  l1 ≡ₚ l2 -> foldr Z.add 0 l1 = foldr Z.add 0 l2.
Proof. induction 1; simpl; lia. Qed.

Lemma weight_sum_Permutation key elements1 elements2 :
  elements1 ≡ₚ elements2 -> weight_sum key elements1 = weight_sum key elements2.
Proof.
  intros Hperm. unfold weight_sum. apply foldr_add_Permutation.
  apply Permutation_map. by rewrite Hperm.
Qed.

Lemma counts_Permutation elements1 elements2 :
  elements1 ≡ₚ elements2 -> counts elements1 ≡ₚ counts elements2.
Proof.
  intros Hperm. apply NoDup_Permutation.
  - eapply NoDup_fmap_1, counts_NoDup.
  - eapply NoDup_fmap_1, counts_NoDup.
  - intros [key value]. rewrite !counts_entry.
    rewrite (weight_sum_Permutation key _ _ Hperm).
    assert (map f0 elements1 ≡ₚ map f0 elements2) as ->
      by (by apply Permutation_map).
    done.
Qed.

(** X4: the elements of a window may arrive in any order: two orders of
    the same elements are counted into the same mapping, and [process]
    emits the same counts in the same positions for both, and the same
    map when no two keys have the same count. *)
Theorem process_counts_independent_of_arrival
    (elements1 elements2 : list Tuple2) :
  elements1 ≡ₚ elements2 ->
  (forall key, get (counts elements1) key = get (counts elements2) key) /\
  map getValue (process elements1) = map getValue (process elements2) /\
  (NoDup (map getValue (counts elements1)) ->
   process elements1 = process elements2).
Proof.
  intros Hperm.
  pose proof (counts_Permutation _ _ Hperm) as Hcounts.
  assert (map getValue (process elements1) = map getValue (process elements2))
    as Hvalues.
  { unfold process. rewrite !selectTopK_counts by apply entrySet_counts_NoDup.
    f_equal. symmetry. apply counts_descending_unique.
    - apply StronglySorted_merge_sort; apply _.
    - unfold counts_descending.
      by rewrite merge_sort_Permutation, !entrySet_Permutation, Hcounts. }
  split_and!.
  - intros key. rewrite !counts_get.
    rewrite (weight_sum_Permutation key _ _ Hperm).
    destruct (decide (key ∈ map f0 elements1)) as [Hin|Hnin].
    + rewrite decide_True; [done|]. by rewrite <- Hperm.
    + rewrite decide_False; [done|]. by rewrite <- Hperm.
  - done.
  - intros Hdistinct.
    apply (distinct_counts_determine (counts elements1)); auto.
    + intros e. apply process_subseteq.
    + intros e He. rewrite Hcounts. by apply process_subseteq.
Qed.

Lemma process_counts_independent_of_arrival_witness :
  [("a", 1); ("b", 1); ("a", 1)] ≡ₚ [("a", 1); ("a", 1); ("b", 1)] /\
  process [("a", 1); ("b", 1); ("a", 1)] = process [("a", 1); ("a", 1); ("b", 1)].
Proof.
  assert ([("a", 1); ("b", 1); ("a", 1)] ≡ₚ [("a", 1); ("a", 1); ("b", 1)])
    as Hperm by (constructor; apply Permutation_swap).
  split; [exact Hperm|].
  apply (proj2 (proj2 (process_counts_independent_of_arrival _ _ Hperm))).
  apply (bool_decide_unpack _). vm_compute. exact I.
Defined.

(** ** One turn of the scan *)

(** X5: a turn of the loop of step 2 leaves the queue in heap order; while
    fewer than [k] entries have been scanned it adds the entry to the
    queue, and from then on it replaces the queue by the entry and the
    queue without one entry of the smallest count among them. *)
Theorem heap_turn (k : nat) (entries : list entry) (entry : entry) :
  is_heap (heap k (entries ++ [entry])) /\
  ((length entries < k)%nat ->
   heap k (entries ++ [entry]) ≡ₚ entry :: heap k entries) /\
  ((k <= length entries)%nat ->
   exists dropped,
     entry :: heap k entries ≡ₚ dropped :: heap k (entries ++ [entry]) /\
     length (heap k (entries ++ [entry])) = k /\
     forall kept, kept ∈ heap k (entries ++ [entry]) ->
       getValue dropped <= getValue kept).
Proof.
  destruct (heap_scan k (entries ++ [entry])) as (_ & _ & Hheap' & Hlen' & _).
  destruct (heap_scan k entries) as (_ & _ & Hheap & Hlen & _).
  rewrite length_app in Hlen'. simpl in Hlen'.
  split; [done|]. revert Hheap' Hlen'. rewrite heap_snoc. cbv zeta.
  pose proof (offer_Permutation entry (heap k entries)) as Hoff.
  pose proof (offer_length entry (heap k entries)) as Hofflen.
  pose proof (offer_is_heap entry _ Hheap) as Hoffheap.
  destruct (Nat.ltb_spec k (length (offer entry (heap k entries)))) as [Hk|Hk];
    intros Hheap' Hlen'.
  - split; [lia|]. intros _.
    destruct (lookup_lt_is_Some_2 (offer entry (heap k entries)) 0%nat)
      as [r Hr]; [lia|].
    destruct (poll_Some r _ Hr) as (q' & Hpoll & Hq' & Hq'len).
    rewrite Hpoll in *. cbn [snd] in *.
    exists r. split_and!.
    + by rewrite <- Hoff.
    + lia.
    + intros kept Hkept.
      assert (kept ∈ offer entry (heap k entries)) as Hin
        by (rewrite Hq'; by right).
      apply list_elem_of_lookup in Hin as [i Hi].
      by apply (is_heap_head_min _ _ Hoffheap Hr i).
  - split; [by intros _|]. lia.
Qed.

(* ===================================================================== *)
(** * Proofs: the window machinery *)
(* ===================================================================== *)

Import Windows.

(** ** The assigner *)

Lemma assign_spec t spec start :
  start ∈ assign t spec <->
  (start <= t < start + size spec) /\ start mod slide spec = 0.
Proof.
  unfold assign. rewrite list_elem_of_filter, elem_of_seqZ.
  split.
  - intros [Hmod Hrange]. split; [clear Hmod; lia|done].
  - intros [Hrange Hmod]. split; [done|clear Hmod; lia].
Qed.

Lemma assign_NoDup t spec : NoDup (assign t spec).
Proof. apply NoDup_filter, NoDup_seqZ. Qed.

Lemma filter_none {A} (P : A -> Prop) `{!forall x, Decision (P x)} (l : list A) :
  Forall (fun x => ~ P x) l -> filter P l = [].
Proof.
  induction 1 as [|x l Hx _ IH]; [done|]. by rewrite filter_cons_False.
Qed.

Lemma multiple_unique d m x :
  0 < d -> m mod d = 0 -> x mod d = 0 -> m - d < x < m + d -> x = m.
Proof.
  intros Hd Hm Hx Hrange.
  apply Z.mod_divide in Hx as [q ->], Hm as [q' ->]; try lia.
  assert (q' - 1 < q) by (apply (Z.mul_lt_mono_pos_r d); lia).
  assert (q < q' + 1) by (apply (Z.mul_lt_mono_pos_r d); lia).
  f_equal. lia.
Qed.

(** Among [d] consecutive integers exactly one is a multiple of [d]. *)
Lemma one_multiple_per_block d b :
  0 < d -> length (filter (fun x => x mod d = 0) (seqZ b d)) = 1%nat.
Proof.
  intros Hd. set (m := b + (- b) mod d).
  pose proof (Z.mod_pos_bound (- b) d Hd) as Hr.
  assert (m mod d = 0) as Hm.
  { unfold m. rewrite Zplus_mod_idemp_r.
    replace (b + - b) with 0 by lia. apply Zmod_0_l. }
  assert (b <= m < b + d) as Hbm by (unfold m; lia).
  pose proof (multiple_unique d m) as Huniq.
  clearbody m. clear Hr.
  replace (seqZ b d) with (seqZ b ((m - b) + (1 + (b + d - m - 1))))
    by (f_equal; lia).
  rewrite seqZ_app by lia. rewrite seqZ_app by lia.
  rewrite !filter_app, !length_app.
  replace (b + (m - b)) with m by lia.
  rewrite (filter_none _ (seqZ b _)), (filter_none _ (seqZ (m + 1) _)).
  - change (seqZ m 1) with [m]. by rewrite filter_cons_True.
  - apply Forall_forall. intros x Hx%elem_of_seqZ Hmod.
    specialize (Huniq x Hd Hm Hmod). clear Hm Hmod. lia.
  - apply Forall_forall. intros x Hx%elem_of_seqZ Hmod.
    specialize (Huniq x Hd Hm Hmod). clear Hm Hmod. lia.
Qed.

Lemma multiples_per_blocks d b (n : nat) :
  0 < d ->
  length (filter (fun x => x mod d = 0) (seqZ b (Z.of_nat n * d))) = n.
Proof.
  intros Hd. induction n as [|n IH]; [done|].
  replace (Z.of_nat (S n) * d) with (Z.of_nat n * d + d) by lia.
  rewrite seqZ_app by nia.
  rewrite filter_app, length_app, IH, one_multiple_per_block by done. lia.
Qed.

Lemma assign_length t spec :
  valid spec -> length (assign t spec) = Z.to_nat (size spec / slide spec).
Proof.
  intros (Hslide & Hsize & Hmul). unfold assign.
  apply Z.mod_divide in Hmul as [q Hq]; [|lia].
  assert (0 <= q) by nia.
  rewrite Hq, Z.div_mul by lia.
  rewrite <- (multiples_per_blocks (slide spec) (t - q * slide spec + 1)
                (Z.to_nat q)) by done.
  by rewrite Z2Nat.id.
Qed.

(** ** The store *)

Lemma count_increment w k x store w' k' :
  count w' k' (increment w k x store) =
  if decide (w' = w /\ k' = k) then count w k store + x else count w' k' store.
Proof.
  unfold count at 1, snapshot at 1, increment.
  destruct (decide (w' = w)) as [->|Hw].
  - rewrite lookup_insert_eq. simpl.
    destruct (decide (k' = k)) as [->|Hk].
    + rewrite lookup_insert_eq, decide_True by done. done.
    + rewrite lookup_insert_ne, decide_False by (try done; tauto). done.
  - rewrite lookup_insert_ne, decide_False by (try done; tauto). done.
Qed.

(** Increments for window instances that are not closed reach the store
    and touch nothing else. *)
Lemma guarded_increments_open (ws : list Z) k x st :
  NoDup ws -> (forall w, w ∈ ws -> w ∉ closed st) ->
  let st' := foldr (fun w st => guarded_increment w k x st) st ws in
  closed st' = closed st /\ emitted st' = emitted st /\ late st' = late st /\
  forall w' k', count w' k' (store st') =
    count w' k' (store st) + (if decide (w' ∈ ws /\ k' = k) then x else 0).
Proof.
  induction 1 as [|w ws Hw Hnd IH]; intros Hopen; cbn zeta.
  { split_and!; try done. intros w' k'.
    rewrite decide_False; [simpl; lia|]. intros [Hin _]. by apply elem_of_nil in Hin. }
  cbn [foldr].
  destruct IH as (Hc & He & Hl & Hcount).
  { intros w' Hw'. apply Hopen. by right. }
  set (st' := foldr _ st ws) in *.
  unfold guarded_increment. rewrite decide_False by (rewrite Hc; apply Hopen; left).
  cbn [closed emitted late store]. split_and!; try done.
  intros w' k'. rewrite count_increment, !Hcount.
  destruct (decide (w' = w /\ k' = k)) as [[-> ->]|Hne].
  - rewrite decide_False by tauto. rewrite decide_True by (split; [left|done]). lia.
  - destruct (decide (w' ∈ ws /\ k' = k)) as [[Hin ->]|Hnin].
    + rewrite decide_True by (split; [by right|done]). done.
    + rewrite decide_False; [done|]. rewrite elem_of_cons. intros [[->|?] ->]; tauto.
Qed.

(** Increments for any window instances: the ones for instances that are
    not closed reach the store, the ones for closed instances are dropped
    and counted, and nothing else is touched. *)
Lemma guarded_increments (ws : list Z) k x st :
  NoDup ws ->
  let st' := foldr (fun w st => guarded_increment w k x st) st ws in
  closed st' = closed st /\ emitted st' = emitted st /\
  late st' = (late st + length (filter (fun w => w ∈ closed st) ws))%nat /\
  forall w' k', count w' k' (store st') =
    count w' k' (store st) +
    (if decide (w' ∈ ws /\ (w' ∉ closed st) /\ k' = k) then x else 0).
Proof.
  induction 1 as [|w ws Hw Hnd IH]; cbn zeta.
  { split_and!; try done. intros w' k'.
    rewrite decide_False; [cbn; lia|]. intros [Hin _]. by apply elem_of_nil in Hin. }
  cbn [foldr]. destruct IH as (Hc & He & Hl & Hcount).
  set (st' := foldr _ st ws) in *.
  unfold guarded_increment. rewrite Hc.
  destruct (decide (w ∈ closed st)) as [Hclosed|Hopen];
    cbn [closed emitted late store].
  - split_and!; try done.
    + rewrite filter_cons_True by done. cbn [length]. lia.
    + intros w' k'. rewrite Hcount.
      destruct (decide (w' ∈ ws /\ (w' ∉ closed st) /\ k' = k)) as [(? & ? & ?)|Hn].
      * rewrite decide_True; [done|]. split_and!; [by right|done..].
      * rewrite decide_False; [done|]. rewrite elem_of_cons.
        intros ([->|?] & ? & ?); tauto.
  - split_and!; try done.
    + by rewrite filter_cons_False.
    + intros w' k'. rewrite count_increment, !Hcount.
      destruct (decide (w' = w /\ k' = k)) as [[-> ->]|Hne].
      * rewrite decide_False by tauto.
        rewrite decide_True by (split_and!; [left|done..]). lia.
      * destruct (decide (w' ∈ ws /\ (w' ∉ closed st) /\ k' = k)) as [(? & ? & ->)|Hn].
        -- rewrite decide_True; [done|]. split_and!; [by right|done..].
        -- rewrite decide_False; [done|]. rewrite elem_of_cons.
           intros ([->|?] & ? & ->); tauto.
Qed.

(** The reference configuration of the specification: windows of 60
    seconds sliding by 5 seconds. *)
Definition reference_config : WindowSpec := {| size := 60; slide := 5 |}.

(** One view of [a] at second 7, then the tick of second 10, which closes
    the window instance from -50 to 10. *)
Definition early_history : list Input :=
  [Arrival {| key := "a"; occurredAt := 7; weight := 1 |}; Tick 10].

(** A view of [a] stamped with second 9, which that window instance would
    have covered. *)
Definition late_arrival : list Input :=
  [Arrival {| key := "a"; occurredAt := 9; weight := 1 |}].

(** C2, as stated, fails in the model of the specification: the view of
    [a] stamped with second 9 arrives after the tick of second 10 has
    closed the window instance from -50 to 10, one of the 12 instances
    that cover second 9. The count of that instance does not change (the
    event is dropped there and counted as late), so the event is reflected
    in 11 window instances and not in [size / slide = 12]. *)
Lemma late_event_misses_closed_window :
  valid reference_config /\
  length (assign 9 reference_config) = 12%nat /\
  -50 ∈ assign 9 reference_config /\
  count (-50) "a" (store (run reference_config TopK.K init
                            (early_history ++ late_arrival))) =
    count (-50) "a" (store (run reference_config TopK.K init early_history)) /\
  length (filter
            (fun w =>
               count w "a" (store (run reference_config TopK.K init
                                     (early_history ++ late_arrival))) <>
               count w "a" (store (run reference_config TopK.K init
                                     early_history)))
            (assign 9 reference_config)) = 11%nat.
Proof.
  split_and!.
  - vm_compute. auto.
  - vm_compute. reflexivity.
  - apply (bool_decide_unpack _). vm_compute. exact I.
  - vm_compute. reflexivity.
  - vm_compute. reflexivity.
Qed.

(** C2, amended: under the invariant of the configuration, an event at
    time [t] is assigned to exactly [size / slide] window instances, the
    ones with [start <= t < start + size] and [start mod slide = 0]. Its
    ingestion adds its weight to the count of its key in exactly those of
    them that are not closed and changes no other count; for each of them
    that is closed the event is dropped and the late-event metric goes up
    by one. When the event is not late (every closed window instance ended
    by [t]) it is counted in all [size / slide] of them. *)
Theorem event_counted_in_its_windows (spec : WindowSpec) (e : Event) (st : Scheduler) :
  valid spec ->
  length (assign (occurredAt e) spec) = Z.to_nat (size spec / slide spec) /\
  NoDup (assign (occurredAt e) spec) /\
  (forall start, start ∈ assign (occurredAt e) spec <->
     (start <= occurredAt e < start + size spec) /\ start mod slide spec = 0) /\
  (forall start k,
     count start k (store (ingest spec e st)) =
     count start k (store st) +
     (if decide (start ∈ assign (occurredAt e) spec /\ (start ∉ closed st) /\
                 k = key e)
      then weight e else 0)) /\
  late (ingest spec e st) =
    (late st +
     length (filter (fun w => w ∈ closed st) (assign (occurredAt e) spec)))%nat /\
  ((forall w, w ∈ closed st -> w + size spec <= occurredAt e) ->
   forall start k,
     count start k (store (ingest spec e st)) =
     count start k (store st) +
     (if decide (start ∈ assign (occurredAt e) spec /\ k = key e)
      then weight e else 0)).
Proof.
  intros Hvalid.
  destruct (guarded_increments (assign (occurredAt e) spec) (key e) (weight e) st
              (assign_NoDup _ _)) as (_ & _ & Hlate & Hcount).
  split_and!.
  - by apply assign_length.
  - apply assign_NoDup.
  - intros start. apply assign_spec.
  - exact Hcount.
  - exact Hlate.
  - intros Hnotlate start k. unfold ingest.
    apply (guarded_increments_open (assign (occurredAt e) spec)).
    + apply assign_NoDup.
    + intros w Hw Hclosed. apply assign_spec in Hw as [Hrange _].
      specialize (Hnotlate w Hclosed). lia.
Qed.

Lemma event_counted_in_its_windows_witness :
  valid reference_config /\
  length (assign 1003 reference_config) = 12%nat /\
  count 950 "a"
    (store (ingest reference_config
              {| key := "a"; occurredAt := 1003; weight := 1 |} init)) = 1.
Proof.
  assert (valid reference_config) as Hvalid by (vm_compute; auto).
  pose proof (event_counted_in_its_windows reference_config
                {| key := "a"; occurredAt := 1003; weight := 1 |} init
                Hvalid) as (Hlen & _ & _ & Hcount & _).
  split_and!; [exact Hvalid|exact Hlen|].
  rewrite Hcount. vm_compute. reflexivity.
Defined.

(** ** The scheduler *)

(** What holds of the aggregator at any time: a closed window instance
    holds no state, and a window instance has one snapshot emitted if it
    is closed and none otherwise. *)
Definition consistent (st : Scheduler) : Prop :=
  (forall w, w ∈ closed st -> store st !! w = None) /\
  (forall w, length (emitted_for w st) = if decide (w ∈ closed st) then 1%nat else 0%nat).

Lemma consistent_init : consistent init.
Proof.
  split; [intros w Hw; by apply not_elem_of_empty in Hw|].
  intros w. rewrite decide_False; [done|apply not_elem_of_empty].
Qed.

Lemma guarded_increment_closed w k x st :
  w ∈ closed st ->
  guarded_increment w k x st =
  {| store := store st; closed := closed st; emitted := emitted st;
     late := S (late st) |}.
Proof. intros Hw. unfold guarded_increment. by rewrite decide_True. Qed.

Lemma guarded_increment_frame w k x st :
  closed (guarded_increment w k x st) = closed st /\
  emitted (guarded_increment w k x st) = emitted st /\
  (forall w', w' ∈ closed st -> store st !! w' = None ->
     store (guarded_increment w k x st) !! w' = None).
Proof.
  unfold guarded_increment. destruct (decide (w ∈ closed st)) as [Hw|Hw];
    cbn [closed emitted store]; split_and!; try done.
  intros w' Hw' Hnone. unfold increment. rewrite lookup_insert_ne; [done|].
  by intros ->.
Qed.

Lemma guarded_increment_consistent w k x st :
  consistent st -> consistent (guarded_increment w k x st).
Proof.
  intros [Hstate Hone].
  destruct (guarded_increment_frame w k x st) as (Hc & He & Hs).
  split.
  - intros w'. rewrite Hc. intros Hw'. by apply Hs, Hstate.
  - intros w'. unfold emitted_for. rewrite He, Hc. apply Hone.
Qed.

Lemma ingest_frame spec e st :
  consistent st ->
  consistent (ingest spec e st) /\
  closed (ingest spec e st) = closed st /\
  emitted (ingest spec e st) = emitted st.
Proof.
  intros Hst. unfold ingest.
  induction (assign (occurredAt e) spec) as [|w ws IH]; [done|].
  cbn [foldr]. destruct IH as (Hcons & Hc & He).
  destruct (guarded_increment_frame w (key e) (weight e)
              (foldr (fun w st => guarded_increment w (key e) (weight e) st) st ws))
    as (Hc' & He' & _).
  split_and!.
  - by apply guarded_increment_consistent.
  - by rewrite Hc'.
  - by rewrite He'.
Qed.

Lemma emitted_for_close spec k w' st w :
  emitted_for w (close spec k w' st) =
  emitted_for w st ++
  (if decide (w' = w)
   then [{| windowStart := w'; windowEnd := w' + size spec;
            entries := TopK.selectTopK_reference k
                         (map_to_list (snapshot w' (store st))) |}]
   else []).
Proof.
  unfold emitted_for, close. cbn [emitted].
  rewrite filter_app, filter_cons, filter_nil. cbn [windowStart].
  by destruct (decide (w' = w)).
Qed.

(** Closing window instances that are open, one after the other. *)
Lemma close_all_consistent spec k (ws : list Z) st :
  consistent st -> NoDup ws -> (forall w, w ∈ ws -> w ∉ closed st) ->
  let st' := foldr (close spec k) st ws in
  consistent st' /\
  (forall w, w ∈ closed st' <-> w ∈ ws \/ w ∈ closed st) /\
  (forall w, w ∈ closed st -> emitted_for w st' = emitted_for w st).
Proof.
  intros Hst. induction 1 as [|w' ws Hw' Hnd IH]; intros Hopen; cbn zeta.
  { split_and!; try done. intros w. rewrite elem_of_nil. tauto. }
  cbn [foldr]. destruct IH as ([Hstate Hone] & Hclosed & Hkept).
  { intros w Hw. apply Hopen. by right. }
  set (st' := foldr (close spec k) st ws) in *.
  assert (w' ∉ closed st') as Hw'open.
  { rewrite Hclosed. intros [?|Hc]; [done|]. apply (Hopen w'); [left|done]. }
  split_and!.
  - split.
    + intros w. cbn [close closed store]. unfold evict.
      rewrite elem_of_union, elem_of_singleton. intros [->|Hw].
      * apply lookup_delete_eq.
      * rewrite lookup_delete_ne; [by apply Hstate|]. by intros ->.
    + intros w. rewrite emitted_for_close, length_app, Hone.
      cbn [close closed].
      destruct (decide (w' = w)) as [->|Hne].
      * rewrite decide_False by done.
        rewrite decide_True by (apply elem_of_union; left; by apply elem_of_singleton).
        done.
      * simpl. rewrite Nat.add_0_r.
        destruct (decide (w ∈ closed st')) as [Hw|Hw].
        -- rewrite decide_True; [done|]. apply elem_of_union. by right.
        -- rewrite decide_False; [done|].
           rewrite elem_of_union, elem_of_singleton. intros [?|?]; congruence.
  - intros w. cbn [close closed].
    rewrite elem_of_union, elem_of_singleton, Hclosed, elem_of_cons. tauto.
  - intros w Hw. rewrite emitted_for_close, decide_False.
    + rewrite app_nil_r. by apply Hkept.
    + intros ->. apply (Hopen w); [left|done].
Qed.

Lemma tick_frame spec k now st :
  consistent st ->
  consistent (tick spec k now st) /\
  (forall w, w ∈ closed st -> w ∈ closed (tick spec k now st)) /\
  (forall w, w ∈ closed st ->
     emitted_for w (tick spec k now st) = emitted_for w st).
Proof.
  intros Hst. unfold tick.
  destruct (close_all_consistent spec k
              (filter (fun w => w + size spec <= now) (elements (dom (store st))))
              st Hst) as (Hcons & Hclosed & Hkept).
  - apply NoDup_filter, NoDup_elements.
  - intros w Hw Hc. apply list_elem_of_filter in Hw as [_ Hw].
    apply elem_of_elements, elem_of_dom in Hw as [m Hm].
    destruct Hst as [Hstate _]. rewrite (Hstate w Hc) in Hm. done.
  - split_and!; [done| |done]. intros w Hw. apply Hclosed. by right.
Qed.

Lemma step_frame spec k st i :
  consistent st ->
  consistent (step spec k st i) /\
  (forall w, w ∈ closed st -> w ∈ closed (step spec k st i)) /\
  (forall w, w ∈ closed st -> emitted_for w (step spec k st i) = emitted_for w st).
Proof.
  intros Hst. destruct i as [e|now]; cbn [step].
  - destruct (ingest_frame spec e st Hst) as (Hcons & Hc & He).
    split_and!; [done|by rewrite Hc|]. intros w _. unfold emitted_for. by rewrite He.
  - by apply tick_frame.
Qed.

Lemma run_frame spec k inputs st :
  consistent st ->
  consistent (run spec k st inputs) /\
  (forall w, w ∈ closed st -> w ∈ closed (run spec k st inputs)) /\
  (forall w, w ∈ closed st ->
     emitted_for w (run spec k st inputs) = emitted_for w st).
Proof.
  revert st. induction inputs as [|i inputs IH]; intros st Hst; [done|].
  cbn [run fold_left].
  destruct (step_frame spec k st i Hst) as (Hcons & Hc & He).
  destruct (IH _ Hcons) as (Hcons' & Hc' & He').
  split_and!; [done|auto|]. intros w Hw.
  unfold run in He'. rewrite He' by auto. by apply He.
Qed.

Lemma run_app spec k st inputs1 inputs2 :
  run spec k st (inputs1 ++ inputs2) = run spec k (run spec k st inputs1) inputs2.
Proof. unfold run. apply fold_left_app. Qed.

(** C6: once a window instance is closed, its snapshot has been emitted,
    exactly once, and its state evicted; whatever events and ticks follow,
    the snapshots emitted for it stay the same and it stays closed and
    without state; an increment for it returns the aggregator with the
    late-event metric one higher and the store, the closed instances and
    the emitted snapshots as they were. *)
Theorem closed_window_snapshot_final
    (spec : WindowSpec) (k : nat) (history later : list Input) (w : Z) :
  w ∈ closed (run spec k init history) ->
  length (emitted_for w (run spec k init history)) = 1%nat /\
  store (run spec k init history) !! w = None /\
  emitted_for w (run spec k init (history ++ later)) =
    emitted_for w (run spec k init history) /\
  w ∈ closed (run spec k init (history ++ later)) /\
  store (run spec k init (history ++ later)) !! w = None /\
  (forall key weight,
     guarded_increment w key weight (run spec k init history) =
     {| store := store (run spec k init history);
        closed := closed (run spec k init history);
        emitted := emitted (run spec k init history);
        late := S (late (run spec k init history)) |}).
Proof.
  intros Hw.
  destruct (run_frame spec k history init consistent_init) as ([Hstate Hone] & _ & _).
  destruct (run_frame spec k later (run spec k init history) (conj Hstate Hone))
    as ([Hstate' _] & Hc & He).
  rewrite run_app. split_and!.
  - by rewrite Hone, decide_True.
  - by apply Hstate.
  - by apply He.
  - by apply Hc.
  - by apply Hstate', Hc.
  - intros key weight. by apply guarded_increment_closed.
Qed.

Lemma closed_window_snapshot_final_witness :
  -50 ∈ closed (run reference_config TopK.K init early_history) /\
  emitted_for (-50) (run reference_config TopK.K init (early_history ++ late_arrival)) =
    [{| windowStart := -50; windowEnd := 10; entries := [("a", 1)] |}] /\
  late (run reference_config TopK.K init (early_history ++ late_arrival)) = 1%nat.
Proof.
  assert (-50 ∈ closed (run reference_config TopK.K init early_history)) as Hclosed
    by (apply (bool_decide_unpack _); vm_compute; exact I).
  pose proof (closed_window_snapshot_final reference_config TopK.K
                early_history late_arrival (-50) Hclosed) as (_ & _ & Hsame & _).
  split_and!; [exact Hclosed| |vm_compute; reflexivity].
  rewrite Hsame. vm_compute. reflexivity.
Defined.

(* ===================================================================== *)
(** * Proofs: the URL shortener *)
(* ===================================================================== *)

Import UrlShortener.

Local Open Scope nat_scope.

(** A character of [[A-Za-z0-9]]. *)
Definition alphanumeric (c : Ascii.ascii) : bool :=
  let n := Ascii.nat_of_ascii c in
  ((65 <=? n) && (n <=? 90)) || ((97 <=? n) && (n <=? 122)) ||
  ((48 <=? n) && (n <=? 57)).

Fixpoint all_alphanumeric (s : string) : bool :=
  match s with
  | EmptyString => true
  | String c s' => alphanumeric c && all_alphanumeric s'
  end.

(** The string that the [n]-th turn of the loop of the POST handler
    generates, counting from 0. *)
Definition candidate (srv : Server) (n : nat) : string :=
  fst (generateShortUrl (draws srv) (drawn srv + 6 * n)).

Lemma charAt_chars i :
  i < 62 -> exists c, charAt chars i = String c "" /\ alphanumeric c = true.
Proof.
  intros Hi.
  assert (forallb (fun i => match String.get i chars with
                            | Some c => alphanumeric c
                            | None => false
                            end) (seq 0 62) = true) as Hall
    by (vm_compute; reflexivity).
  rewrite forallb_forall in Hall.
  specialize (Hall i). unfold charAt.
  destruct (String.get i chars) as [c|].
  - exists c. split; [done|]. apply Hall, in_seq. lia.
  - enough (false = true) by done. apply Hall, in_seq. lia.
Qed.

Lemma all_alphanumeric_append s t :
  all_alphanumeric (s ++ t)%string = all_alphanumeric s && all_alphanumeric t.
Proof.
  induction s as [|c s IH]; simpl; [done|]. rewrite IH. by rewrite andb_assoc.
Qed.

Lemma length_append s t :
  String.length (s ++ t)%string = String.length s + String.length t.
Proof. induction s as [|c s IH]; simpl; [done|]. by rewrite IH. Qed.

Lemma generate_loop_spec n shortUrl draws drawn :
  (forall i, draws i < 62) ->
  String.length (fst (generate_loop n shortUrl draws drawn)) =
    String.length shortUrl + n /\
  all_alphanumeric (fst (generate_loop n shortUrl draws drawn)) =
    all_alphanumeric shortUrl /\
  snd (generate_loop n shortUrl draws drawn) = drawn + n.
Proof.
  intros Hdraws. revert shortUrl drawn.
  induction n as [|n IH]; intros shortUrl drawn; simpl.
  { split_and!; [lia|done|lia]. }
  destruct (IH (shortUrl ++ charAt chars (draws drawn))%string (S drawn))
    as (Hlen & Hall & Hdrawn).
  destruct (charAt_chars (draws drawn) (Hdraws drawn)) as (c & Hc & Halpha).
  rewrite Hc in *. split_and!.
  - rewrite Hlen, length_append. simpl. lia.
  - rewrite Hall, all_alphanumeric_append. simpl. rewrite Halpha.
    by rewrite andb_true_r.
  - lia.
Qed.

Lemma generateShortUrl_spec draws drawn :
  (forall i, draws i < 62) ->
  String.length (fst (generateShortUrl draws drawn)) = 6 /\
  all_alphanumeric (fst (generateShortUrl draws drawn)) = true /\
  snd (generateShortUrl draws drawn) = drawn + 6.
Proof. intros Hdraws. by apply (generate_loop_spec 6 ""). Qed.

(** The loop returns the first generated string that is not a key of the
    map, once its turn is within the fuel. *)
Lemma unique_loop_first fuel urlMap draws drawn n :
  (forall i, draws i < 62) ->
  urlMap !! fst (generateShortUrl draws (drawn + 6 * n)) = None ->
  (forall m, m < n ->
     is_Some (urlMap !! fst (generateShortUrl draws (drawn + 6 * m)))) ->
  n < fuel ->
  unique_loop fuel urlMap draws drawn =
  Some (fst (generateShortUrl draws (drawn + 6 * n)), drawn + 6 * n + 6).
Proof.
  intros Hdraws. revert drawn n.
  induction fuel as [|fuel IH]; intros drawn n Hfree Htaken Hfuel; [lia|].
  cbn [unique_loop].
  destruct (generateShortUrl_spec draws drawn Hdraws) as (_ & _ & Hnext).
  destruct (generateShortUrl draws drawn) as [shortUrl drawn'] eqn:Hgen.
  cbn [snd] in Hnext. subst drawn'.
  destruct n as [|n].
  - rewrite Nat.mul_0_r, Nat.add_0_r, Hgen in Hfree. cbn [fst] in Hfree.
    rewrite decide_False by (rewrite Hfree; by intros [? ?]).
    by rewrite Nat.mul_0_r, !Nat.add_0_r, Hgen.
  - pose proof (Htaken 0 ltac:(lia)) as Hfirst.
    rewrite Nat.mul_0_r, Nat.add_0_r, Hgen in Hfirst. cbn [fst] in Hfirst.
    rewrite decide_True by done.
    replace (drawn + 6 * S n) with (drawn + 6 + 6 * n) in * by lia.
    apply IH; [done| |lia].
    intros m Hm. specialize (Htaken (S m) ltac:(lia)).
    by replace (drawn + 6 * S m) with (drawn + 6 + 6 * m) in Htaken by lia.
Qed.

(** If some turn generates a free string, there is a first such turn. *)
Lemma first_free_turn (P : nat -> Prop) `{!forall n, Decision (P n)} n :
  P n -> exists n0, P n0 /\ forall m, m < n0 -> ~ P m.
Proof.
  intros Hn.
  assert (forall k, (forall m, m < k -> ~ P m) \/
                    (exists n0, P n0 /\ forall m, m < n0 -> ~ P m)) as Hscan.
  { induction k as [|k [Hnone|Hfound]].
    - left. intros m Hm. lia.
    - destruct (decide (P k)) as [Hk|Hk].
      + right. by exists k.
      + left. intros m Hm. destruct (decide (m = k)) as [->|?]; [done|].
        apply Hnone. lia.
    - by right. }
  destruct (Hscan n) as [Hnone|Hfound]; [by exists n|done].
Qed.

(** A server with an empty map whose random source yields 0, 7, 14, ... *)
Definition fresh_server : Server :=
  {| urlMap := ∅; draws := fun i => i * 7 mod 62; drawn := 0 |}.

(** C8: with [Math.random] in its range, a POST whose [longUrl] is truthy
    (any non-empty string is) answers, as soon as a turn of its loop
    generates a string that is not a key of the map, with a [shortUrl] of 6
    characters over [[A-Za-z0-9]] that was not a key of the map, and leaves
    the map with that key added for the submitted [longUrl], so that a GET
    of it redirects there; a POST whose [longUrl] is missing or falsy
    answers with status 400 and leaves the server as it was. *)
Theorem post_shorten_spec (body : gmap string JSValue) (srv : Server) :
  (forall i, draws srv i < 62) ->
  (truthy (default JUndefined (body !! "longUrl")) = false ->
   forall fuel,
     post_shorten fuel body srv =
     Some (Json 400 [("error", JString "Long URL is required")], srv)) /\
  (truthy (default JUndefined (body !! "longUrl")) = true ->
   (exists n, urlMap srv !! candidate srv n = None) ->
   exists turns shortUrl srv',
     (forall fuel, turns <= fuel ->
        post_shorten fuel body srv =
        Some (Json 200 [("shortUrl", JString shortUrl);
                        ("longUrl", default JUndefined (body !! "longUrl"))],
              srv')) /\
     String.length shortUrl = 6 /\
     all_alphanumeric shortUrl = true /\
     urlMap srv !! shortUrl = None /\
     urlMap srv' =
       <[shortUrl := default JUndefined (body !! "longUrl")]> (urlMap srv) /\
     get_url shortUrl srv' = Redirect (default JUndefined (body !! "longUrl"))).
Proof.
  intros Hdraws. split.
  - intros Hfalsy fuel. unfold post_shorten. by rewrite Hfalsy.
  - set (longUrl := default JUndefined (body !! "longUrl")).
    intros Htruthy [n Hn].
    destruct (first_free_turn (fun n => urlMap srv !! candidate srv n = None) n Hn)
      as (n0 & Hfree & Htaken).
    destruct (generateShortUrl_spec (draws srv) (drawn srv + 6 * n0) Hdraws)
      as (Hlen & Halpha & _).
    exists (S n0), (candidate srv n0).
    eexists. split_and!.
    + intros fuel Hfuel. unfold post_shorten. fold longUrl. rewrite Htruthy.
      cbn [negb].
      rewrite (unique_loop_first fuel _ _ _ n0); [reflexivity|exact Hdraws|exact Hfree| |lia].
      intros m Hm. specialize (Htaken m Hm). unfold candidate in Htaken.
      by apply not_eq_None_Some.
    + done.
    + done.
    + done.
    + done.
    + unfold get_url. cbn [urlMap]. rewrite lookup_insert_eq.
      cbn [default from_option id]. by rewrite Htruthy.
Qed.

Lemma post_shorten_spec_witness :
  (forall i, draws fresh_server i < 62) /\
  exists turns shortUrl srv',
    post_shorten turns {["longUrl" := JString "https://example.com"]} fresh_server =
      Some (Json 200 [("shortUrl", JString shortUrl);
                      ("longUrl", JString "https://example.com")], srv') /\
    String.length shortUrl = 6 /\
    get_url shortUrl srv' = Redirect (JString "https://example.com").
Proof.
  assert (forall i, draws fresh_server i < 62) as Hdraws
    by (intros i; simpl; lia).
  split; [exact Hdraws|].
  destruct (proj2 (post_shorten_spec
                     {["longUrl" := JString "https://example.com"]}
                     fresh_server Hdraws))
    as (turns & shortUrl & srv' & Hpost & Hlen & _ & _ & _ & Hget).
  - vm_compute. reflexivity.
  - exists 0. vm_compute. reflexivity.
  - exists turns, shortUrl, srv'. split_and!; [|exact Hlen|exact Hget].
    apply Hpost. lia.
Defined.

(* ===================================================================== *)
(** * Further properties of the URL shortener *)
(* ===================================================================== *)

(** The short URL that a response of the POST handler hands out. *)
Definition issued (res : Response) : option string :=
  match res with
  | Json 200 (("shortUrl", JString shortUrl) :: _) => Some shortUrl
  | _ => None
  end.

(** What the loop of the POST handler returns is not a key of the map. *)
Lemma unique_loop_Some fuel (m : gmap string JSValue) draws drawn shortUrl drawn' :
  unique_loop fuel m draws drawn = Some (shortUrl, drawn') ->
  m !! shortUrl = None /\
  exists drawn0, shortUrl = fst (generateShortUrl draws drawn0).
Proof.
  revert drawn. induction fuel as [|fuel IH]; intros drawn; [done|].
  cbn [unique_loop].
  destruct (generateShortUrl draws drawn) as [s d] eqn:Hgen.
  destruct (decide (is_Some (m !! s))) as [Htaken|Hfree].
  - apply IH.
  - intros [= <- <-]. split.
    + by apply eq_None_not_Some.
    + exists drawn. by rewrite Hgen.
Qed.

(** A POST either answers 400 and leaves the server as it is, or answers
    200 with a new key put in the map for its [longUrl]. *)
Lemma post_shorten_cases fuel body srv res srv' :
  post_shorten fuel body srv = Some (res, srv') ->
  (res = Json 400 [("error", JString "Long URL is required")] /\ srv' = srv) \/
  (exists shortUrl drawn0,
     res = Json 200 [("shortUrl", JString shortUrl);
                     ("longUrl", default JUndefined (body !! "longUrl"))] /\
     truthy (default JUndefined (body !! "longUrl")) = true /\
     shortUrl = fst (generateShortUrl (draws srv) drawn0) /\
     urlMap srv !! shortUrl = None /\
     urlMap srv' =
       <[shortUrl := default JUndefined (body !! "longUrl")]> (urlMap srv) /\
     draws srv' = draws srv).
Proof.
  unfold post_shorten.
  destruct (truthy (default JUndefined (body !! "longUrl"))) eqn:Htruthy;
    cbn [negb].
  - destruct (unique_loop fuel (urlMap srv) (draws srv) (drawn srv))
      as [[shortUrl drawn']|] eqn:Hloop; [|done].
    intros [= <- <-]. right.
    destruct (unique_loop_Some _ _ _ _ _ _ Hloop) as (Hfree & drawn0 & Hgen).
    exists shortUrl, drawn0. by split_and!.
  - intros [= <- <-]. by left.
Qed.

(** What holds of the server at any time: every key of the map is a string
    of 6 characters over [[A-Za-z0-9]] and is mapped to a truthy value. *)
Definition keys_well_formed (srv : Server) : Prop :=
  forall shortUrl longUrl,
    urlMap srv !! shortUrl = Some longUrl ->
    String.length shortUrl = 6 /\ all_alphanumeric shortUrl = true /\
    truthy longUrl = true.

Lemma serve_keys_well_formed fuel req srv res srv' :
  (forall i, draws srv i < 62) -> keys_well_formed srv ->
  serve fuel req srv = Some (res, srv') ->
  keys_well_formed srv' /\ draws srv' = draws srv.
Proof.
  intros Hdraws Hwf. destruct req as [body|shortUrl]; cbn [serve].
  - intros Hpost. apply post_shorten_cases in Hpost
      as [[_ ->]|(s & drawn0 & _ & Htruthy & Hgen & _ & Hmap & Hsame)]; [done|].
    split; [|done]. intros s' v'. rewrite Hmap.
    destruct (decide (s' = s)) as [->|Hne].
    + rewrite lookup_insert_eq. intros [= <-].
      destruct (generateShortUrl_spec (draws srv) drawn0 Hdraws) as (Hlen & Halpha & _).
      by rewrite Hgen.
    + rewrite lookup_insert_ne by done. apply Hwf.
  - by intros [= <- <-].
Qed.

Lemma serve_all_keys_well_formed fuel reqs srv ress srv' :
  (forall i, draws srv i < 62) -> keys_well_formed srv ->
  serve_all fuel reqs srv = Some (ress, srv') -> keys_well_formed srv'.
Proof.
  revert srv ress. induction reqs as [|req reqs IH]; intros srv ress Hdraws Hwf;
    cbn [serve_all].
  { by intros [= <- <-]. }
  destruct (serve fuel req srv) as [[res srv1]|] eqn:Hserve; [|done].
  destruct (serve_all fuel reqs srv1) as [[ress' srv2]|] eqn:Hall; [|done].
  intros [= <- <-].
  destruct (serve_keys_well_formed _ _ _ _ _ Hdraws Hwf Hserve) as [Hwf1 Hsame].
  apply (IH srv1 ress'); [|done|done]. by rewrite Hsame.
Qed.

(** X6: on a server that has answered any requests since its start, with
    [Math.random] in its range, a GET of a key of the map redirects to the
    value stored for it, and every such key has 6 characters over
    [[A-Za-z0-9]]; a GET of any other string answers 404. *)
Theorem get_url_redirects_exactly_the_keys
    (fuel : nat) (draws : nat -> nat) (reqs : list Request)
    (ress : list Response) (srv : Server) (shortUrl : string) :
  (forall i, draws i < 62) ->
  serve_all fuel reqs (start draws) = Some (ress, srv) ->
  match urlMap srv !! shortUrl with
  | Some longUrl =>
      get_url shortUrl srv = Redirect longUrl /\
      String.length shortUrl = 6 /\ all_alphanumeric shortUrl = true
  | None =>
      get_url shortUrl srv = Json 404 [("error", JString "Short URL not found")]
  end.
Proof.
  intros Hdraws Hrun.
  assert (keys_well_formed srv) as Hwf.
  { apply (serve_all_keys_well_formed fuel reqs (start draws) ress); [done| |done].
    intros s v Hs. cbn [start urlMap] in Hs. by rewrite lookup_empty in Hs. }
  unfold get_url. destruct (urlMap srv !! shortUrl) as [longUrl|] eqn:Hlook.
  - destruct (Hwf _ _ Hlook) as (Hlen & Halpha & Htruthy).
    cbn [default from_option id]. by rewrite Htruthy.
  - done.
Qed.

(** A body with a long URL, and the requests that shorten it and then
    follow the short URL it is answered with. *)
Definition example_body : gmap string JSValue :=
  {["longUrl" := JString "https://example.com"]}.

Definition shorten_then_follow : list Request :=
  [POST_shorten example_body; GET_url "AHOVcj"].

Lemma get_url_redirects_exactly_the_keys_witness :
  (forall i, draws fresh_server i < 62) /\
  exists ress srv,
    serve_all 1 shorten_then_follow (start (draws fresh_server)) = Some (ress, srv) /\
    get_url "AHOVcj" srv = Redirect (JString "https://example.com") /\
    get_url "nosuch" srv = Json 404 [("error", JString "Short URL not found")].
Proof.
  assert (forall i, draws fresh_server i < 62) as Hdraws
    by (intros i; simpl; lia).
  split; [exact Hdraws|].
  destruct (serve_all 1 shorten_then_follow (start (draws fresh_server)))
    as [[ress srv]|] eqn:Hrun; [|vm_compute in Hrun; discriminate].
  pose proof (get_url_redirects_exactly_the_keys 1 _ _ _ _ "AHOVcj" Hdraws Hrun)
    as Hkey.
  pose proof (get_url_redirects_exactly_the_keys 1 _ _ _ _ "nosuch" Hdraws Hrun)
    as Hother.
  exists ress, srv. split; [done|].
  vm_compute in Hrun. injection Hrun as <- <-.
  split; [exact (proj1 Hkey)|exact Hother].
Defined.

(** ** The short URLs that are handed out *)

Lemma serve_issued fuel req srv res srv' :
  serve fuel req srv = Some (res, srv') ->
  match issued res with
  | Some shortUrl =>
      urlMap srv !! shortUrl = None /\
      exists longUrl, urlMap srv' = <[shortUrl := longUrl]> (urlMap srv)
  | None => urlMap srv' = urlMap srv
  end.
Proof.
  destruct req as [body|shortUrl]; cbn [serve].
  - intros Hpost. apply post_shorten_cases in Hpost
      as [[-> ->]|(s & drawn0 & -> & _ & _ & Hfree & Hmap & _)]; [done|].
    cbn [issued]. split; [done|]. by eexists.
  - intros [= <- <-]. unfold get_url.
    by destruct (negb (truthy (default JUndefined (urlMap srv !! shortUrl)))).
Qed.

Lemma serve_all_issued fuel reqs srv ress srv' :
  serve_all fuel reqs srv = Some (ress, srv') ->
  NoDup (omap issued ress) /\
  (forall shortUrl, shortUrl ∈ omap issued ress -> urlMap srv !! shortUrl = None) /\
  (forall shortUrl,
     is_Some (urlMap srv' !! shortUrl) <->
     is_Some (urlMap srv !! shortUrl) \/ shortUrl ∈ omap issued ress) /\
  base.size (urlMap srv') = base.size (urlMap srv) + length (omap issued ress).
Proof.
  revert srv ress. induction reqs as [|req reqs IH]; intros srv ress;
    cbn [serve_all].
  { intros [= <- <-]. cbn [omap list_omap length]. split_and!.
    - constructor.
    - intros s Hs. by apply elem_of_nil in Hs.
    - intros s. rewrite elem_of_nil. tauto.
    - lia. }
  destruct (serve fuel req srv) as [[res srv1]|] eqn:Hserve; [|done].
  destruct (serve_all fuel reqs srv1) as [[ress' srv2]|] eqn:Hall; [|done].
  intros [= <- <-].
  destruct (IH _ _ Hall) as (Hnd & Hfresh & Hkeys & Hsize).
  apply serve_issued in Hserve. cbn [omap list_omap].
  destruct (issued res) as [s|].
  - destruct Hserve as (Hfree & longUrl & Hmap). split_and!.
    + constructor; [|done]. intros Hin. specialize (Hfresh s Hin).
      by rewrite Hmap, lookup_insert_eq in Hfresh.
    + intros s' Hs'. apply elem_of_cons in Hs' as [->|Hs']; [done|].
      specialize (Hfresh s' Hs'). rewrite Hmap in Hfresh.
      destruct (decide (s' = s)) as [->|Hne].
      * by rewrite lookup_insert_eq in Hfresh.
      * by rewrite lookup_insert_ne in Hfresh.
    + intros s'. rewrite Hkeys, Hmap, elem_of_cons.
      destruct (decide (s' = s)) as [->|Hne].
      * rewrite lookup_insert_eq. split; [intros _; right; by left|].
        intros _. left. by eexists.
      * rewrite lookup_insert_ne by done. split; [tauto|].
        intros [?|[?|?]]; [tauto|done|tauto].
    + rewrite Hsize, Hmap, map_size_insert_None by done. cbn [length]. lia.
  - rewrite Hserve in *. by split_and!.
Qed.

(** X7: the short URLs handed out since the start of the server are
    pairwise different, also for equal long URLs, and they are exactly the
    keys of the map, which holds one entry for each. *)
Theorem issued_short_urls_are_distinct
    (fuel : nat) (draws : nat -> nat) (reqs : list Request)
    (ress : list Response) (srv : Server) :
  serve_all fuel reqs (start draws) = Some (ress, srv) ->
  NoDup (omap issued ress) /\
  (forall shortUrl,
     shortUrl ∈ omap issued ress <-> is_Some (urlMap srv !! shortUrl)) /\
  base.size (urlMap srv) = length (omap issued ress).
Proof.
  intros Hrun.
  destruct (serve_all_issued _ _ _ _ _ Hrun) as (Hnd & _ & Hkeys & Hsize).
  cbn [start urlMap] in Hkeys, Hsize. split_and!.
  - done.
  - intros s. rewrite Hkeys, lookup_empty. split; [tauto|].
    intros [[? [=]]|?]; done.
  - by rewrite Hsize, map_size_empty.
Qed.

(** The same long URL shortened twice. *)
Definition shorten_twice : list Request :=
  [POST_shorten example_body; POST_shorten example_body].

Lemma issued_short_urls_are_distinct_witness :
  exists ress srv,
    serve_all 1 shorten_twice (start (draws fresh_server)) = Some (ress, srv) /\
    omap issued ress = ["AHOVcj"; "qx4BIP"] /\
    NoDup (omap issued ress).
Proof.
  destruct (serve_all 1 shorten_twice (start (draws fresh_server)))
    as [[ress srv]|] eqn:Hrun; [|vm_compute in Hrun; discriminate].
  pose proof (issued_short_urls_are_distinct 1 _ _ _ _ Hrun) as (Hnd & _).
  exists ress, srv. split_and!; [done| |exact Hnd].
  vm_compute in Hrun. injection Hrun as <- <-. vm_compute. reflexivity.
Defined.

(** ** A short URL stays valid *)

Lemma serve_keeps_mappings fuel req srv res srv' shortUrl longUrl :
  serve fuel req srv = Some (res, srv') ->
  urlMap srv !! shortUrl = Some longUrl -> urlMap srv' !! shortUrl = Some longUrl.
Proof.
  intros Hserve Hlook. apply serve_issued in Hserve.
  destruct (issued res) as [s|]; [|by rewrite Hserve].
  destruct Hserve as (Hfree & v & ->).
  rewrite lookup_insert_ne; [done|]. intros ->. congruence.
Qed.

Lemma serve_all_keeps_mappings fuel reqs srv ress srv' shortUrl longUrl :
  serve_all fuel reqs srv = Some (ress, srv') ->
  urlMap srv !! shortUrl = Some longUrl -> urlMap srv' !! shortUrl = Some longUrl.
Proof.
  revert srv ress. induction reqs as [|req reqs IH]; intros srv ress;
    cbn [serve_all].
  { by intros [= <- <-]. }
  destruct (serve fuel req srv) as [[res srv1]|] eqn:Hserve; [|done].
  destruct (serve_all fuel reqs srv1) as [[ress' srv2]|] eqn:Hall; [|done].
  intros [= <- <-] Hlook. eapply IH; [done|].
  by eapply serve_keeps_mappings.
Qed.

(** X8: a short URL that a POST has handed out keeps redirecting to the
    long URL of that POST whatever requests the server answers afterwards:
    no request overwrites or removes an entry of the map. *)
Theorem issued_short_url_stays_valid
    (fuel fuel' : nat) (body : gmap string JSValue) (srv srv1 srv2 : Server)
    (res : Response) (shortUrl : string) (reqs : list Request)
    (ress : list Response) :
  post_shorten fuel body srv = Some (res, srv1) ->
  issued res = Some shortUrl ->
  serve_all fuel' reqs srv1 = Some (ress, srv2) ->
  get_url shortUrl srv2 = Redirect (default JUndefined (body !! "longUrl")).
Proof.
  intros Hpost Hissued Hrun.
  apply post_shorten_cases in Hpost
    as [[-> _]|(s & drawn0 & -> & Htruthy & _ & _ & Hmap & _)]; [done|].
  injection Hissued as ->.
  assert (urlMap srv2 !! shortUrl = Some (default JUndefined (body !! "longUrl")))
    as Hlook.
  { eapply serve_all_keeps_mappings; [done|]. by rewrite Hmap, lookup_insert_eq. }
  unfold get_url. rewrite Hlook. cbn [default from_option id]. by rewrite Htruthy.
Qed.

Lemma issued_short_url_stays_valid_witness :
  exists res srv1 ress srv2,
    post_shorten 1 example_body fresh_server = Some (res, srv1) /\
    issued res = Some "AHOVcj" /\
    serve_all 1 shorten_twice srv1 = Some (ress, srv2) /\
    get_url "AHOVcj" srv2 = Redirect (JString "https://example.com").
Proof.
  destruct (post_shorten 1 example_body fresh_server) as [[res srv1]|] eqn:Hpost;
    [|vm_compute in Hpost; discriminate].
  assert (issued res = Some "AHOVcj") as Hissued.
  { vm_compute in Hpost. injection Hpost as <- <-. reflexivity. }
  destruct (serve_all 1 shorten_twice srv1) as [[ress srv2]|] eqn:Hrun.
  2: { vm_compute in Hpost. injection Hpost as <- <-.
       vm_compute in Hrun. discriminate. }
  exists res, srv1, ress, srv2. split_and!; [done|exact Hissued|done|].
  exact (issued_short_url_stays_valid 1 1 example_body fresh_server srv1 srv2
           res "AHOVcj" shorten_twice ress Hpost Hissued Hrun).
Defined.

(* ===================================================================== *)
(** * Proofs: the room relay *)
(* ===================================================================== *)

Import Relay.

Local Open Scope nat_scope.

(** What holds of the server at any time: every set in the map is
    non-empty and without repetition, and the sockets of the set of a room
    are the connections that joined the room and are not closed yet. *)
Definition well_formed (w : World) : Prop :=
  (forall roomId set, rooms w !! roomId = Some set -> set <> [] /\ NoDup set) /\
  (forall socket roomId,
     joined w !! socket = Some roomId <->
     exists set, rooms w !! roomId = Some set /\ socket ∈ set).

Lemma well_formed_init : well_formed Relay.init.
Proof.
  split; cbn [Relay.init rooms joined].
  - intros roomId set Hset. by rewrite lookup_empty in Hset.
  - intros socket roomId. split.
    + intros Hj. by rewrite lookup_empty in Hj.
    + intros (set & Hset & _). by rewrite lookup_empty in Hset.
Qed.

(** The map after a connection: the room of the socket holds the sockets
    it held, if any, and then the new one; the other rooms are as they
    were. *)
Lemma on_connection_lookup socket roomId (rms : gmap string (list nat)) roomId' :
  (forall set, rms !! roomId = Some set -> socket ∉ set) ->
  on_connection socket roomId rms !! roomId' =
  if decide (roomId' = roomId)
  then Some (default [] (rms !! roomId) ++ [socket])
  else rms !! roomId'.
Proof.
  intros Hnew. unfold on_connection.
  destruct (rms !! roomId) as [set|] eqn:Hset.
  - rewrite Hset. specialize (Hnew set eq_refl).
    unfold set_add. rewrite decide_False by done.
    destruct (decide (roomId' = roomId)) as [->|Hne].
    + by rewrite lookup_insert_eq.
    + by rewrite lookup_insert_ne.
  - rewrite lookup_insert_eq.
    unfold set_add. rewrite decide_False by apply not_elem_of_nil.
    destruct (decide (roomId' = roomId)) as [->|Hne].
    + by rewrite lookup_insert_eq.
    + by rewrite !lookup_insert_ne.
Qed.

Lemma on_close_lookup socket roomId (rms : gmap string (list nat)) set rms' roomId' :
  rms !! roomId = Some set -> on_close socket roomId rms = Some rms' ->
  rms' !! roomId' =
  if decide (roomId' = roomId)
  then (if decide (set_delete socket set = []) then None
        else Some (set_delete socket set))
  else rms !! roomId'.
Proof.
  intros Hset. unfold on_close. rewrite Hset. intros [= <-].
  destruct (decide (length (set_delete socket set) = 0)) as [Hlen|Hlen].
  - apply length_zero_iff_nil in Hlen. rewrite Hlen.
    destruct (decide (roomId' = roomId)) as [->|Hne].
    + rewrite lookup_delete_eq. by rewrite decide_True.
    + by rewrite lookup_delete_ne.
  - destruct (decide (roomId' = roomId)) as [->|Hne].
    + rewrite lookup_insert_eq, decide_False; [done|].
      intros Hnil. by rewrite Hnil in Hlen.
    + by rewrite lookup_insert_ne.
Qed.

Lemma elem_of_set_delete socket set client :
  client ∈ set_delete socket set <-> client <> socket /\ client ∈ set.
Proof. unfold set_delete. by rewrite list_elem_of_filter. Qed.

Lemma handle_connection_well_formed w socket room w' :
  well_formed w -> joined w !! socket = None ->
  handle w (Connection socket room) = Some w' -> well_formed w'.
Proof.
  intros [Hsets Hjoined] Hnew [= <-]. unfold well_formed. cbn [rooms joined].
  assert (forall set, rooms w !! roomId_of room = Some set -> socket ∉ set) as Hout.
  { intros set Hset Hin.
    assert (joined w !! socket = Some (roomId_of room)) as Hj
      by (apply Hjoined; eauto).
    congruence. }
  split.
  - intros roomId set. rewrite on_connection_lookup by done.
    destruct (decide (roomId = roomId_of room)) as [->|Hne].
    + intros [= <-]. split; [by destruct (default [] _)|].
      destruct (rooms w !! roomId_of room) as [set|] eqn:Hset; cbn [default from_option id].
      * apply NoDup_app. split_and!.
        -- by apply (Hsets _ _ Hset).
        -- intros x Hx Hx'. apply list_elem_of_singleton in Hx' as ->.
           by apply (Hout set).
        -- apply NoDup_singleton.
      * apply NoDup_singleton.
    + apply Hsets.
  - intros client roomId. rewrite on_connection_lookup by done.
    destruct (decide (client = socket)) as [->|Hclient].
    + rewrite lookup_insert_eq. split.
      * intros [= <-]. rewrite decide_True by done.
        eexists. split; [done|]. apply elem_of_app. right. by left.
      * intros (set & Hset & Hin).
        destruct (decide (roomId = roomId_of room)) as [->|Hne]; [done|].
        assert (joined w !! socket = Some roomId) by (apply Hjoined; eauto).
        congruence.
    + rewrite lookup_insert_ne by done. rewrite Hjoined.
      destruct (decide (roomId = roomId_of room)) as [->|Hne]; [|done].
      split.
      * intros (set & Hset & Hin). rewrite Hset. cbn [default from_option id].
        eexists. split; [done|]. apply elem_of_app. by left.
      * intros (set & [= <-] & Hin).
        apply elem_of_app in Hin as [Hin|Hin].
        -- destruct (rooms w !! roomId_of room) as [set|]; [by eexists|].
           by apply elem_of_nil in Hin.
        -- apply list_elem_of_singleton in Hin. done.
Qed.

Lemma handle_close_well_formed w socket roomId w' :
  well_formed w -> joined w !! socket = Some roomId ->
  handle w (Close socket) = Some w' -> well_formed w'.
Proof.
  intros [Hsets Hjoined] Hj. cbn [handle]. rewrite Hj.
  destruct (on_close socket roomId (rooms w)) as [rooms'|] eqn:Hclose; [|done].
  intros [= <-]. unfold well_formed. cbn [rooms joined].
  destruct (proj1 (Hjoined socket roomId) Hj) as (set & Hset & Hin).
  pose proof (on_close_lookup socket roomId (rooms w) set rooms') as Hlook.
  split.
  - intros roomId' set'. rewrite Hlook by done.
    destruct (decide (roomId' = roomId)) as [->|Hne]; [|apply Hsets].
    destruct (decide (set_delete socket set = [])) as [|Hnonempty]; [done|].
    intros [= <-]. split; [done|]. apply NoDup_filter. by apply (Hsets _ _ Hset).
  - intros client roomId'. rewrite Hlook by done.
    destruct (decide (client = socket)) as [->|Hclient].
    + rewrite lookup_delete_eq. split; [done|]. intros (set' & Hset' & Hin').
      destruct (decide (roomId' = roomId)) as [->|Hne].
      * destruct (decide (set_delete socket set = [])); [done|].
        injection Hset' as <-. apply elem_of_set_delete in Hin'. tauto.
      * assert (joined w !! socket = Some roomId') by (apply Hjoined; eauto).
        congruence.
    + rewrite lookup_delete_ne by done. rewrite Hjoined.
      destruct (decide (roomId' = roomId)) as [->|Hne]; [|done].
      rewrite Hset. split.
      * intros (? & [= <-] & Hin').
        assert (client ∈ set_delete socket set) as Hin''
          by (by apply elem_of_set_delete).
        destruct (decide (set_delete socket set = [])) as [Hnil|_].
        -- rewrite Hnil in Hin''. by apply elem_of_nil in Hin''.
        -- by eexists.
      * intros (set' & Hset' & Hin').
        destruct (decide (set_delete socket set = [])); [done|].
        injection Hset' as <-. apply elem_of_set_delete in Hin' as [_ Hin'].
        by eexists.
Qed.

(** In a well-formed state a possible event is handled without a throw,
    unless it is a connection with an invalid request target, and the
    state stays well-formed. *)
Lemma handle_well_formed w ev :
  well_formed w -> possible w ev = true ->
  (forall socket, ev <> InvalidTarget socket) ->
  exists w', handle w ev = Some w' /\ well_formed w'.
Proof.
  intros Hw Hposs Hvalid.
  destruct ev as [socket room|socket|socket data|socket|socket state];
    cbn [possible] in Hposs; try apply bool_decide_eq_true in Hposs.
  - eexists. split; [done|]. by eapply handle_connection_well_formed.
  - by destruct (Hvalid socket).
  - destruct Hposs as [roomId Hj]. cbn [handle]. rewrite Hj.
    destruct (proj1 (proj2 Hw socket roomId) Hj) as (set & Hset & _).
    unfold on_message. rewrite Hset. by eexists.
  - destruct Hposs as [roomId Hj].
    destruct (proj1 (proj2 Hw socket roomId) Hj) as (set & Hset & _).
    assert (exists w', handle w (Close socket) = Some w') as [w' Hw'].
    { cbn [handle]. rewrite Hj. unfold on_close. rewrite Hset. by eexists. }
    exists w'. split; [done|]. by eapply handle_close_well_formed.
  - eexists. split; [done|]. exact Hw.
Qed.

Lemma run_well_formed events w w' :
  well_formed w -> Relay.run w events = Some w' -> well_formed w'.
Proof.
  revert w. induction events as [|ev events IH]; intros w Hw; cbn [Relay.run].
  { by intros [= <-]. }
  destruct (possible w ev) eqn:Hposs; [|done].
  destruct (handle w ev) as [w1|] eqn:Hhandle; [|done].
  destruct (handle_well_formed w ev Hw Hposs) as (w1' & Hhandle' & Hw1).
  { intros socket ->. discriminate. }
  rewrite Hhandle in Hhandle'. injection Hhandle' as <-. by apply IH.
Qed.

(** Sockets 1 and 3 join [room1], socket 2 joins the lobby, then 1 and 3
    are open and 2 stays connecting. *)
Definition three_sockets : list Event :=
  [Connection 1 (Some "room1"); Connection 2 None; Connection 3 (Some "room1");
   ReadyStateChange 1 OPEN; ReadyStateChange 3 OPEN].

(** C9: on a server reached by any events, a message from a connected
    socket of room [roomId] makes the handler send the payload once to each
    socket that is in the set of the room, is not the sender and is in the
    OPEN ready state, and to no other socket; a socket in the set of any
    other room is sent nothing. *)
Theorem message_relayed_within_room
    (events : list Event) (w : World) (socket : nat) (roomId data : string) :
  Relay.run Relay.init events = Some w ->
  joined w !! socket = Some roomId ->
  exists members sends,
    rooms w !! roomId = Some members /\ socket ∈ members /\
    on_message socket roomId data (readyState w) (rooms w) = Some sends /\
    NoDup sends /\
    (forall client payload,
       (client, payload) ∈ sends <->
       payload = data /\ client ∈ members /\ client <> socket /\
       readyState w client = OPEN) /\
    (forall roomId' others client payload,
       roomId' <> roomId -> rooms w !! roomId' = Some others ->
       client ∈ others -> (client, payload) ∉ sends).
Proof.
  intros Hrun Hj.
  destruct (run_well_formed events _ _ well_formed_init Hrun) as [Hsets Hjoined].
  destruct (proj1 (Hjoined socket roomId) Hj) as (members & Hmembers & Hin).
  assert (forall client payload,
            (client, payload) ∈
              map (fun client => (client, data))
                (filter (fun client => client <> socket /\ readyState w client = OPEN)
                   members) <->
            payload = data /\ client ∈ members /\ client <> socket /\
            readyState w client = OPEN) as Hsends.
  { intros client payload. rewrite list_elem_of_fmap. split.
    - intros (c & [= -> ->] & Hc). apply list_elem_of_filter in Hc. tauto.
    - intros (-> & Hc & Hne & Hopen). exists client. split; [done|].
      by apply list_elem_of_filter. }
  exists members. eexists. split_and!.
  - done.
  - done.
  - unfold on_message. by rewrite Hmembers.
  - assert (Inj (=) (=) (fun client : nat => (client, data))) as Hinj
      by (by intros c1 c2 [= ->]).
    apply (NoDup_fmap_2 _). apply NoDup_filter. by apply (Hsets _ _ Hmembers).
  - exact Hsends.
  - intros roomId' others client payload Hne Hothers Hclient Hsent.
    apply Hsends in Hsent as (_ & Hmember & _).
    assert (joined w !! client = Some roomId) by (apply Hjoined; eauto).
    assert (joined w !! client = Some roomId') by (apply Hjoined; eauto).
    congruence.
Qed.

Lemma message_relayed_within_room_witness :
  exists w,
    Relay.run Relay.init three_sockets = Some w /\
    joined w !! 1 = Some "room1" /\
    on_message 1 "room1" "hello" (readyState w) (rooms w) = Some [(3, "hello")] /\
    (2, "hello") ∉ [(3, "hello")].
Proof.
  destruct (Relay.run Relay.init three_sockets) as [w|] eqn:Hrun;
    [|vm_compute in Hrun; discriminate].
  assert (joined w !! 1 = Some "room1") as Hj.
  { vm_compute in Hrun. injection Hrun as <-. vm_compute. reflexivity. }
  destruct (message_relayed_within_room three_sockets w 1 "room1" "hello" Hrun Hj)
    as (members & sends & Hmembers & _ & Hsends & _ & _ & Hother).
  exists w. split_and!; [done|exact Hj| |].
  - vm_compute in Hrun. injection Hrun as <-. vm_compute. reflexivity.
  - intros Hin. apply elem_of_cons in Hin as [[=]|Hin]. by apply elem_of_nil in Hin.
Defined.

(** C10: on a server reached by any events, every roomId in the map is
    mapped to a non-empty set. A connection leaves its room with the set
    the room had, the empty one if the room was not in the map, extended by
    the socket; the close of a connected socket leaves its room with the
    set without the socket, and without an entry when that set is empty. *)
Theorem rooms_hold_nonempty_sets (events : list Event) (w : World) :
  Relay.run Relay.init events = Some w ->
  (forall roomId set, rooms w !! roomId = Some set -> set <> []) /\
  (forall socket room,
     possible w (Connection socket room) = true ->
     exists w', handle w (Connection socket room) = Some w' /\
       rooms w' !! roomId_of room =
         Some (default [] (rooms w !! roomId_of room) ++ [socket])) /\
  (forall socket roomId,
     joined w !! socket = Some roomId ->
     exists set w', rooms w !! roomId = Some set /\
       handle w (Close socket) = Some w' /\
       (socket ∉ set_delete socket set) /\
       rooms w' !! roomId =
       (if decide (set_delete socket set = []) then None
        else Some (set_delete socket set))).
Proof.
  intros Hrun.
  destruct (run_well_formed events _ _ well_formed_init Hrun) as [Hsets Hjoined].
  split_and!.
  - intros roomId set Hset. by apply (Hsets _ _ Hset).
  - intros socket room Hposs. cbn [possible] in Hposs.
    apply bool_decide_eq_true in Hposs.
    eexists. split; [done|]. cbn [rooms].
    rewrite on_connection_lookup, decide_True; [done..|].
    intros set Hset Hin.
    assert (joined w !! socket = Some (roomId_of room)) by (apply Hjoined; eauto).
    congruence.
  - intros socket roomId Hj.
    destruct (proj1 (Hjoined socket roomId) Hj) as (set & Hset & Hin).
    destruct (on_close socket roomId (rooms w)) as [rooms'|] eqn:Hclose.
    2: { unfold on_close in Hclose. by rewrite Hset in Hclose. }
    exists set. eexists. split_and!.
    + done.
    + cbn [handle]. by rewrite Hj, Hclose.
    + rewrite elem_of_set_delete. tauto.
    + cbn [rooms]. rewrite (on_close_lookup socket roomId (rooms w) set) by done.
      by rewrite decide_True.
Qed.

Lemma rooms_hold_nonempty_sets_witness :
  exists w,
    Relay.run Relay.init (three_sockets ++ [Close 2]) = Some w /\
    rooms w !! "lobby" = None /\
    forall roomId set, rooms w !! roomId = Some set -> set <> [].
Proof.
  destruct (Relay.run Relay.init (three_sockets ++ [Close 2])) as [w|] eqn:Hrun;
    [|vm_compute in Hrun; discriminate].
  exists w. split_and!; [done| |].
  - vm_compute in Hrun. injection Hrun as <-. vm_compute. reflexivity.
  - exact (proj1 (rooms_hold_nonempty_sets _ w Hrun)).
Defined.

(* ===================================================================== *)
(** * Further properties of the room relay *)
(* ===================================================================== *)

Lemma set_delete_added socket (set : list nat) :
  socket ∉ set -> set_delete socket (set ++ [socket]) = set.
Proof.
  intros Hout. unfold set_delete. rewrite filter_app.
  rewrite (filter_cons_False _ socket) by (by intros Hne; apply Hne).
  rewrite filter_nil, app_nil_r.
  induction set as [|c set IH]; [done|].
  apply not_elem_of_cons in Hout as [Hne Hout].
  rewrite filter_cons_True by done. by rewrite IH.
Qed.

(** X9: on a server reached by any events, a new connection whose request
    target is a URL, once it is closed again, leaves the map and the
    registered connections as they were before it: the close handler does
    not throw, it takes the socket out of the set of its room, and the
    room out of the map if the connection had created it. *)
Theorem connection_then_close_restores_rooms
    (events : list Event) (w : World) (socket : nat) (room : option string) :
  Relay.run Relay.init events = Some w ->
  joined w !! socket = None ->
  exists w1 w2,
    handle w (Connection socket room) = Some w1 /\
    handle w1 (Close socket) = Some w2 /\
    rooms w2 = rooms w /\ joined w2 = joined w.
Proof.
  intros Hrun Hnew.
  destruct (run_well_formed events _ _ well_formed_init Hrun) as [Hsets Hjoined].
  assert (forall set, rooms w !! roomId_of room = Some set -> socket ∉ set) as Hout.
  { intros set Hset Hin.
    assert (joined w !! socket = Some (roomId_of room)) by (apply Hjoined; eauto).
    congruence. }
  exists {| rooms := on_connection socket (roomId_of room) (rooms w);
            joined := <[socket := roomId_of room]> (joined w);
            readyState := readyState w |}.
  cbn [handle joined rooms readyState]. rewrite lookup_insert_eq.
  pose proof (on_connection_lookup socket (roomId_of room) (rooms w)
                (roomId_of room) Hout) as Hroom.
  rewrite decide_True in Hroom by done.
  destruct (on_close socket (roomId_of room)
              (on_connection socket (roomId_of room) (rooms w)))
    as [rooms2|] eqn:Hclose.
  2: { unfold on_close in Hclose. by rewrite Hroom in Hclose. }
  eexists. split_and!; [done|done| |].
  - cbn [rooms]. apply map_eq. intros roomId.
    rewrite (on_close_lookup _ _ _ _ _ roomId Hroom Hclose).
    destruct (decide (roomId = roomId_of room)) as [->|Hne].
    + destruct (rooms w !! roomId_of room) as [set|] eqn:Hset;
        cbn [default from_option id].
      * rewrite set_delete_added by (by apply Hout).
        rewrite decide_False; [done|]. by apply (Hsets _ _ Hset).
      * rewrite (set_delete_added socket []) by apply not_elem_of_nil.
        by rewrite decide_True.
    + rewrite on_connection_lookup by done. by rewrite decide_False.
  - cbn [joined]. by apply delete_insert_id.
Qed.

Lemma connection_then_close_restores_rooms_witness :
  exists w w1 w2,
    Relay.run Relay.init three_sockets = Some w /\
    joined w !! 7 = None /\
    handle w (Connection 7 (Some "room9")) = Some w1 /\
    handle w1 (Close 7) = Some w2 /\
    rooms w2 = rooms w.
Proof.
  destruct (Relay.run Relay.init three_sockets) as [w|] eqn:Hrun;
    [|vm_compute in Hrun; discriminate].
  assert (joined w !! 7 = None) as Hnew.
  { vm_compute in Hrun. injection Hrun as <-. vm_compute. reflexivity. }
  destruct (connection_then_close_restores_rooms three_sockets w 7 (Some "room9")
              Hrun Hnew) as (w1 & w2 & H1 & H2 & Hrooms & _).
  by exists w, w1, w2.
Defined.

(** X10: on a server reached by any events, the set of a room holds the
    connections that joined the room and are not closed, each once, so a
    socket is in the set of at most one room and a socket that is not
    connected is in none. *)
Theorem sockets_are_in_the_room_they_joined (events : list Event) (w : World) :
  Relay.run Relay.init events = Some w ->
  (forall roomId members, rooms w !! roomId = Some members -> NoDup members) /\
  (forall socket roomId members,
     rooms w !! roomId = Some members ->
     socket ∈ members <-> joined w !! socket = Some roomId) /\
  (forall socket roomId1 roomId2 members1 members2,
     rooms w !! roomId1 = Some members1 -> rooms w !! roomId2 = Some members2 ->
     socket ∈ members1 -> socket ∈ members2 -> roomId1 = roomId2).
Proof.
  intros Hrun.
  destruct (run_well_formed events _ _ well_formed_init Hrun) as [Hsets Hjoined].
  assert (forall socket roomId members,
            rooms w !! roomId = Some members ->
            socket ∈ members <-> joined w !! socket = Some roomId) as Hmember.
  { intros socket roomId members Hmembers. rewrite Hjoined. split.
    - intros Hin. by exists members.
    - intros (set & Hset & Hin). by simplify_eq. }
  split_and!.
  - intros roomId members Hmembers. by apply (Hsets _ _ Hmembers).
  - exact Hmember.
  - intros socket r1 r2 m1 m2 H1 H2 Hin1 Hin2.
    apply (Hmember _ _ _ H1) in Hin1. apply (Hmember _ _ _ H2) in Hin2.
    congruence.
Qed.

Lemma sockets_are_in_the_room_they_joined_witness :
  exists w,
    Relay.run Relay.init three_sockets = Some w /\
    rooms w !! "room1" = Some [1; 3] /\
    joined w !! 3 = Some "room1".
Proof.
  destruct (Relay.run Relay.init three_sockets) as [w|] eqn:Hrun;
    [|vm_compute in Hrun; discriminate].
  assert (rooms w !! "room1" = Some [1; 3]) as Hroom.
  { vm_compute in Hrun. injection Hrun as <-. vm_compute. reflexivity. }
  exists w. split_and!; [done|exact Hroom|].
  apply (proj1 (proj2 (sockets_are_in_the_room_they_joined _ w Hrun)) 3 "room1" _ Hroom).
  apply (bool_decide_unpack _). vm_compute. exact I.
Defined.

(** X11: a socket that is not connected, because it never was or because
    its close has been handled, is sent nothing by the message handler of
    any connected socket. *)
Theorem closed_socket_is_sent_nothing
    (events : list Event) (w : World) (client sender : nat)
    (roomId data payload : string) (sends : list (nat * string)) :
  Relay.run Relay.init events = Some w ->
  joined w !! client = None ->
  on_message sender roomId data (readyState w) (rooms w) = Some sends ->
  (client, payload) ∉ sends.
Proof.
  intros Hrun Hclosed Hmsg Hsent.
  destruct (run_well_formed events _ _ well_formed_init Hrun) as [_ Hjoined].
  unfold on_message in Hmsg.
  destruct (rooms w !! roomId) as [members|] eqn:Hmembers; [|done].
  injection Hmsg as <-.
  apply list_elem_of_fmap in Hsent as (c & [= -> ->] & Hc).
  apply list_elem_of_filter in Hc as [_ Hin].
  assert (joined w !! c = Some roomId) by (apply Hjoined; eauto).
  congruence.
Qed.

Lemma closed_socket_is_sent_nothing_witness :
  exists w sends,
    Relay.run Relay.init (three_sockets ++ [Close 3]) = Some w /\
    joined w !! 3 = None /\
    on_message 1 "room1" "hello" (readyState w) (rooms w) = Some sends /\
    (3, "hello") ∉ sends.
Proof.
  destruct (Relay.run Relay.init (three_sockets ++ [Close 3])) as [w|] eqn:Hrun;
    [|vm_compute in Hrun; discriminate].
  assert (joined w !! 3 = None) as Hclosed.
  { vm_compute in Hrun. injection Hrun as <-. vm_compute. reflexivity. }
  destruct (on_message 1 "room1" "hello" (readyState w) (rooms w))
    as [sends|] eqn:Hmsg.
  2: { vm_compute in Hrun. injection Hrun as <-. vm_compute in Hmsg. discriminate. }
  exists w, sends. split_and!; [done|exact Hclosed|done|].
  exact (closed_socket_is_sent_nothing _ w 3 1 "room1" "hello" "hello" sends
           Hrun Hclosed Hmsg).
Defined.

(* ===================================================================== *)
(** * Proofs: the leaderboard's input line *)
(* ===================================================================== *)

Import Contest.

Local Open Scope string_scope.
Local Open Scope nat_scope.

Local Arguments String.append !_ _ : simpl nomatch.

(** Every code unit of a string passes a test. *)
Fixpoint every (p : Ascii.ascii -> bool) (s : string) : bool :=
  match s with
  | EmptyString => true
  | String c s' => p c && every p s'
  end.

(** A string of white space only. *)
Definition blank (s : string) : bool := every is_whitespace s.

(** A string without a comma. *)
Definition comma_free (s : string) : bool :=
  every (fun c => negb (Ascii.eqb c comma)) s.

(** A string of decimal digits only. *)
Definition digits_only (s : string) : bool := every is_digit s.

Lemma append_assoc (s t u : string) : (s ++ t) ++ u = s ++ t ++ u.
Proof. induction s as [|c s IH]; cbn; [done|by rewrite IH]. Qed.

Lemma append_nil_r (s : string) : s ++ "" = s.
Proof. induction s as [|c s IH]; cbn; [done|by rewrite IH]. Qed.

Lemma every_app p (s t : string) : every p (s ++ t) = every p s && every p t.
Proof. induction s as [|c s IH]; cbn; [done|]. by rewrite IH, andb_assoc. Qed.

Lemma every_impl (p q : Ascii.ascii -> bool) (s : string) :
  (forall c, p c = true -> q c = true) -> every p s = true -> every q s = true.
Proof.
  intros Hpq. induction s as [|c s IH]; cbn; [done|].
  rewrite !andb_true_iff. intros [Hc Hs]. split; [by apply Hpq|by apply IH].
Qed.

(** ** White space at the ends *)

Lemma trimStart_blank (pad s : string) :
  blank pad = true -> trimStart (pad ++ s) = trimStart s.
Proof.
  unfold blank. induction pad as [|c pad IH]; cbn; [done|].
  rewrite andb_true_iff. intros [Hc Hpad]. rewrite Hc. by apply IH.
Qed.

Lemma trimStart_blank_nil (pad : string) : blank pad = true -> trimStart pad = "".
Proof.
  intros Hpad. rewrite <- (append_nil_r pad). by rewrite trimStart_blank.
Qed.

Lemma trimEnd_blank_nil (pad : string) : blank pad = true -> trimEnd pad = "".
Proof.
  unfold blank. induction pad as [|c pad IH]; cbn; [done|].
  rewrite andb_true_iff. intros [Hc Hpad]. by rewrite IH, Hc.
Qed.

Lemma trimEnd_blank (s pad : string) :
  blank pad = true -> trimEnd (s ++ pad) = trimEnd s.
Proof.
  intros Hpad. induction s as [|c s IH]; cbn; [by apply trimEnd_blank_nil|].
  by rewrite IH.
Qed.

Lemma trimStart_app (s pad : string) :
  trimStart (s ++ pad) = if blank s then trimStart pad else trimStart s ++ pad.
Proof.
  unfold blank. induction s as [|c s IH]; cbn; [done|].
  destruct (is_whitespace c); cbn; [apply IH|done].
Qed.

Lemma trim_pad (before s after : string) :
  blank before = true -> blank after = true ->
  trim (before ++ s ++ after) = trim s.
Proof.
  intros Hbefore Hafter. unfold trim.
  rewrite trimStart_blank by done. rewrite trimStart_app.
  destruct (blank s) eqn:Hs.
  - by rewrite (trimStart_blank_nil after), (trimStart_blank_nil s).
  - by apply trimEnd_blank.
Qed.

Lemma trimStart_head (s : string) :
  trimStart s = "" \/
  exists c t, trimStart s = String c t /\ is_whitespace c = false.
Proof.
  induction s as [|c s IH]; cbn; [by left|].
  destruct (is_whitespace c) eqn:Hc; [done|]. right. by exists c, s.
Qed.

Lemma trimStart_length (s : string) :
  String.length (trimStart s) <= String.length s.
Proof.
  induction s as [|c s IH]; cbn; [done|].
  destruct (is_whitespace c); cbn; lia.
Qed.

Lemma trimStart_fixed (c : Ascii.ascii) (s : string) :
  trimStart (String c s) = String c s -> is_whitespace c = false.
Proof.
  cbn. destruct (is_whitespace c); [|done]. intros Heq.
  pose proof (trimStart_length s) as Hlen. rewrite Heq in Hlen. cbn in Hlen. lia.
Qed.

Lemma trimEnd_head (c : Ascii.ascii) (t : string) :
  is_whitespace c = false -> exists u, trimEnd (String c t) = String c u.
Proof.
  intros Hc. cbn. rewrite Hc. destruct (trimEnd t); by eexists.
Qed.

Lemma trimEnd_idem (s : string) : trimEnd (trimEnd s) = trimEnd s.
Proof.
  induction s as [|c s IH]; [done|].
  cbn [trimEnd]. destruct (trimEnd s) as [|a u] eqn:Hs.
  - destruct (is_whitespace c) eqn:Hc; cbn; [done|by rewrite Hc].
  - change (trimEnd (String c (String a u)))
      with (match trimEnd (String a u) with
            | EmptyString =>
                if is_whitespace c then EmptyString else String c EmptyString
            | t => String c t
            end).
    by rewrite IH.
Qed.

Lemma trimStart_trim (s : string) : trimStart (trim s) = trim s.
Proof.
  unfold trim. destruct (trimStart_head s) as [->|(c & t & -> & Hc)]; [done|].
  destruct (trimEnd_head c t Hc) as [u ->]. cbn. by rewrite Hc.
Qed.

Lemma trim_idem (s : string) : trim (trim s) = trim s.
Proof.
  unfold trim at 1. rewrite trimStart_trim. unfold trim. apply trimEnd_idem.
Qed.

Lemma trimEnd_app_keep (s t : string) :
  trimEnd t <> "" -> trimEnd (s ++ t) = s ++ trimEnd t.
Proof.
  intros Ht. induction s as [|c s IH]; cbn; [done|].
  rewrite IH. destruct (s ++ trimEnd t) eqn:Heq; [|done].
  destruct s; cbn in Heq; [done|discriminate].
Qed.

Lemma trimEnd_none (s : string) :
  every (fun c => negb (is_whitespace c)) s = true -> trimEnd s = s.
Proof.
  induction s as [|c s IH]; cbn; [done|].
  rewrite andb_true_iff, negb_true_iff. intros [Hc Hs]. rewrite IH by done.
  destruct s; [by rewrite Hc|done].
Qed.

(** ** Code units *)

Lemma digit_not_whitespace (c : Ascii.ascii) :
  is_digit c = true -> negb (is_whitespace c) = true.
Proof. destruct c as [[] [] [] [] [] [] [] []]; vm_compute; congruence. Qed.

Lemma digit_not_comma (c : Ascii.ascii) :
  is_digit c = true -> negb (Ascii.eqb c comma) = true.
Proof. destruct c as [[] [] [] [] [] [] [] []]; vm_compute; congruence. Qed.

Lemma whitespace_not_comma (c : Ascii.ascii) :
  is_whitespace c = true -> negb (Ascii.eqb c comma) = true.
Proof. destruct c as [[] [] [] [] [] [] [] []]; vm_compute; congruence. Qed.

Lemma digit_not_sign (c : Ascii.ascii) :
  is_digit c = true ->
  Ascii.eqb c (Ascii.ascii_of_nat 43) || Ascii.eqb c (Ascii.ascii_of_nat 45) = false.
Proof. destruct c as [[] [] [] [] [] [] [] []]; vm_compute; congruence. Qed.

Lemma digit_not_Infinity (c : Ascii.ascii) (s : string) :
  is_digit c = true -> String.prefix "Infinity" (String c s) = false.
Proof. destruct c as [[] [] [] [] [] [] [] []]; vm_compute; congruence. Qed.

Lemma toLowerCase_unit_comma (c : Ascii.ascii) :
  Ascii.eqb (toLowerCase_unit c) comma = Ascii.eqb c comma.
Proof. destruct c as [[] [] [] [] [] [] [] []]; vm_compute; congruence. Qed.

(** ** Commas *)

Lemma comma_free_toLowerCase (s : string) :
  comma_free (toLowerCase s) = comma_free s.
Proof.
  unfold comma_free. induction s as [|c s IH]; cbn; [done|].
  by rewrite toLowerCase_unit_comma, IH.
Qed.

Lemma comma_free_app_comma (s t : string) :
  comma_free (s ++ String comma t) = false.
Proof.
  unfold comma_free. rewrite every_app. cbn [every].
  rewrite Ascii.eqb_refl. cbn. apply andb_false_r.
Qed.

Lemma not_a_word (s word : string) :
  comma_free s = false -> comma_free word = true ->
  String.eqb (toLowerCase s) word = false.
Proof.
  intros Hs Hword. apply String.eqb_neq. intros Heq.
  rewrite <- Heq, comma_free_toLowerCase in Hword. congruence.
Qed.

Lemma split_comma_free (s : string) :
  comma_free s = true -> split s = [s].
Proof.
  unfold comma_free. induction s as [|c s IH]; cbn; [done|].
  rewrite andb_true_iff, negb_true_iff. intros [-> Hs]. by rewrite IH.
Qed.

Lemma split_app_comma (s t : string) :
  comma_free s = true -> split (s ++ String comma t) = s :: split t.
Proof.
  unfold comma_free. induction s as [|c s IH]; cbn.
  - by destruct (Ascii.eqb_spec comma comma).
  - rewrite andb_true_iff, negb_true_iff. intros [-> Hs]. by rewrite IH.
Qed.

Lemma split_parts (s : string) :
  Forall (fun part => comma_free part = true) (split s).
Proof.
  unfold comma_free. induction s as [|c s IH]; cbn; [by repeat constructor|].
  destruct (Ascii.eqb c comma) eqn:Hc; [by constructor|].
  destruct (split s) as [|part parts]; [by repeat constructor; cbn; rewrite Hc|].
  apply Forall_cons in IH as [Hpart Hparts].
  constructor; [|done]. cbn. by rewrite Hc, Hpart.
Qed.

Lemma split_nonempty (s : string) : split s <> [].
Proof.
  destruct s as [|c s]; cbn; [done|].
  destruct (Ascii.eqb c comma); [done|]. by destruct (split s).
Qed.

Lemma split_one (s part : string) : split s = [part] -> s = part.
Proof.
  revert part. induction s as [|c s IH]; intros part; cbn; [congruence|].
  destruct (Ascii.eqb c comma).
  - intros [= _ Hs]. by destruct (split_nonempty s).
  - destruct (split s) as [|part' parts] eqn:Hs; [by destruct (split_nonempty s)|].
    intros [= <- ->]. f_equal. by apply IH.
Qed.

Lemma split_two (s part0 part1 : string) :
  split s = [part0; part1] -> s = part0 ++ String comma part1.
Proof.
  revert part0. induction s as [|c s IH]; intros part0; cbn; [done|].
  destruct (Ascii.eqb_spec c comma) as [->|Hc].
  - intros [= <- Hs]. cbn. f_equal. by apply split_one.
  - destruct (split s) as [|part parts] eqn:Hs; [done|].
    intros [= <- ->]. cbn. f_equal. by apply IH.
Qed.

Lemma comma_free_trimStart (s : string) :
  comma_free s = true -> comma_free (trimStart s) = true.
Proof.
  unfold comma_free. induction s as [|c s IH]; cbn; [done|].
  rewrite andb_true_iff. intros [Hc Hs].
  destruct (is_whitespace c); [by apply IH|]. cbn. by rewrite Hc, Hs.
Qed.

Lemma comma_free_trimEnd (s : string) :
  comma_free s = true -> comma_free (trimEnd s) = true.
Proof.
  unfold comma_free. induction s as [|c s IH]; cbn; [done|].
  rewrite andb_true_iff. intros [Hc Hs]. specialize (IH Hs).
  destruct (trimEnd s) as [|a u].
  - destruct (is_whitespace c); cbn; [done|by rewrite Hc].
  - cbn [every] in IH |- *. by rewrite Hc, IH.
Qed.

Lemma comma_free_trim (s : string) :
  comma_free s = true -> comma_free (trim s) = true.
Proof. intros Hs. by apply comma_free_trimEnd, comma_free_trimStart. Qed.

(** ** The number *)

Import SpecFloat.

Lemma span_digits_app (s digits rest : string) :
  span_digits s = (digits, rest) -> s = digits ++ rest.
Proof.
  revert digits. induction s as [|c s IH]; intros digits; cbn.
  - by intros [= <- <-].
  - destruct (is_digit c).
    + destruct (span_digits s) as [digits' rest'].
      intros [= <- <-]. cbn. f_equal. by apply IH.
    + by intros [= <- <-].
Qed.

Lemma span_digits_all (s : string) :
  digits_only s = true -> span_digits s = (s, "").
Proof.
  unfold digits_only. induction s as [|c s IH]; cbn; [done|].
  rewrite andb_true_iff. intros [-> Hs]. by rewrite IH.
Qed.

Lemma span_sign_app (s sign rest : string) :
  span_sign s = (sign, rest) -> s = sign ++ rest.
Proof.
  destruct s as [|c s]; cbn; [by intros [= <- <-]|].
  destruct (_ || _); by intros [= <- <-].
Qed.

Lemma exponent_part_prefix (s : string) :
  exists rest, s = exponent_part s ++ rest.
Proof.
  destruct s as [|c s]; cbn; [by exists ""|].
  destruct (_ || _); [|by eexists].
  destruct (span_sign s) as [sign s'] eqn:Hsign.
  destruct (span_digits s') as [digits rest] eqn:Hdigits.
  apply span_sign_app in Hsign as ->. apply span_digits_app in Hdigits as ->.
  destruct digits as [|d digits]; [by eexists|].
  exists rest. cbn. f_equal. by rewrite append_assoc.
Qed.

Lemma unsigned_literal_prefix (s literal : string) :
  unsigned_literal s = Some literal ->
  literal <> "" /\ exists rest, s = literal ++ rest.
Proof.
  unfold unsigned_literal.
  destruct (String.prefix "Infinity" s) eqn:Hinf.
  { intros [= <-]. split; [done|].
    apply String.prefix_correct in Hinf. cbn [String.length] in Hinf.
    revert Hinf.
    do 8 (destruct s as [|? s]; [cbn; discriminate|]).
    cbn. intros [= -> -> -> -> -> -> -> ->]. by exists s. }
  destruct (span_digits s) as [integer rest] eqn:Hint.
  apply span_digits_app in Hint as ->.
  destruct integer as [|d integer].
  - destruct rest as [|c rest]; [done|].
    destruct (Ascii.eqb c (Ascii.ascii_of_nat 46)); [|done].
    destruct (span_digits rest) as [fraction rest'] eqn:Hfrac.
    apply span_digits_app in Hfrac as ->.
    destruct fraction as [|f fraction]; [done|].
    intros [= <-]. split; [done|].
    destruct (exponent_part_prefix rest') as [rest'' Hrest].
    exists rest''. cbn. do 2 f_equal. by rewrite append_assoc, <- Hrest.
  - destruct rest as [|c rest].
    + intros [= <-]. split; [done|]. by exists "".
    + destruct (Ascii.eqb c (Ascii.ascii_of_nat 46)).
      * destruct (span_digits rest) as [fraction rest'] eqn:Hfrac.
        apply span_digits_app in Hfrac as ->.
        intros [= <-]. split; [done|].
        destruct (exponent_part_prefix rest') as [rest'' Hrest].
        exists rest''. cbn. f_equal. rewrite append_assoc. cbn. do 2 f_equal.
        by rewrite append_assoc, <- Hrest.
      * destruct (exponent_part_prefix (String c rest)) as [rest'' Hrest].
        revert Hrest. generalize (exponent_part (String c rest)) as exponent.
        intros exponent Hrest [= <-]. split; [done|].
        exists rest''. cbn. f_equal. by rewrite append_assoc, <- Hrest.
Qed.

Lemma trimmedPrefix_prefix (s literal : string) :
  trimmedPrefix s = Some literal ->
  literal <> "" /\ exists rest, s = literal ++ rest.
Proof.
  unfold trimmedPrefix. destruct (span_sign s) as [sign s'] eqn:Hsign.
  apply span_sign_app in Hsign as ->.
  destruct (unsigned_literal s') as [unsigned|] eqn:Hlit; [|done].
  apply unsigned_literal_prefix in Hlit as [Hne [rest ->]].
  intros [= <-]. split.
  - destruct sign; [done|discriminate].
  - exists rest. by rewrite append_assoc.
Qed.

(** ** The syntax of the numbers *)

(** The strings that [parseFloat] reads as numbers: [StrDecimalLiteral]
    of the language definition, production by production.
<<
    StrDecimalLiteral ::: StrUnsignedDecimalLiteral
                        | + StrUnsignedDecimalLiteral
                        | - StrUnsignedDecimalLiteral
    StrUnsignedDecimalLiteral ::: Infinity
                        | DecimalDigits . DecimalDigits(opt) ExponentPart(opt)
                        | . DecimalDigits ExponentPart(opt)
                        | DecimalDigits ExponentPart(opt)
    ExponentPart ::: ExponentIndicator SignedInteger
    SignedInteger ::: DecimalDigits | + DecimalDigits | - DecimalDigits
>> *)
Inductive Sign : string -> Prop :=
  | Sign_none : Sign ""
  | Sign_plus : Sign "+"
  | Sign_minus : Sign "-".

(** The exponent indicators, [e] and [E]. *)
Definition ExponentIndicator (c : Ascii.ascii) : Prop :=
  c = Ascii.ascii_of_nat 101 \/ c = Ascii.ascii_of_nat 69.

Definition DecimalDigits (s : string) : Prop :=
  s <> "" /\ digits_only s = true.

Inductive ExponentPart : string -> Prop :=
  | ExponentPart_intro (indicator : Ascii.ascii) (sign digits : string) :
      ExponentIndicator indicator ->
      Sign sign -> DecimalDigits digits ->
      ExponentPart (String indicator (sign ++ digits)).

Definition optional (P : string -> Prop) (s : string) : Prop :=
  s = "" \/ P s.

Inductive StrUnsignedDecimalLiteral : string -> Prop :=
  | Literal_Infinity : StrUnsignedDecimalLiteral "Infinity"
  | Literal_point (integer fraction exponent : string) :
      DecimalDigits integer -> optional DecimalDigits fraction ->
      optional ExponentPart exponent ->
      StrUnsignedDecimalLiteral (integer ++ "." ++ fraction ++ exponent)
  | Literal_fraction (fraction exponent : string) :
      DecimalDigits fraction -> optional ExponentPart exponent ->
      StrUnsignedDecimalLiteral ("." ++ fraction ++ exponent)
  | Literal_integer (integer exponent : string) :
      DecimalDigits integer -> optional ExponentPart exponent ->
      StrUnsignedDecimalLiteral (integer ++ exponent).

Inductive StrDecimalLiteral : string -> Prop :=
  | Literal_signed (sign unsigned : string) :
      Sign sign -> StrUnsignedDecimalLiteral unsigned ->
      StrDecimalLiteral (sign ++ unsigned).

(** A string that does not start with a digit. *)
Definition no_digit_first (s : string) : Prop :=
  match s with
  | String c _ => is_digit c = false
  | EmptyString => True
  end.

(** A string that does not start with a sign. *)
Definition no_sign_first (s : string) : Prop :=
  match s with
  | String c _ =>
      Ascii.eqb c (Ascii.ascii_of_nat 43) || Ascii.eqb c (Ascii.ascii_of_nat 45) = false
  | EmptyString => True
  end.

Lemma span_digits_spec (s digits rest : string) :
  span_digits s = (digits, rest) ->
  digits_only digits = true /\ no_digit_first rest.
Proof.
  unfold digits_only. revert digits.
  induction s as [|c s IH]; intros digits; cbn.
  - by intros [= <- <-].
  - destruct (is_digit c) eqn:Hc.
    + destruct (span_digits s) as [digits' rest'].
      intros [= <- <-]. destruct (IH digits' eq_refl) as [Hd Hr].
      cbn. by rewrite Hc, Hd.
    + intros [= <- <-]. by cbn.
Qed.

Lemma span_digits_stop (digits rest : string) :
  digits_only digits = true -> no_digit_first rest ->
  span_digits (digits ++ rest) = (digits, rest).
Proof.
  unfold digits_only. intros Hdigits Hrest.
  induction digits as [|c digits IH]; cbn.
  - destruct rest as [|c rest]; [done|]. cbn in *. by rewrite Hrest.
  - cbn in Hdigits. apply andb_true_iff in Hdigits as [-> Hdigits].
    by rewrite IH.
Qed.

(** The digits that start a string are the start of its longest run of
    digits. *)
Lemma span_digits_longer (digits rest run rest' : string) :
  digits_only digits = true ->
  span_digits (digits ++ rest) = (run, rest') ->
  exists more, run = digits ++ more /\ rest = more ++ rest'.
Proof.
  unfold digits_only. intros Hdigits. revert run.
  induction digits as [|c digits IH]; intros run; cbn.
  - intros Hspan. exists run. split; [done|]. by apply span_digits_app.
  - cbn in Hdigits. apply andb_true_iff in Hdigits as [-> Hdigits].
    destruct (span_digits (digits ++ rest)) as [run' rest''] eqn:Hspan.
    intros [= <- <-]. destruct (IH Hdigits run' eq_refl) as (more & -> & ->).
    by exists more.
Qed.

Lemma DecimalDigits_first (digits : string) :
  DecimalDigits digits ->
  exists c digits', digits = String c digits' /\ is_digit c = true.
Proof.
  intros [Hne Hdigits]. destruct digits as [|c digits]; [done|].
  exists c, digits. split; [done|].
  unfold digits_only in Hdigits. cbn in Hdigits.
  by apply andb_true_iff in Hdigits as [? _].
Qed.

Lemma span_sign_sound (s sign rest : string) :
  span_sign s = (sign, rest) -> Sign sign.
Proof.
  destruct s as [|c s]; cbn; [intros [= <- <-]; constructor|].
  destruct (Ascii.eqb_spec c (Ascii.ascii_of_nat 43)) as [->|_]; cbn.
  { intros [= <- <-]. constructor. }
  destruct (Ascii.eqb_spec c (Ascii.ascii_of_nat 45)) as [->|_]; cbn.
  { intros [= <- <-]. constructor. }
  intros [= <- <-]. constructor.
Qed.

Lemma span_sign_stop (sign rest : string) :
  Sign sign -> no_sign_first rest -> span_sign (sign ++ rest) = (sign, rest).
Proof.
  intros [| |] Hrest; [|done..].
  destruct rest as [|c rest]; [done|]. cbn in *. by rewrite Hrest.
Qed.

Lemma length_Sign (sign : string) : Sign sign -> String.length sign <= 1.
Proof. intros [| |]; cbn; lia. Qed.

Lemma digit_no_sign_first (c : Ascii.ascii) (s : string) :
  is_digit c = true -> no_sign_first (String c s).
Proof. apply digit_not_sign. Qed.

Lemma digit_not_point (c : Ascii.ascii) :
  is_digit c = true -> Ascii.eqb c (Ascii.ascii_of_nat 46) = false.
Proof. destruct c as [[] [] [] [] [] [] [] []]; vm_compute; congruence. Qed.

Lemma indicator_cases (c : Ascii.ascii) :
  Ascii.eqb c (Ascii.ascii_of_nat 101) || Ascii.eqb c (Ascii.ascii_of_nat 69) = true <->
  ExponentIndicator c.
Proof.
  unfold ExponentIndicator. rewrite orb_true_iff, !Ascii.eqb_eq. done.
Qed.

Lemma indicator_not_digit (c : Ascii.ascii) :
  ExponentIndicator c -> is_digit c = false.
Proof. by intros [->| ->]. Qed.

Lemma indicator_not_point (c : Ascii.ascii) :
  ExponentIndicator c -> Ascii.eqb c (Ascii.ascii_of_nat 46) = false.
Proof. by intros [->| ->]. Qed.

(** ** The scanner against the syntax *)

Lemma exponent_part_sound (s : string) : optional ExponentPart (exponent_part s).
Proof.
  destruct s as [|c s]; cbn; [by left|].
  destruct (_ || _) eqn:Hc; [|by left].
  destruct (span_sign s) as [sign s'] eqn:Hsign.
  destruct (span_digits s') as [digits rest] eqn:Hdigits.
  destruct digits as [|d digits]; [by left|]. right.
  constructor.
  - by apply indicator_cases.
  - by eapply span_sign_sound.
  - split; [done|]. by eapply span_digits_spec.
Qed.

Lemma exponent_part_longest (exponent rest : string) :
  ExponentPart exponent ->
  String.length exponent <= String.length (exponent_part (exponent ++ rest)).
Proof.
  intros [indicator sign digits Hind Hsign Hdigits].
  destruct (DecimalDigits_first digits Hdigits) as (d & digits' & -> & Hd).
  cbn [String.append exponent_part].
  rewrite (proj2 (indicator_cases indicator) Hind).
  rewrite append_assoc, span_sign_stop; [|done|by apply digit_no_sign_first].
  destruct (span_digits (String d digits' ++ rest)) as [run rest'] eqn:Hspan.
  apply span_digits_longer in Hspan as (more & -> & _); [|by destruct Hdigits].
  cbn. rewrite !length_append. cbn. rewrite !length_append. lia.
Qed.

Lemma unsigned_literal_sound (s literal : string) :
  unsigned_literal s = Some literal -> StrUnsignedDecimalLiteral literal.
Proof.
  unfold unsigned_literal.
  destruct (String.prefix "Infinity" s); [intros [= <-]; constructor|].
  destruct (span_digits s) as [integer rest] eqn:Hint.
  apply span_digits_spec in Hint as [Hinteger _].
  destruct integer as [|d integer].
  - destruct rest as [|c rest]; [done|].
    destruct (Ascii.eqb_spec c (Ascii.ascii_of_nat 46)) as [->|_]; [|done].
    destruct (span_digits rest) as [fraction rest'] eqn:Hfrac.
    apply span_digits_spec in Hfrac as [Hfraction _].
    destruct fraction as [|f fraction]; [done|].
    intros Heq%(inj Some). subst literal.
    apply (Literal_fraction (String f fraction) (exponent_part rest'));
      [done|apply exponent_part_sound].
  - destruct rest as [|c rest].
    + intros Heq%(inj Some). subst literal. rewrite <- (append_nil_r (String d integer)).
      apply Literal_integer; [done|by left].
    + destruct (Ascii.eqb_spec c (Ascii.ascii_of_nat 46)) as [->|_].
      * destruct (span_digits rest) as [fraction rest'] eqn:Hfrac.
        apply span_digits_spec in Hfrac as [Hfraction _].
        intros Heq%(inj Some). subst literal.
        apply (Literal_point (String d integer) fraction (exponent_part rest'));
          [done| |apply exponent_part_sound].
        destruct fraction; [by left|by right].
      * intros Heq%(inj Some). subst literal.
        apply Literal_integer; [done|apply exponent_part_sound].
Qed.

Lemma optional_digits_only (digits : string) :
  optional DecimalDigits digits -> digits_only digits = true.
Proof. by intros [->|[_ ?]]. Qed.

Lemma ExponentPart_no_digit_first (exponent rest : string) :
  ExponentPart exponent -> no_digit_first (exponent ++ rest).
Proof. intros [indicator sign digits Hind _ _]. by apply indicator_not_digit. Qed.

Lemma ExponentPart_no_point_first (exponent rest : string) :
  ExponentPart exponent ->
  exists c s, exponent ++ rest = String c s /\
    Ascii.eqb c (Ascii.ascii_of_nat 46) = false.
Proof.
  intros [indicator sign digits Hind _ _]. eexists _, _. split; [done|].
  by apply indicator_not_point.
Qed.

(** The fraction and the exponent of a literal at the start of a string
    are not longer than the longest run of digits there and the exponent
    part that follows it. *)
Lemma fraction_longest (fraction exponent rest run rest' : string) :
  digits_only fraction = true -> optional ExponentPart exponent ->
  span_digits (fraction ++ exponent ++ rest) = (run, rest') ->
  String.length fraction + String.length exponent <=
    String.length run + String.length (exponent_part rest') /\
  (fraction <> "" -> run <> "").
Proof.
  intros Hfraction [->|Hexponent] Hspan.
  - apply span_digits_longer in Hspan as (more & -> & _); [|done].
    rewrite length_append. cbn. split; [lia|]. by destruct fraction.
  - rewrite span_digits_stop in Hspan;
      [|done|by apply ExponentPart_no_digit_first].
    injection Hspan as <- <-. split; [|done].
    pose proof (exponent_part_longest exponent rest Hexponent). lia.
Qed.

Lemma prefix_append (s rest : string) : String.prefix s (s ++ rest) = true.
Proof.
  induction s as [|c s IH]; cbn; [by destruct rest|].
  destruct (Ascii.ascii_dec c c); [done|congruence].
Qed.

Lemma unsigned_literal_longest (unsigned rest : string) :
  StrUnsignedDecimalLiteral unsigned ->
  exists literal,
    unsigned_literal (unsigned ++ rest) = Some literal /\
    String.length unsigned <= String.length literal.
Proof.
  intros [|integer fraction exponent Hint Hfrac Hexp
          |fraction exponent Hfrac Hexp|integer exponent Hint Hexp].
  - exists "Infinity". split; [|done]. unfold unsigned_literal.
    by rewrite prefix_append.
  - destruct (DecimalDigits_first integer Hint) as (d & integer' & -> & Hd).
    unfold unsigned_literal. rewrite !append_assoc.
    assert (String.prefix "Infinity"
              (String d integer' ++ "." ++ fraction ++ exponent ++ rest) = false)
      as -> by (by apply digit_not_Infinity).
    rewrite span_digits_stop; [|by destruct Hint|reflexivity].
    change ("." ++ fraction ++ exponent ++ rest)
      with (String (Ascii.ascii_of_nat 46) (fraction ++ exponent ++ rest)).
    cbv beta iota. rewrite Ascii.eqb_refl.
    destruct (span_digits (fraction ++ exponent ++ rest)) as [run rest'] eqn:Hspan.
    apply fraction_longest in Hspan as [Hlen _];
      [|by apply optional_digits_only|done].
    eexists. split; [done|].
    rewrite !length_append. cbn [String.length]. rewrite ?length_append. lia.
  - destruct (DecimalDigits_first fraction Hfrac) as (f & fraction' & -> & Hf).
    unfold unsigned_literal. rewrite !append_assoc.
    change ("." ++ String f fraction' ++ exponent ++ rest)
      with (String (Ascii.ascii_of_nat 46) (String f fraction' ++ exponent ++ rest)).
    assert (String.prefix "Infinity"
              (String (Ascii.ascii_of_nat 46)
                 (String f fraction' ++ exponent ++ rest)) = false)
      as -> by reflexivity.
    cbn [span_digits].
    assert (is_digit (Ascii.ascii_of_nat 46) = false) as -> by reflexivity.
    cbv beta iota. rewrite Ascii.eqb_refl.
    destruct (span_digits (String f fraction' ++ exponent ++ rest))
      as [run rest'] eqn:Hspan.
    apply fraction_longest in Hspan as [Hlen Hrun]; [|by destruct Hfrac|done].
    destruct run as [|r run]; [by destruct Hrun|].
    eexists. split; [done|].
    cbn [String.append String.length] in *. rewrite !length_append in *. lia.
  - destruct (DecimalDigits_first integer Hint) as (d & integer' & -> & Hd).
    unfold unsigned_literal. rewrite !append_assoc.
    assert (String.prefix "Infinity" (String d integer' ++ exponent ++ rest) = false)
      as -> by (by apply digit_not_Infinity).
    destruct Hexp as [->|Hexp].
    + destruct (span_digits (String d integer' ++ "" ++ rest))
        as [run rest'] eqn:Hspan.
      apply span_digits_longer in Hspan as (more & -> & _); [|by destruct Hint].
      rewrite append_nil_r.
      assert (forall literal' : string,
                String.length (String d integer') <=
                String.length ((String d integer' ++ more) ++ literal')) as Hlen
        by (intros literal'; rewrite !length_append; lia).
      cbn [String.append] in *.
      destruct rest' as [|c rest'].
      * eexists. split; [done|]. specialize (Hlen ""). by rewrite append_nil_r in Hlen.
      * destruct (Ascii.eqb c (Ascii.ascii_of_nat 46)).
        -- destruct (span_digits rest') as [fraction rest''].
           eexists. split; [done|]. apply Hlen.
        -- eexists. split; [done|]. apply Hlen.
    + rewrite span_digits_stop;
        [|by destruct Hint|by apply ExponentPart_no_digit_first].
      destruct (ExponentPart_no_point_first exponent rest Hexp) as (c & s & Heq & Hc).
      pose proof (exponent_part_longest exponent rest Hexp) as Hlen.
      rewrite Heq in *. rewrite Hc.
      eexists. split; [done|]. rewrite !length_append. lia.
Qed.

Lemma StrUnsignedDecimalLiteral_no_sign_first (unsigned rest : string) :
  StrUnsignedDecimalLiteral unsigned -> no_sign_first (unsigned ++ rest).
Proof.
  intros [|integer fraction exponent Hint _ _|fraction exponent _ _
          |integer exponent Hint _]; try reflexivity.
  - destruct (DecimalDigits_first integer Hint) as (d & integer' & -> & Hd).
    by apply digit_not_sign.
  - destruct (DecimalDigits_first integer Hint) as (d & integer' & -> & Hd).
    by apply digit_not_sign.
Qed.

(** What step 4 of [parseFloat] takes is the longest prefix that is a
    literal, and it takes one whenever some prefix is a literal. *)
Lemma trimmedPrefix_sound (s literal : string) :
  trimmedPrefix s = Some literal -> StrDecimalLiteral literal.
Proof.
  unfold trimmedPrefix. destruct (span_sign s) as [sign rest] eqn:Hsign.
  destruct (unsigned_literal rest) as [unsigned|] eqn:Hunsigned; [|done].
  intros [= <-]. constructor.
  - by eapply span_sign_sound.
  - by eapply unsigned_literal_sound.
Qed.

Lemma trimmedPrefix_longest (literal rest : string) :
  StrDecimalLiteral literal ->
  exists longest,
    trimmedPrefix (literal ++ rest) = Some longest /\
    String.length literal <= String.length longest.
Proof.
  intros [sign unsigned Hsign Hunsigned].
  unfold trimmedPrefix. rewrite append_assoc.
  rewrite span_sign_stop;
    [|done|by apply StrUnsignedDecimalLiteral_no_sign_first].
  destruct (unsigned_literal_longest unsigned rest Hunsigned)
    as (longest & -> & Hlen).
  eexists. split; [done|]. rewrite !length_append. lia.
Qed.

(** ** The Number of a literal *)

Lemma shr_1_nonneg (mrs : shr_record) :
  (0 <= shr_m mrs)%Z -> (0 <= shr_m (shr_1 mrs))%Z.
Proof. destruct mrs as [m r s]. destruct m as [|[p|p|]|p]; cbn; lia. Qed.

Lemma iter_shr_1_nonneg (p : positive) (mrs : shr_record) :
  (0 <= shr_m mrs)%Z -> (0 <= shr_m (iter_pos shr_1 p mrs))%Z.
Proof.
  revert mrs. induction p as [p IH|p IH|]; intros mrs Hm; cbn.
  - by apply IH, IH, shr_1_nonneg.
  - by apply IH, IH.
  - by apply shr_1_nonneg.
Qed.

Lemma shr_fexp_nonneg (m e : Z) (l : location) :
  (0 <= m)%Z -> (0 <= shr_m (fst (shr_fexp prec emax m e l)))%Z.
Proof.
  intros Hm. unfold shr_fexp, shr.
  assert (0 <= shr_m (shr_record_of_loc m l))%Z as Hrecord
    by (by destruct l as [|[]]).
  destruct (fexp prec emax (Zdigits2 m + e) - e)%Z; cbn [fst]; try done.
  by apply iter_shr_1_nonneg.
Qed.

(** Rounding a natural number never gives NaN. *)
Lemma binary_round_aux_not_NaN (s : bool) (m e : Z) (l : location) :
  (0 <= m)%Z -> isNaN (binary_round_aux prec emax s m e l) = false.
Proof.
  intros Hm. unfold binary_round_aux.
  pose proof (shr_fexp_nonneg m e l Hm) as Hfirst.
  destruct (shr_fexp prec emax m e l) as [mrs' e']. cbn [fst] in Hfirst.
  assert (0 <= round_nearest_even (shr_m mrs') (loc_of_shr_record mrs'))%Z
    as Hrounded.
  { unfold round_nearest_even.
    destruct (loc_of_shr_record mrs') as [|[]]; try done; [|lia].
    destruct (Z.even (shr_m mrs')); lia. }
  pose proof (shr_fexp_nonneg _ e' loc_Exact Hrounded) as Hsecond.
  destruct (shr_fexp prec emax _ e' loc_Exact) as [mrs'' e''].
  cbn [fst] in Hsecond.
  destruct (shr_m mrs'') as [|p|p]; [done| |lia].
  by destruct (e'' <=? emax - prec)%Z.
Qed.

Lemma round_nearest_not_NaN (negative : bool) (numerator denominator : Z) :
  isNaN (round_nearest negative numerator denominator) = false.
Proof.
  unfold round_nearest.
  destruct numerator as [|n|n]; [done| |done].
  destruct denominator as [|d|d]; [done| |done].
  unfold SFdiv_core_binary.
  set (e' := Z.min _ _). set (m' := match (0 - 0 - e')%Z with 0%Z => _ | _ => _ end).
  assert (0 <= m')%Z as Hm'.
  { unfold m'. destruct (0 - 0 - e')%Z; [done| |done]. by apply Z.shiftl_nonneg. }
  pose proof (Z.div_pos m' (Z.pos d) Hm' eq_refl) as Hq.
  unfold Z.div in Hq. destruct (Z.div_eucl m' (Z.pos d)) as [q r].
  by apply binary_round_aux_not_NaN.
Qed.

Lemma digit_not_Infinity_eqb (c : Ascii.ascii) (s : string) :
  is_digit c = true -> String.eqb (String c s) "Infinity" = false.
Proof. destruct c as [[] [] [] [] [] [] [] []]; vm_compute; congruence. Qed.

(** The Number of a string of digits is its natural number, rounded. *)
Lemma StringNumericValue_digits (digits : string) :
  DecimalDigits digits ->
  StringNumericValue digits = round_nearest false (decimal digits) 1.
Proof.
  intros Hdigits.
  destruct (DecimalDigits_first digits Hdigits) as (d & digits' & -> & Hd).
  unfold StringNumericValue. cbn [span_sign].
  rewrite (digit_not_sign d Hd), (digit_not_Infinity_eqb d digits' Hd).
  rewrite span_digits_all by (by destruct Hdigits).
  cbv beta iota zeta. cbn [String.length Z.of_nat].
  rewrite append_nil_r.
  change (Z.max (0 - 0) 0) with 0%Z. change (Z.max (- (0 - 0)) 0) with 0%Z.
  change (10 ^ 0)%Z with 1%Z. by rewrite Z.mul_1_r.
Qed.

(** The number of binary digits of a positive number. *)
Lemma digits2_pos_bounds (p : positive) :
  (2 ^ (Z.pos (digits2_pos p) - 1) <= Z.pos p < 2 ^ Z.pos (digits2_pos p))%Z.
Proof.
  induction p as [p IH|p IH|]; cbn [digits2_pos]; [| |done].
  - rewrite Pos2Z.inj_succ.
    replace (Z.succ (Z.pos (digits2_pos p)) - 1)%Z
      with (Z.succ (Z.pos (digits2_pos p) - 1)) by lia.
    rewrite !Z.pow_succ_r by lia. lia.
  - rewrite Pos2Z.inj_succ.
    replace (Z.succ (Z.pos (digits2_pos p)) - 1)%Z
      with (Z.succ (Z.pos (digits2_pos p) - 1)) by lia.
    rewrite !Z.pow_succ_r by lia. lia.
Qed.

Lemma Zdigits2_unique (m k : Z) :
  (2 ^ (k - 1) <= m < 2 ^ k)%Z -> (1 <= k)%Z -> Zdigits2 m = k.
Proof.
  intros [Hlow Hhigh] Hk.
  assert (0 < m)%Z as Hm
    by (pose proof (Z.pow_pos_nonneg 2 (k - 1)); lia).
  destruct m as [|p|p]; [lia| |lia]. cbn [Zdigits2].
  pose proof (digits2_pos_bounds p) as [Hlow' Hhigh'].
  destruct (Z.lt_trichotomy (Z.pos (digits2_pos p)) k) as [Hlt|[Heq|Hgt]]; [|done|].
  - pose proof (Z.pow_le_mono_r 2 (Z.pos (digits2_pos p)) (k - 1)). lia.
  - pose proof (Z.pow_le_mono_r 2 k (Z.pos (digits2_pos p) - 1)). lia.
Qed.

Lemma div_eucl_1_r (a : Z) : Z.div_eucl a 1 = (a, 0%Z).
Proof.
  pose proof (Z.div_1_r a) as Hq. pose proof (Z.mod_1_r a) as Hr.
  unfold Z.div, Z.modulo in *. destruct (Z.div_eucl a 1). congruence.
Qed.

Lemma shr_1_double (m : Z) :
  (0 < m)%Z ->
  shr_1 {| shr_m := 2 * m; shr_r := false; shr_s := false |} =
  {| shr_m := m; shr_r := false; shr_s := false |}.
Proof. intros Hm. by destruct m. Qed.

Lemma fexp_normal (e : Z) :
  (-1021 <= e)%Z -> fexp prec emax e = (e - 53)%Z.
Proof. intros He. unfold fexp, emin, prec, emax. lia. Qed.

(** A natural number below [2^53] is a Number: rounding leaves it as it
    is, as a mantissa of 53 bits with an exponent that is not positive. *)
Lemma round_nearest_exact (n : Z) :
  (0 < n < 2 ^ 53)%Z ->
  exists (m : positive) (e : Z),
    round_nearest false n 1 = S754_finite false m e /\
    (e <= 0)%Z /\ Z.pos m = (n * 2 ^ (- e))%Z.
Proof.
  intros [Hpos Hbelow]. destruct n as [|p|p]; [lia| |lia].
  pose proof (digits2_pos_bounds p) as [Hlow Hhigh].
  set (d := Z.pos (digits2_pos p)) in *.
  assert (1 <= d <= 53)%Z as Hd.
  { split; [unfold d; lia|].
    destruct (Z.le_gt_cases d 53) as [|Hgt]; [done|].
    pose proof (Z.pow_le_mono_r 2 53 (d - 1)). lia. }
  set (M := (Z.pos p * 2 ^ (53 - d))%Z).
  assert (2 ^ 52 <= M < 2 ^ 53)%Z as HM.
  { assert (0 < 2 ^ (53 - d))%Z as Hscale by (apply Z.pow_pos_nonneg; lia).
    assert (2 ^ 52 = 2 ^ (d - 1) * 2 ^ (53 - d))%Z as ->
      by (rewrite <- Z.pow_add_r by lia; f_equal; lia).
    assert (2 ^ 53 = 2 ^ d * 2 ^ (53 - d))%Z as ->
      by (rewrite <- Z.pow_add_r by lia; f_equal; lia).
    unfold M. split.
    - by apply Z.mul_le_mono_nonneg_r; [lia|].
    - by apply Z.mul_lt_mono_pos_r. }
  assert (exists m, M = Z.pos m) as [m Hm].
  { destruct M as [|m|m]; [lia|by exists m|lia]. }
  exists m, (d - 53)%Z. split_and!; [|lia|].
  2: { rewrite <- Hm. unfold M. f_equal. f_equal. lia. }
  unfold round_nearest, SFdiv_core_binary.
  change (Zdigits2 (Z.pos p)) with d. change (Zdigits2 1) with 1%Z.
  rewrite fexp_normal by lia.
  rewrite Z.min_l by lia.
  replace (0 - 0 - (d + 0 - (1 + 0) - 53))%Z with (54 - d)%Z by lia.
  destruct (54 - d)%Z as [|k|k] eqn:Hk; [lia| |lia].
  rewrite Z.shiftl_mul_pow2 by lia. rewrite <- Hk.
  replace (Z.pos p * 2 ^ (54 - d))%Z with (2 * M)%Z.
  2: { unfold M. replace (54 - d)%Z with (Z.succ (53 - d)) by lia.
       rewrite Z.pow_succ_r by lia. lia. }
  rewrite div_eucl_1_r.
  change (new_location 1 0) with loc_Exact.
  unfold binary_round_aux, shr_fexp.
  rewrite (Zdigits2_unique (2 * M) 54) by lia.
  rewrite fexp_normal by lia.
  replace (54 + (d + 0 - (1 + 0) - 53) - 53 - (d + 0 - (1 + 0) - 53))%Z
    with 1%Z by lia.
  cbn [shr shr_record_of_loc iter_pos]. rewrite shr_1_double by lia.
  cbn [shr_m loc_of_shr_record round_nearest_even].
  rewrite (Zdigits2_unique M 53) by lia.
  rewrite fexp_normal by lia.
  replace (53 + (d + 0 - (1 + 0) - 53 + 1) - 53 - (d + 0 - (1 + 0) - 53 + 1))%Z
    with 0%Z by lia.
  cbn [shr shr_m]. rewrite Hm.
  replace (d + 0 - (1 + 0) - 53 + 1 <=? emax - prec)%Z with true
    by (symmetry; apply Z.leb_le; unfold emax, prec; lia).
  f_equal. lia.
Qed.

(** Above [2^53] the Number of a literal is a rounded one, and out of
    range it is the infinity: 23 nines and [1e23] are both read as
    [5960464477539062 * 2^24], the odd number [2^53 + 1] as [2^53], and
    [1e309] as the infinity; a string with no literal at its start is
    read as NaN. *)
Example parseFloat_rounds :
  parseFloat "99999999999999999999999" = S754_finite false 5960464477539062 24 /\
  parseFloat "1e23" = S754_finite false 5960464477539062 24 /\
  parseFloat "9007199254740993" = S754_finite false 4503599627370496 1 /\
  parseFloat "1e309" = S754_infinity false /\
  parseFloat "-0" = S754_zero true /\
  parseFloat "abc" = S754_nan.
Proof. vm_compute. by repeat split. Qed.

(** ** The parts of a well-formed line *)

Lemma trimStart_none (s : string) :
  every (fun c => negb (is_whitespace c)) s = true -> trimStart s = s.
Proof.
  destruct s as [|c s]; cbn; [done|].
  rewrite andb_true_iff, negb_true_iff. by intros [-> _].
Qed.

Lemma trim_digits (digits : string) :
  digits_only digits = true -> trim digits = digits.
Proof.
  intros Hdigits. unfold trim.
  assert (every (fun c => negb (is_whitespace c)) digits = true) as Hnone
    by (revert Hdigits; apply every_impl, digit_not_whitespace).
  by rewrite trimStart_none, trimEnd_none.
Qed.

Lemma blank_comma_free (pad : string) : blank pad = true -> comma_free pad = true.
Proof. apply every_impl, whitespace_not_comma. Qed.

Lemma digits_comma_free (digits : string) :
  digits_only digits = true -> comma_free digits = true.
Proof. apply every_impl, digit_not_comma. Qed.

Lemma parseFloat_digits (digits : string) :
  DecimalDigits digits ->
  parseFloat digits = round_nearest false (decimal digits) 1.
Proof.
  intros Hdigits. unfold parseFloat.
  assert (trimStart digits = digits) as ->.
  { apply trimStart_none. destruct Hdigits as [_ Hdigits]. revert Hdigits.
    apply every_impl, digit_not_whitespace. }
  assert (StrDecimalLiteral digits) as Hliteral.
  { apply (Literal_signed "" digits); [constructor|].
    rewrite <- (append_nil_r digits). apply Literal_integer; [done|by left]. }
  destruct (trimmedPrefix_longest digits "" Hliteral) as (longest & Hlongest & Hlen).
  rewrite append_nil_r in Hlongest. rewrite Hlongest.
  apply trimmedPrefix_prefix in Hlongest as [_ [rest Hrest]].
  assert (rest = "") as ->.
  { apply (f_equal String.length) in Hrest. rewrite length_append in Hrest.
    destruct rest; [done|]. cbn in Hrest. lia. }
  rewrite append_nil_r in Hrest. subst longest.
  by apply StringNumericValue_digits.
Qed.

(** ** The properties of the input line *)

(** X12: White space around a line is ignored: for every line and all
    strings of white space (TAB, LF, VT, FF, CR, SP, NBSP) put before and
    after it, [parseInput] returns for the padded line what it returns for
    the line itself, whether a command, an error or a user and score. *)
Theorem parseInput_ignores_surrounding_whitespace (before input after : string) :
  blank before = true -> blank after = true ->
  parseInput (before ++ input ++ after) = parseInput input.
Proof.
  intros Hbefore Hafter. unfold parseInput. by rewrite trim_pad.
Qed.

Lemma parseInput_ignores_surrounding_whitespace_witness :
  blank "  " = true /\ blank " " = true /\
  parseInput ("  " ++ " Quit" ++ " ") = parseInput " Quit".
Proof.
  split; [reflexivity|]. split; [reflexivity|].
  apply (parseInput_ignores_surrounding_whitespace "  " " Quit" " ");
    reflexivity.
Defined.

(** X13: what reaches [addUserScore]: when the handler of a line adds a
    score, the trimmed line has exactly one comma, the user id is the
    trimmed text before it, is not empty, has no comma and no white space
    at its ends, and the score is the Number of the longest prefix of the
    trimmed text after the comma that is a [StrDecimalLiteral]: there is
    such a prefix, no longer prefix is a literal, what follows it is
    dropped, and the score is not NaN. *)
Theorem added_score_comes_from_one_comma
    (input userId : string) (score : spec_float) :
  on_line input = AddUserScore userId score ->
  userId <> "" /\ trim userId = userId /\ comma_free userId = true /\
  exists part0 part1 literal rest : string,
    trim input = part0 ++ "," ++ part1 /\
    comma_free part0 = true /\ comma_free part1 = true /\
    trim part0 = userId /\ trim part1 = literal ++ rest /\
    StrDecimalLiteral literal /\
    (forall literal' rest' : string,
       trim part1 = literal' ++ rest' -> StrDecimalLiteral literal' ->
       String.length literal' <= String.length literal) /\
    score = StringNumericValue literal /\ isNaN score = false.
Proof.
  unfold on_line, parseInput.
  destruct (String.eqb (toLowerCase (trim input)) "quit"
            || String.eqb (toLowerCase (trim input)) "exit"); [done|].
  destruct (String.eqb (toLowerCase (trim input)) "clear"); [done|].
  destruct (String.eqb (toLowerCase (trim input)) "help"); [done|].
  destruct (split (trim input)) as [|part0 [|part1 [|]]] eqn:Hsplit; try done.
  destruct (String.eqb_spec (trim part0) "") as [|Hid]; [done|].
  cbv zeta. destruct (isNaN (parseFloat (trim part1))) eqn:Hnumber; [done|].
  intros [= <- <-].
  pose proof (split_parts (trim input)) as Hparts. rewrite Hsplit in Hparts.
  apply Forall_cons in Hparts as [Hpart0 Hparts].
  apply Forall_inv in Hparts.
  unfold parseFloat in *. rewrite trimStart_trim in *.
  destruct (trimmedPrefix (trim part1)) as [literal|] eqn:Hprefix; [|done].
  pose proof (trimmedPrefix_sound _ _ Hprefix) as Hliteral.
  destruct (trimmedPrefix_prefix _ _ Hprefix) as [_ [rest Hrest]].
  split_and!; [done|apply trim_idem|by apply comma_free_trim|].
  exists part0, part1, literal, rest. split_and!; try done.
  - by apply split_two.
  - intros literal' rest' Hrest' Hliteral'.
    destruct (trimmedPrefix_longest literal' rest' Hliteral')
      as (longest & Hlongest & Hlen).
    rewrite <- Hrest', Hprefix in Hlongest. by injection Hlongest as <-.
Qed.

Lemma added_score_comes_from_one_comma_witness :
  "bob" <> "" /\ trim "bob" = "bob" /\ comma_free "bob" = true /\
  exists part0 part1 literal rest : string,
    trim " bob , 12.5e3xyz " = part0 ++ "," ++ part1 /\
    comma_free part0 = true /\ comma_free part1 = true /\
    trim part0 = "bob" /\ trim part1 = literal ++ rest /\
    StrDecimalLiteral literal /\
    (forall literal' rest' : string,
       trim part1 = literal' ++ rest' -> StrDecimalLiteral literal' ->
       String.length literal' <= String.length literal) /\
    S754_finite false 6871947673600000 (-39) = StringNumericValue literal /\
    isNaN (S754_finite false 6871947673600000 (-39)) = false.
Proof.
  apply (added_score_comes_from_one_comma " bob , 12.5e3xyz " "bob"
           (S754_finite false 6871947673600000 (-39))).
  vm_compute. reflexivity.
Defined.

(** X14: a well-formed line adds its score: for every user id that is not
    empty, has no comma and no white space at its ends, and every
    non-empty string of decimal digits, the line made of the id, a comma
    and the digits, with any white space before and after each of the two,
    makes the handler add exactly that id with the Number nearest to the
    natural number that the digits write (ties to even, and the infinity
    when it is out of range). That Number is the natural number itself
    when it is below [2^53]. *)
Theorem well_formed_line_adds_its_score
    (userId digits pad1 pad2 pad3 pad4 : string) :
  userId <> "" -> trim userId = userId -> comma_free userId = true ->
  digits <> "" -> digits_only digits = true ->
  blank pad1 = true -> blank pad2 = true ->
  blank pad3 = true -> blank pad4 = true ->
  on_line (pad1 ++ userId ++ pad2 ++ "," ++ pad3 ++ digits ++ pad4) =
    AddUserScore userId (round_nearest false (decimal digits) 1) /\
  ((0 < decimal digits < 2 ^ 53)%Z ->
   exists (m : positive) (e : Z),
     round_nearest false (decimal digits) 1 = S754_finite false m e /\
     (e <= 0)%Z /\ Z.pos m = (decimal digits * 2 ^ (- e))%Z) /\
  (decimal digits = 0%Z ->
   round_nearest false (decimal digits) 1 = S754_zero false).
Proof.
  intros Hid Htrim Hfree Hne Hdigits Hpad1 Hpad2 Hpad3 Hpad4.
  split; [|split; [apply round_nearest_exact|by intros ->]].
  set (core := userId ++ pad2 ++ String comma (pad3 ++ digits)).
  assert (pad1 ++ userId ++ pad2 ++ "," ++ pad3 ++ digits ++ pad4 =
          pad1 ++ core ++ pad4) as ->.
  { unfold core. rewrite !append_assoc. cbn. by rewrite !append_assoc. }
  assert (trimEnd digits = digits) as Hend.
  { assert (every (fun c => negb (is_whitespace c)) digits = true) as Hnone
      by (revert Hdigits; apply every_impl, digit_not_whitespace).
    by apply trimEnd_none. }
  assert (trim core = core) as Hcore.
  { unfold trim.
    assert (trimStart core = core) as ->.
    { destruct userId as [|h u]; [done|].
      assert (is_whitespace h = false) as Hh.
      { apply (trimStart_fixed h u). rewrite <- Htrim. apply trimStart_trim. }
      unfold core. cbn. by rewrite Hh. }
    unfold core.
    replace (userId ++ pad2 ++ String comma (pad3 ++ digits))
      with ((userId ++ pad2 ++ String comma pad3) ++ digits)
      by (rewrite !append_assoc; cbn; done).
    rewrite trimEnd_app_keep; rewrite Hend; done. }
  assert (comma_free core = false) as Hcomma.
  { unfold core. rewrite <- append_assoc. apply comma_free_app_comma. }
  assert (split core = [userId ++ pad2; pad3 ++ digits]) as Hsplit.
  { unfold core. rewrite <- append_assoc. rewrite split_app_comma.
    - rewrite split_comma_free; [done|].
      unfold comma_free. rewrite every_app.
      apply andb_true_iff. split;
        [by apply blank_comma_free|by apply digits_comma_free].
    - unfold comma_free. rewrite every_app.
      apply andb_true_iff. split; [done|by apply blank_comma_free]. }
  assert (trim (userId ++ pad2) = userId) as Hpart0.
  { rewrite <- Htrim at 2. exact (trim_pad "" userId pad2 eq_refl Hpad2). }
  assert (trim (pad3 ++ digits) = digits) as Hpart1.
  { pose proof (trim_pad pad3 digits "" Hpad3 eq_refl) as Hpad.
    rewrite append_nil_r in Hpad. rewrite Hpad. by apply trim_digits. }
  unfold on_line, parseInput. rewrite trim_pad by done. rewrite Hcore.
  rewrite !(not_a_word core) by done. cbn [orb].
  rewrite Hsplit, Hpart0, Hpart1.
  destruct (String.eqb_spec userId "") as [|_]; [done|].
  cbv zeta. rewrite parseFloat_digits by done.
  by rewrite round_nearest_not_NaN.
Qed.

Lemma well_formed_line_adds_its_score_witness :
  on_line (" " ++ "alice123" ++ " " ++ "," ++ "  " ++ "1500" ++ " ") =
    AddUserScore "alice123" (S754_finite false 6597069766656000 (-42)) /\
  exists (m : positive) (e : Z),
    S754_finite false 6597069766656000 (-42) = S754_finite false m e /\
    (e <= 0)%Z /\ Z.pos m = (1500 * 2 ^ (- e))%Z.
Proof.
  destruct (well_formed_line_adds_its_score "alice123" "1500" " " " " "  " " ")
    as (Hline & Hexact & _); try reflexivity; try discriminate.
  split; [exact Hline|].
  apply Hexact. vm_compute. split; reflexivity.
Defined.
